(** * momi2: event-tree likelihood primitives, embedded from the Python sources

    The development follows the three source files:
    - [moran_model.py]   : the Moran rate matrix and its action along one axis;
    - [size_history.py]  : Polanski-Kimmel weights, truncated size histories;
    - [demography.py]    : event tree, admixture tensor, observation state,
                           normalizing constant and the PRF log-likelihood.

    Numbers.  Python floats are embedded as exact reals [R]; the value
    [float('inf')], which the sources test for explicitly, is kept apart in
    [xreal].  Where a computation of the source would produce a non-finite
    float that [R] cannot hold, the embedding answers [NonFinite].
    Python integers are [nat] or [Z]; dictionaries are [gmap]; sets are
    [gset]; a dictionary whose iteration order matters is written as the
    list of its items in that order. *)

From Stdlib Require Import Reals Lra Lia ZArith.
From stdpp Require Import gmap strings list fin_maps sorting.

#[local] Set Warnings "-clear-no-such-hyp".

Open Scope R_scope.

(** ** Outcomes of Python calls *)

Inductive exn : Type :=
  | KeyError
  | IndexError
  | ValueError
  | AssertionError
  | RuntimeError
  | Exception (msg : string)
  | ExceptionAt (msg : string) (node : nat).

Inductive result (A : Type) : Type :=
  | Ok (a : A)
  | Raise (e : exn)
  | NonFinite.
Arguments Ok {A} a.
Arguments Raise {A} e.
Arguments NonFinite {A}.

Definition rbind {A B} (m : result A) (f : A → result B) : result B :=
  match m with
  | Ok a => f a
  | Raise e => Raise e
  | NonFinite => NonFinite
  end.

Notation "x ←r m ; f" := (rbind m (λ x, f))
  (at level 20, m at level 100, f at level 200, only parsing, right associativity).

(** [d[k]] on a dictionary: a missing key raises [KeyError]. *)
Definition getitem {K V} `{Countable K} (d : gmap K V) (k : K) : result V :=
  match d !! k with
  | Some v => Ok v
  | None => Raise KeyError
  end.

(** A float that may be [float('inf')]. *)
Inductive xreal : Type :=
  | Fin (r : R)
  | PInf.

Definition xreal_eqb_zero (x : xreal) : bool :=
  match x with
  | Fin r => if Req_dec_T r 0 then true else false
  | PInf => false
  end.

(** ** Finite sums and binomial coefficients *)

(** [big_sum f m] is f 0 + ... + f (m-1). *)
Fixpoint big_sum (f : nat → R) (m : nat) : R :=
  match m with
  | O => 0
  | S k => big_sum f k + f k
  end.

Definition sum_listR (l : list R) : R := foldr Rplus 0 l.

(** Binomial coefficient on naturals, zero when [k > n]
    ([scipy.misc.comb] and [scipy.special.comb] on non-negative integers). *)
Fixpoint choose (n k : nat) : nat :=
  match n, k with
  | _, O => 1%nat
  | O, S _ => 0%nat
  | S n', S k' => (choose n' k' + choose n' (S k'))%nat
  end.

(** [scipy.misc.comb(N, k)] on integers: zero outside [0 <= k <= N]. *)
Definition comb (N k : Z) : R :=
  if ((0 <=? k)%Z && (k <=? N)%Z)%bool
  then INR (choose (Z.to_nat N) (Z.to_nat k))
  else 0.

(** [numpy.expm1]. *)
Definition expm1 (x : R) : R := exp x - 1.

(** ** moran_model.py *)

(** [numpy] arrays: a shape and the entry at each multi-index. *)
Record ndarray : Type := mk_ndarray {
  shape : list nat;
  item : list nat → R
}.

(** The two [numpy.linalg] routines the module calls, on square matrices
    of the given dimension. *)
Class Linalg : Type := {
  linalg_eig : nat → (nat → nat → R) → (nat → R) * (nat → nat → R);
  linalg_inv : nat → (nat → nat → R) → (nat → nat → R)
}.

(** [rate_matrix(n)]: the diagonals [diag[:-1]], [-2*diag], [diag[1:]] are
    placed at offsets 1, 0, -1 of an (n+1) x (n+1) matrix. *)
Definition rate_diag (n i : nat) : R := INR i * (INR n - INR i) / 2.

Definition rate_matrix (n : nat) : nat → nat → R :=
  λ r c,
    if (c =? r + 1)%nat then rate_diag n r
    else if (c =? r)%nat then -2 * rate_diag n r
    else if (r =? c + 1)%nat then rate_diag n r
    else 0.

Definition moran_eigensystem `{Linalg} (n : nat)
  : (nat → nat → R) * (nat → R) * (nat → nat → R) :=
  let M := rate_matrix n in
  let '(d, P) := linalg_eig (S n) M in
  (P, d, linalg_inv (S n) P).

(** [numpy.dot] of two dim x dim matrices and [numpy.diag] of a vector. *)
Definition dot (dim : nat) (A B : nat → nat → R) : nat → nat → R :=
  λ i j, big_sum (λ a, A i a * B a j) dim.

Definition diag (d : nat → R) : nat → nat → R :=
  λ a b, if (a =? b)%nat then d a else 0.

(** [l[:axis] + [j] + l[axis:]]. *)
Definition insert_at {A} (axis : nat) (j : A) (l : list A) : list A :=
  take axis l ++ j :: drop axis l.

(** [tensordot(v, M, axes=([axis],[1]))] for a dim x dim matrix [M]: the
    contracted axis of [v] disappears and the free axis of [M] comes last. *)
Definition tensordot (v : ndarray) (dim : nat) (M : nat → nat → R) (axis : nat)
  : result ndarray :=
  match shape v !! axis with
  | None => Raise IndexError
  | Some m =>
      if (m =? dim)%nat then
        let nd := length (shape v) in
        Ok {| shape := delete axis (shape v) ++ [dim];
              item := λ idx,
                big_sum (λ j, item v (insert_at axis j (take (nd - 1) idx))
                              * M (nth (nd - 1) idx 0%nat) j) dim |}
      else Raise ValueError
  end.

(** Position of [p] in [axes]. *)
Fixpoint index_of (p : nat) (axes : list nat) : nat :=
  match axes with
  | [] => 0%nat
  | a :: rest => if (a =? p)%nat then 0%nat else S (index_of p rest)
  end.

(** [numpy.transpose(a, axes)]: axis [i] of the result is axis [axes[i]] of
    [a]; [axes] has to be a permutation of the axes of [a]. *)
Definition transpose (a : ndarray) (axes : list nat) : result ndarray :=
  let nd := length (shape a) in
  if decide (axes ≡ₚ seq 0 nd) then
    Ok {| shape := (λ ax, nth ax (shape a) 0%nat) <$> axes;
          item := λ idx,
            item a ((λ p, nth (index_of p axes) idx 0%nat) <$> seq 0 nd) |}
  else Raise ValueError.

(** [moran_action(t, v, axis)] for a finite [t] and a non-negative [axis]. *)
Definition moran_action `{Linalg} (t : R) (v : ndarray) (axis : nat)
  : result ndarray :=
  match shape v !! axis with
  | None => Raise IndexError
  | Some m =>
      match m with
      | O => Raise ValueError
      | S n =>
          let '(P, d, Pinv) := moran_eigensystem n in
          let D := diag (λ a, exp (t * d a)) in
          let vlen := length (shape v) in
          ret ←r tensordot v (S n) (dot (S n) P (dot (S n) D Pinv)) axis;
          ret ←r transpose ret
                   (seq 0 axis ++ [vlen - 1] ++ seq axis (vlen - 1 - axis))%nat;
          if decide (shape ret = shape v) then Ok ret
          else Raise AssertionError
      end
  end.

(** The matrix P diag(e^(t d)) P^-1 built from the eigensystem of
    [rate_matrix n], as [moran_action] forms it. *)
Definition moran_matrix `{Linalg} (t : R) (n : nat) : nat → nat → R :=
  let '(P, d, Pinv) := moran_eigensystem n in
  dot (S n) P (dot (S n) (diag (λ a, exp (t * d a))) Pinv).

(** ** size_history.py *)

(** Loops that may raise: the first failure ends the loop. *)
Definition result_mapM {A B} (f : A → result B) (l : list A) : result (list B) :=
  foldr (λ a acc, b ←r f a; bs ←r acc; Ok (b :: bs)) (Ok []) l.

(** [W(n, b, j)], the Polanski-Kimmel weights.  For [j < 2] the recursion of
    the source never reaches a base case and ends in Python's recursion
    limit. *)
Fixpoint W (n b : nat) (j : nat) : result R :=
  match j with
  | 0%nat | 1%nat => Raise RuntimeError
  | 2%nat => Ok (6 / INR (n + 1))
  | 3%nat => Ok (30 * (INR n - 2 * INR b) / INR (n + 1) / INR (n + 2))
  | S (S j2 as j1) =>
      let jj := INR j2 in
      w2 ←r W n b j2;
      w1 ←r W n b j1;
      Ok (w2 * - (1 + jj) * (3 + 2 * jj) * (INR n - jj) / jj / (2 * jj - 1)
             / (INR n + jj + 1)
          + w1 * (3 + 2 * jj) * (INR n - 2 * INR b) / jj / (INR n + jj + 1))
  end.

(** The base class: [n_max] and [tau] are set by [__init__]; [etjj] and
    [scaled_time] are the cached properties every subclass provides. *)
Record TruncatedSizeHistory : Type := mk_history {
  n_max : nat;
  tau : xreal;
  etjj : list R;
  scaled_time : xreal
}.

(** [_before_tmrca(partial_sfs)]. *)
Definition _before_tmrca (h : TruncatedSizeHistory)
    (partial_sfs : gmap (nat * nat) R) : result R :=
  terms ←r result_mapM
             (λ b, x ←r getitem partial_sfs (b, n_max h);
                   Ok (x * INR b / INR (n_max h)))
             (seq 1 (n_max h - 1));
  match tau h with
  | Fin t => Ok (t - sum_listR terms)
  | PInf => NonFinite
  end.

(** [etjj[:, None] * ww]: the column is broadcast against the rows of [ww]. *)
Definition broadcast_column (col : list R) (rows : nat) : result (list R) :=
  if (length col =? rows)%nat then Ok col
  else match col with
       | [x] => Ok (replicate rows x)
       | _ => Raise ValueError
       end.

(** The cached property [sfs]. *)
Definition sfs (h : TruncatedSizeHistory) : result (gmap (nat * nat) R) :=
  let n := n_max h in
  if (n =? 1)%nat then
    match tau h with
    | Fin t => Ok {[ (1%nat, 1%nat) := t ]}
    | PInf => NonFinite
    end
  else if (n =? 0)%nat then Raise ValueError
  else
    ww ←r result_mapM
            (λ i, result_mapM (λ j, W n j i) (seq 1 (n - 1)))
            (seq 2 (n - 1));
    col ←r broadcast_column (etjj h) (n - 1);
    let bv := (λ c, sum_listR (zip_with (λ e row, e * nth c row 0) col ww))
                <$> seq 0 (n - 1) in
    let ret : gmap (nat * nat) R :=
      list_to_map (imap (λ k v, ((S k, n), v)) bv) in
    m ←r _before_tmrca h ret;
    Ok (<[ (n, n) := m ]> ret).

(** [freq(n_derived, n)]. *)
Definition freq (h : TruncatedSizeHistory) (n_derived n : nat) : result R :=
  if (n_derived =? 0)%nat then Ok 0
  else d ←r sfs h; getitem d (n_derived, n).

(** [transition_prob(v, axis)].  With an infinite [scaled_time] the Moran
    action multiplies infinity by the zero eigenvalue of the rate matrix. *)
Definition transition_prob `{Linalg} (h : TruncatedSizeHistory)
    (v : ndarray) (axis : nat) : result ndarray :=
  if xreal_eqb_zero (scaled_time h) then Ok v
  else match scaled_time h with
       | Fin t => moran_action t v axis
       | PInf =>
           match shape v !! axis with
           | None => Raise IndexError
           | Some O => Raise ValueError
           | Some _ => NonFinite
           end
       end.

(** [ConstantTruncatedSizeHistory.etjj]: one entry for each j = 2..n_max. *)
Definition constant_etjj (n_max : nat) (tau : xreal) (N : R) : list R :=
  (λ j,
     let denom := INR (choose j 2) / N in
     match tau with
     | PInf => 1 / denom
     | Fin t =>
         let scaled_time := denom * t in
         let num := - expm1 (- scaled_time) in
         num / denom
     end) <$> seq 2 (n_max - 1).

(** [ConstantTruncatedSizeHistory.scaled_time]: [tau / N], for [N > 0]. *)
Definition constant_scaled_time (tau : xreal) (N : R) : xreal :=
  match tau with
  | Fin t => Fin (t / N)
  | PInf => PInf
  end.

(** [ConstantTruncatedSizeHistory(n_max, tau, N)]. *)
Definition ConstantTruncatedSizeHistory (n_max : nat) (tau : xreal) (N : R)
  : result TruncatedSizeHistory :=
  if Rle_dec N 0 then Raise (Exception "N must be positive")
  else Ok {| n_max := n_max; tau := tau;
             etjj := constant_etjj n_max tau N;
             scaled_time := constant_scaled_time tau N |}.

(** ** demography.py *)

(** Populations are the nodes of the graph; an edge is (parent, child). *)
Abbreviation pop := nat (only parsing).
Abbreviation edge := (nat * nat)%type (only parsing).

(** Events of the event tree: the one-element tuple [(l,)] of a leaf, or a
    raw event of [graph['events']], a tuple of edges. *)
Inductive event : Type :=
  | LeafEvent (l : pop)
  | RawEvent (e : list edge).

Global Instance event_eq_dec : EqDecision event.
Proof. solve_decision. Defined.

Global Instance event_countable : Countable event.
Proof.
  refine (inj_countable'
            (λ ev, match ev with LeafEvent l => inl l | RawEvent e => inr e end)
            (λ s, match s with inl l => LeafEvent l | inr e => RawEvent e end) _).
  by intros [].
Defined.

(** The attributes stored for an event. *)
Record event_data : Type := mk_event_data {
  ed_subpops : list pop;
  ed_parent_pops : list pop;
  ed_child_pops : gmap pop event
}.

Record EventTree : Type := mk_event_tree {
  et_edges : list (event * event);
  et_node : gmap event event_data;
  et_root : event
}.

(** The graph.  [nodes] holds the integer-valued attributes of every node
    (['lineages'], and the observation state ['derived'], ['ancestral']);
    [n_derived_cached] and [totalSfsSum_cache] are the two cached properties
    whose presence the methods below depend on. *)
Record Demography : Type := mk_demography {
  nodes : gmap pop (gmap string Z);
  edges : gset edge;
  graph_events : list (list edge);
  splitprobs : gmap pop (gmap pop R);
  n_derived_cached : bool;
  totalSfsSum_cache : option R
}.

Definition set_nodes (G : Demography) (nd : gmap pop (gmap string Z)) : Demography :=
  {| nodes := nd; edges := edges G; graph_events := graph_events G;
     splitprobs := splitprobs G; n_derived_cached := n_derived_cached G;
     totalSfsSum_cache := totalSfsSum_cache G |}.

Definition set_n_derived_cached (G : Demography) (b : bool) : Demography :=
  {| nodes := nodes G; edges := edges G; graph_events := graph_events G;
     splitprobs := splitprobs G; n_derived_cached := b;
     totalSfsSum_cache := totalSfsSum_cache G |}.

Definition set_totalSfsSum (G : Demography) (c : option R) : Demography :=
  {| nodes := nodes G; edges := edges G; graph_events := graph_events G;
     splitprobs := splitprobs G; n_derived_cached := n_derived_cached G;
     totalSfsSum_cache := c |}.

Definition successors (G : Demography) (v : pop) : list pop :=
  (elements (filter (λ e : edge, e.1 = v) (edges G))).*2.

Definition in_edges (G : Demography) (v : pop) : list edge :=
  elements (filter (λ e : edge, e.2 = v) (edges G)).

(** The cached property [leaves]: the nodes of out-degree 0. *)
Definition leaves (G : Demography) : gset pop :=
  filter (λ v, successors G v = []) (dom (nodes G)).

Definition is_leaf (G : Demography) (node : pop) : bool :=
  bool_decide (node ∈ leaves G).

(** The cached property [root]. *)
Definition root (G : Demography) : result pop :=
  match elements (filter (λ v, in_edges G v = []) (dom (nodes G))) with
  | [r] => Ok r
  | _ => Raise AssertionError
  end.

(** Nodes met by a depth-first search from [v]. *)
Fixpoint dfs_nodes (G : Demography) (fuel : nat) (v : pop) : gset pop :=
  match fuel with
  | O => {[ v ]}
  | S f => {[ v ]} ∪ ⋃ (dfs_nodes G f <$> successors G v)
  end.

Definition sum_listZ (l : list Z) : Z := foldr Z.add 0%Z l.

(** One entry of [n_lineages_at_node]; the children of a node are finished
    before the node itself, a cycle leaves a child without entry. *)
Fixpoint n_lineages_from (G : Demography) (fuel : nat) (v : pop) : result Z :=
  if is_leaf G v then
    nd ←r getitem (nodes G) v; getitem nd "lineages"
  else
    match fuel with
    | O => Raise KeyError
    | S f => xs ←r result_mapM (n_lineages_from G f) (successors G v);
             Ok (sum_listZ xs)
    end.

(** The cached property [n_lineages_at_node]. *)
Definition n_lineages_at_node (G : Demography) : result (gmap pop Z) :=
  r ←r root G;
  let fuel := size (nodes G) in
  kvs ←r result_mapM (λ v, n ←r n_lineages_from G fuel v; Ok (v, n))
           (elements (dfs_nodes G fuel r));
  Ok (list_to_map kvs).

(** *** The event tree *)

(** The three dictionaries and lists the loop of [eventTree] carries. *)
Record tree_state : Type := mk_tree_state {
  currEvents : gmap pop event;
  eventDict : gmap event event_data;
  eventEdgeList : list (event * event)
}.

Definition leaf_event_data (l : pop) : event_data :=
  {| ed_subpops := [l]; ed_parent_pops := [l]; ed_child_pops := ∅ |}.

Definition tree_init (lv : gset pop) : tree_state :=
  {| currEvents := set_to_map (λ l, (l, LeafEvent l)) lv;
     eventDict := set_to_map (λ l, (LeafEvent l, leaf_event_data l)) lv;
     eventEdgeList := [] |}.

(** One iteration of [for e in self.graph['events']]. *)
Definition tree_step (st : tree_state) (e : list edge) : result tree_state :=
  match e with
  | [] => Raise ValueError
  | _ =>
      let parent_pops : gset pop := list_to_set e.*1 in
      let child_pops : gset pop := list_to_set e.*2 in
      evs ←r result_mapM (getitem (currEvents st)) (elements child_pops);
      let child_events : gset event := list_to_set evs in
      if bool_decide (length e = 2%nat
                      ∧ (size parent_pops + size child_pops = 3)%nat
                      ∧ (size child_events = 1%nat ∨ size child_events = 2%nat))
      then
        subs ←r result_mapM (λ c, d ←r getitem (eventDict st) c; Ok (ed_subpops d))
                  (elements child_events);
        let sub_pops : gset pop :=
          (list_to_set (concat subs) ∖ child_pops) ∪ parent_pops in
        let ev := RawEvent e in
        let data :=
          {| ed_parent_pops := elements parent_pops;
             ed_subpops := elements sub_pops;
             ed_child_pops := filter (λ kv, kv.1 ∈ child_pops) (currEvents st) |} in
        let updated := gset_to_gmap ev sub_pops ∪ currEvents st in
        Ok {| currEvents := filter (λ kv, kv.1 ∉ child_pops) updated;
              eventDict := <[ ev := data ]> (eventDict st);
              eventEdgeList :=
                eventEdgeList st ++ ((λ c, (ev, c)) <$> elements child_events) |}
      else Raise AssertionError
  end.

Fixpoint tree_loop (st : tree_state) (events : list (list edge))
  : result tree_state :=
  match events with
  | [] => Ok st
  | e :: rest => st' ←r tree_step st e; tree_loop st' rest
  end.

(** The cached property [eventTree]. *)
Definition eventTree (G : Demography) : result EventTree :=
  st ←r tree_loop (tree_init (leaves G)) (graph_events G);
  match (map_to_list (currEvents st)).*2 with
  | [r] => Ok {| et_edges := eventEdgeList st; et_node := eventDict st;
                 et_root := r |}
  | _ => Raise AssertionError
  end.

Definition event_root (G : Demography) : result event :=
  T ←r eventTree G; Ok (et_root T).

Definition sub_pops (G : Demography) (ev : event) : result (list pop) :=
  T ←r eventTree G; d ←r getitem (et_node T) ev; Ok (ed_subpops d).

Definition parent_pops (G : Demography) (ev : event) : result (list pop) :=
  T ←r eventTree G; d ←r getitem (et_node T) ev; Ok (ed_parent_pops d).

Definition child_pops (G : Demography) (ev : event) : result (gmap pop event) :=
  T ←r eventTree G; d ←r getitem (et_node T) ev; Ok (ed_child_pops d).

(** *** Well-formed event lists *)

(** The event list is well formed when every event is a pair of edges with
    three population roles, consumes populations that are alive, creates
    populations not met before, and a single population is alive after the
    last event.  [live] are the populations alive, [seen] those met so far. *)
Fixpoint wf_events (live seen : gset pop) (events : list (list edge)) : bool :=
  match events with
  | [] => bool_decide (size live = 1%nat)
  | e :: rest =>
      let parent_pops : gset pop := list_to_set e.*1 in
      let child_pops : gset pop := list_to_set e.*2 in
      bool_decide (length e = 2%nat
                   ∧ (size parent_pops + size child_pops = 3)%nat
                   ∧ child_pops ⊆ live
                   ∧ parent_pops ## seen)
      && wf_events ((live ∖ child_pops) ∪ parent_pops) (seen ∪ parent_pops) rest
  end.

Definition well_formed_events (G : Demography) : bool :=
  wf_events (leaves G) (leaves G) (graph_events G).

(** The state after one event whose children are alive. *)
Definition stepped (st : tree_state) (e : list edge)
    (CE : gset event) (S : gset pop) : tree_state :=
  let K : gset pop := list_to_set e.*2 in
  {| currEvents := filter (λ kv, kv.1 ∉ K)
                     (gset_to_gmap (RawEvent e) S ∪ currEvents st);
     eventDict := <[ RawEvent e :=
                      {| ed_subpops := elements S;
                         ed_parent_pops := elements (list_to_set e.*1 : gset pop);
                         ed_child_pops := filter (λ kv, kv.1 ∈ K) (currEvents st) |} ]>
                    (eventDict st);
     eventEdgeList := eventEdgeList st ++ ((λ c, (RawEvent e, c)) <$> elements CE) |}.

(** The edges of the event tree, from an event to its child events. *)
Definition tree_edge (T : EventTree) : relation event :=
  λ a b, (a, b) ∈ et_edges T.

(** What the loop of [eventTree] maintains on well-formed input: every live
    population is owned by an event whose [subpops] are exactly the
    populations it owns; the owning events are no event's child, and every
    event is reached from one of them. *)
Record tree_inv (sample live seen : gset pop) (st : tree_state) : Prop := {
  inv_dom : dom (currEvents st) = live;
  inv_seen : live ⊆ seen;
  inv_owner : ∀ p ev, currEvents st !! p = Some ev →
                ∃ d, eventDict st !! ev = Some d ∧ p ∈ ed_subpops d;
  inv_owned : ∀ q ev d p, currEvents st !! q = Some ev →
                eventDict st !! ev = Some d → p ∈ ed_subpops d →
                currEvents st !! p = Some ev;
  inv_data : ∀ ev d, eventDict st !! ev = Some d →
               NoDup (ed_subpops d) ∧ ed_parent_pops d ≠ []
               ∧ NoDup (ed_parent_pops d) ∧ ed_parent_pops d ⊆ ed_subpops d;
  inv_raw : ∀ e d, eventDict st !! RawEvent e = Some d →
              ∃ p, p ∈ e.*1 ∧ p ∈ seen;
  inv_edges : ∀ x y, (x, y) ∈ eventEdgeList st → is_Some (eventDict st !! y);
  inv_top : ∀ p ev x, currEvents st !! p = Some ev → (x, ev) ∉ eventEdgeList st;
  inv_reach : ∀ ev d, eventDict st !! ev = Some d →
                ∃ p top, currEvents st !! p = Some top
                         ∧ rtc (λ a b, (a, b) ∈ eventEdgeList st) top ev;
  inv_leaves : ∀ l, l ∈ sample → is_Some (eventDict st !! LeafEvent l)
}.

(** *** The admixture tensor *)

(** [scipy.signal.fftconvolve] of two vectors: the full convolution. *)
Definition fftconvolve (a b : list R) : list R :=
  match a, b with
  | [], _ | _, [] => []
  | _, _ =>
      (λ k, big_sum (λ i, nth i a 0 * (if (i <=? k)%nat then nth (k - i) b 0 else 0))
                    (S k))
        <$> seq 0 (length a + length b - 1)
  end.

(** The vector built for one parent inside [der_in_admixture_node]. *)
Definition der_from_parent_probs (n_node : nat) (n_from_parent : nat)
    (der_in_parent : Z) : list R :=
  let anc_in_parent := (Z.of_nat n_node - der_in_parent)%Z in
  (λ der_from_parent : nat,
     let anc_from_parent := (Z.of_nat n_from_parent - Z.of_nat der_from_parent)%Z in
     comb der_in_parent (Z.of_nat der_from_parent)
     * comb anc_in_parent anc_from_parent
     / comb (Z.of_nat n_node) (Z.of_nat n_from_parent))
    <$> seq 0 (n_from_parent + 1).

Definition der_in_admixture_node (n_from_1 n_from_2 : nat) (der_in_1 der_in_2 : Z)
  : result (list R) :=
  let n_node := (n_from_1 + n_from_2)%nat in
  let ret := fftconvolve (der_from_parent_probs n_node n_from_1 der_in_1)
                         (der_from_parent_probs n_node n_from_2 der_in_2) in
  if (length ret =? n_node + 1)%nat then Ok ret else Raise AssertionError.

(** The entry [ret[child_der][par1_der][par2_der]] after the innermost loop. *)
Definition admixture_entry (n_node : nat) (prob1 prob2 : R)
    (child_der par1_der par2_der : nat) : result R :=
  terms ←r result_mapM
             (λ n_from_1,
                let n_from_2 := (n_node - n_from_1)%nat in
                d ←r der_in_admixture_node n_from_1 n_from_2
                       (Z.of_nat par1_der) (Z.of_nat par2_der);
                Ok (INR (choose n_node n_from_1) * prob1 ^ n_from_1
                    * prob2 ^ n_from_2 * nth child_der d 0))
             (seq 0 (n_node + 1));
  Ok (fold_left Rplus terms 0).

Definition range3 (m : nat) : list (nat * nat * nat) :=
  c ← seq 0 m; p1 ← seq 0 m; p2 ← seq 0 m; [(c, p1, p2)].

(** A [LabeledAxisArray]: an array and the population labelling each axis. *)
Record LabeledAxisArray : Type := mk_labeled {
  la_array : ndarray;
  la_labels : list pop
}.

(** [admixture_prob(admixture_node)]. *)
Definition admixture_prob (G : Demography) (admixture_node : pop)
  : result LabeledAxisArray :=
  lin ←r n_lineages_at_node G;
  n ←r getitem lin admixture_node;
  let n_node := Z.to_nat n in
  let m := Z.to_nat (n + 1) in
  match in_edges G admixture_node with
  | [edge1; edge2] =>
      let parent1 := edge1.1 in
      let parent2 := edge2.1 in
      sp ←r getitem (splitprobs G) admixture_node;
      prob1 ←r getitem sp parent1;
      prob2 ←r getitem sp parent2;
      if Req_dec_T (prob1 + prob2) 1 then
        entries ←r result_mapM
                     (λ '(c, p1, p2),
                        x ←r admixture_entry n_node prob1 prob2 c p1 p2;
                        Ok ((c, p1, p2), x))
                     (range3 m);
        let table : gmap (nat * nat * nat) R := list_to_map entries in
        Ok {| la_array :=
                {| shape := if (m =? 0)%nat then [0%nat] else [m; m; m];
                   item := λ idx,
                     match idx with
                     | [c; p1; p2] => default 0 (table !! (c, p1, p2))
                     | _ => 0
                     end |};
              la_labels := [admixture_node; parent1; parent2] |}
      else Raise AssertionError
  | _ => Raise ValueError
  end.

(** *** Observation state *)

(** Methods that change the graph: the outcome, and the graph they leave
    behind, also when they raise. *)
Definition M (A : Type) : Type := Demography → result A * Demography.

Definition m_ret {A} (a : A) : M A := λ G, (Ok a, G).

Definition m_bind {A B} (m : M A) (f : A → M B) : M B :=
  λ G, match m G with
       | (Ok a, G') => f a G'
       | (Raise e, G') => (Raise e, G')
       | (NonFinite, G') => (NonFinite, G')
       end.

Notation "x ←m m ; f" := (m_bind m (λ x, f))
  (at level 20, m at level 100, f at level 200, only parsing, right associativity).

(** A computation that only reads the graph. *)
Definition m_read {A} (f : Demography → result A) : M A := λ G, (f G, G).

Fixpoint m_foldl {A B} (f : B → A → M B) (acc : B) (l : list A) : M B :=
  match l with
  | [] => m_ret acc
  | a :: rest => acc' ←m f acc a; m_foldl f acc' rest
  end.

(** The test [ndn['lineages'] != ndn['derived'] + ndn['ancestral']]. *)
Definition state_mismatch (ndn : gmap string Z) : result bool :=
  l ←r getitem ndn "lineages";
  d ←r getitem ndn "derived";
  a ←r getitem ndn "ancestral";
  Ok (negb (l =? d + a)%Z).

(** The loop of [update_state] over the items of [state], on the node
    attributes.  The attributes are written before they are checked. *)
Fixpoint update_nodes (state : list (pop * gmap string Z))
    (nd : gmap pop (gmap string Z)) : result () * gmap pop (gmap string Z) :=
  match state with
  | [] => (Ok (), nd)
  | (node, upd) :: rest =>
      match nd !! node with
      | None => (Raise KeyError, nd)
      | Some ndn =>
          let ndn' := upd ∪ ndn in
          let nd' := <[ node := ndn' ]> nd in
          match state_mismatch ndn' with
          | Ok false => update_nodes rest nd'
          | Ok true =>
              (Raise (ExceptionAt
                        "derived + ancestral must add to lineages at node" node),
               nd')
          | Raise e => (Raise e, nd')
          | NonFinite => (NonFinite, nd')
          end
      end
  end.

(** Whether [n_derived_subtended_by] can be computed: every leaf has a
    ['derived'] attribute. *)
Definition n_derived_computable (G : Demography) : bool :=
  bool_decide (set_Forall (λ l, is_Some (nodes G !! l ≫= (.!! "derived")))
                          (leaves G)).

(** [update_state(state)]: after the loop the cached
    [n_derived_subtended_by] is computed if absent, then dropped. *)
Definition update_state (state : list (pop * gmap string Z)) : M () :=
  λ G,
    match update_nodes state (nodes G) with
    | (Ok _, nd') =>
        let G' := set_nodes G nd' in
        if (n_derived_cached G' || n_derived_computable G')%bool
        then (Ok (), set_n_derived_cached G' false)
        else (Raise KeyError, G')
    | (r, nd') => (r, set_nodes G nd')
    end.

(** *** The sum-product engine *)

(** What the engine sees of the graph: everything but the two caches, whose
    presence does not change any answer. *)
Definition uncached (G : Demography) : Demography :=
  {| nodes := nodes G; edges := edges G; graph_events := graph_events G;
     splitprobs := splitprobs G; n_derived_cached := false;
     totalSfsSum_cache := None |}.

(** The interface of [sum_product.py] used by this module.  Its methods read
    the graph; the flag they return tells whether the call stored the cached
    property [n_derived_subtended_by]. *)
Class SumProduct : Type := {
  sp_new : Demography → result () * bool;
  partial_likelihood_bottom : Demography → event → result ndarray * bool;
  get_zeroth_vector : LabeledAxisArray → pop → result (list R);
  truncated_sfs : Demography → pop → result (list R) * bool;
  sp_p : Demography → result R * bool
}.

Definition engine_call {A} (f : Demography → result A * bool) : M A :=
  λ G, let '(r, b) := f (uncached G) in
       (r, set_n_derived_cached G (n_derived_cached G || b)).

(** Elementwise product of two vectors with numpy's broadcasting. *)
Definition vec_mul (a b : list R) : result (list R) :=
  if (length a =? length b)%nat then Ok (zip_with Rmult a b)
  else match a, b with
       | [x], _ => Ok (Rmult x <$> b)
       | _, [y] => Ok ((λ x, x * y) <$> a)
       | _, _ => Raise ValueError
       end.

(** *** The normalizing constant *)

Definition saved_state (G : Demography) (lv : list pop)
  : result (list (pop * gmap string Z)) :=
  result_mapM
    (λ v, nd ←r getitem (nodes G) v;
          a ←r getitem nd "ancestral";
          d ←r getitem nd "derived";
          Ok (v, ({[ "ancestral" := a; "derived" := d ]} : gmap string Z)))
    lv.

Definition all_ancestral_state (G : Demography) (lv : list pop)
  : result (list (pop * gmap string Z)) :=
  result_mapM
    (λ v, nd ←r getitem (nodes G) v;
          n ←r getitem nd "lineages";
          Ok (v, ({[ "derived" := 0%Z; "ancestral" := n ]} : gmap string Z)))
    lv.

Definition all_derived_state (G : Demography) (lv : list pop)
  : result (list (pop * gmap string Z)) :=
  result_mapM
    (λ v, nd ←r getitem (nodes G) v;
          n ←r getitem nd "lineages";
          Ok (v, ({[ "derived" := n; "ancestral" := 0%Z ]} : gmap string Z)))
    lv.

(** The body of the double loop over events and their parent populations. *)
Definition branch_term `{SumProduct} (ev : event) (subpops : list pop)
    (newpop : pop) : M R :=
  arr ←m engine_call (λ G, partial_likelihood_bottom G ev);
  let labeledArray := {| la_array := arr; la_labels := subpops |} in
  z ←m m_read (λ _, get_zeroth_vector labeledArray newpop);
  s ←m engine_call (λ G, truncated_sfs G newpop);
  prod ←m m_read (λ _, vec_mul ((λ x, 1 - x) <$> z) s);
  m_ret (sum_listR prod).

(** [assert cond] as the last statement before [return ret]. *)
Definition m_assert_return (cond : bool) (ret : R) : M R :=
  λ G, if cond then (Ok ret, G) else (Raise AssertionError, G).

(** [normalizing_constant(demography)] up to its final assertion: the value
    of [ret] when the assertion is reached. *)
Definition normalizing_constant_value `{SumProduct} : M R :=
  λ G0,
    let lv := elements (leaves G0) in
    let prev_state :=
      match saved_state G0 lv with
      | Ok st => Some st
      | _ => None
      end in
    (state ←m m_read (λ G, all_ancestral_state G lv);
     _ ←m update_state state;
     _ ←m engine_call sp_new;
     T ←m m_read eventTree;
     ret ←m m_foldl
              (λ ret '(ev, d),
                 m_foldl (λ ret newpop,
                            x ←m branch_term ev (ed_subpops d) newpop;
                            m_ret (ret + x))
                         ret (ed_parent_pops d))
              0 (map_to_list (et_node T));
     state ←m m_read (λ G, all_derived_state G lv);
     _ ←m update_state state;
     _ ←m engine_call sp_new;
     p ←m engine_call sp_p;
     let ret := ret - p in
     _ ←m match prev_state with
          | Some st => update_state st
          | None => m_ret ()
          end;
     m_ret ret) G0.

(** [normalizing_constant(demography)]. *)
Definition normalizing_constant `{SumProduct} : M R :=
  ret ←m normalizing_constant_value;
  m_assert_return (if Rlt_dec 0 ret then true else false) ret.

(** The cached property [totalSfsSum]. *)
Definition totalSfsSum `{SumProduct} : M R :=
  λ G,
    match totalSfsSum_cache G with
    | Some c => (Ok c, G)
    | None =>
        match normalizing_constant G with
        | (Ok c, G') => (Ok c, set_totalSfsSum G' (Some c))
        | other => other
        end
    end.

(** *** The Poisson random field log-likelihood *)

(** Python's order on tuples of integers. *)
Fixpoint tuple_leb (a b : list Z) : bool :=
  match a, b with
  | [], _ => true
  | _ :: _, [] => false
  | x :: a', y :: b' =>
      if (x <? y)%Z then true
      else if (x =? y)%Z then tuple_leb a' b'
      else false
  end.

Definition item_le (x y : list Z * nat) : Prop := tuple_leb x.1 y.1 = true.

Global Instance item_le_dec : RelDecision item_le.
Proof. intros x y. unfold item_le. apply _. Defined.

(** [numpy.log] on a positive argument; elsewhere its value is not a real. *)
Definition log (x : R) : result R :=
  if Rlt_dec 0 x then Ok (ln x) else NonFinite.

(** [scipy.special.gammaln(weight + 1)] for a count [weight]. *)
Definition gammaln_succ (weight : nat) : R := ln (INR (fact weight)).

(** The dictionary [st] built for one configuration. *)
Definition config_state (G : Demography) (leaves : list pop) (states : list Z)
  : result (list (pop * gmap string Z)) :=
  lin ←r n_lineages_at_node G;
  result_mapM
    (λ '(a, b), n ←r getitem lin a;
                Ok (a, ({[ "derived" := b; "ancestral" := (n - b)%Z ]}
                          : gmap string Z)))
    (zip leaves states).

(** One turn of the loop over the sorted items of [sfs]. *)
Definition prf_step `{SumProduct} (theta : R) (leaves : list pop)
    (ret : R) (it : list Z * nat) : M R :=
  let '(states, weight) := it in
  st ←m m_read (λ G, config_state G leaves states);
  _ ←m update_state st;
  _ ←m engine_call sp_new;
  p ←m engine_call sp_p;
  l ←m m_read (λ _, log (p * theta / 2));
  m_ret (ret + (l * INR weight - gammaln_succ weight)).

(** [log_likelihood_prf(theta, sfs)] up to its final assertion. *)
Definition log_likelihood_prf_value `{SumProduct} (theta : R)
    (sfs : gmap (list Z) nat) : M R :=
  c ←m totalSfsSum;
  let ret := - c * theta / 2 in
  leaves ←m m_read (λ G, Ok (merge_sort le (elements (leaves G))));
  m_foldl (prf_step theta leaves) ret (merge_sort item_le (map_to_list sfs)).

(** [log_likelihood_prf(theta, sfs)]. *)
Definition log_likelihood_prf `{SumProduct} (theta : R)
    (sfs : gmap (list Z) nat) : M R :=
  ret ←m log_likelihood_prf_value theta sfs;
  m_assert_return (if Rlt_dec ret 0 then true else false) ret.

(** *** Frame conditions *)

(** The attribute [k] of node [v], if the node has it. *)
Definition attribute (G : Demography) (v : pop) (k : string) : option Z :=
  nodes G !! v ≫= (.!! k).

Definition lineages_of (G : Demography) (v : pop) : Z :=
  default 0%Z (attribute G v "lineages").

(** The node carries an observation state. *)
Definition observed (G : Demography) (v : pop) : Prop :=
  is_Some (attribute G v "derived") ∧ is_Some (attribute G v "ancestral").

(** Edges, events and split probabilities are the same in [G'] as in [G]. *)
Definition topology_kept (G G' : Demography) : Prop :=
  edges G' = edges G ∧ graph_events G' = graph_events G
  ∧ splitprobs G' = splitprobs G.

(** Moreover the cached [totalSfsSum] is the same. *)
Definition structure_kept (G G' : Demography) : Prop :=
  edges G' = edges G ∧ graph_events G' = graph_events G
  ∧ splitprobs G' = splitprobs G ∧ totalSfsSum_cache G' = totalSfsSum_cache G.

(** Moreover the node attributes are the same. *)
Definition nodes_kept (G G' : Demography) : Prop :=
  nodes G' = nodes G ∧ structure_kept G G'.

(** [G'] has the topology and the nodes of [G], and the same attributes but
    for ['derived'] and ['ancestral'] on the leaves. *)
Definition observation_only (G G' : Demography) : Prop :=
  topology_kept G G'
  ∧ ∀ v, match nodes G !! v, nodes G' !! v with
         | Some a, Some b =>
             (v ∉ leaves G → b = a)
             ∧ ∀ k, k ≠ "derived" → k ≠ "ancestral" → b !! k = a !! k
         | None, None => True
         | _, _ => False
         end.

(** *** The likelihood as the specification words it *)

(** The node attributes after every node of [st] took over its entry. *)
Definition apply_state (st : list (pop * gmap string Z))
    (nd : gmap pop (gmap string Z)) : gmap pop (gmap string Z) :=
  map_imap (λ v ndv, Some match (list_to_map st : gmap pop (gmap string Z)) !! v with
                          | Some u => u ∪ ndv
                          | None => ndv
                          end) nd.

(** The graph whose leaves, in sorted order, hold the derived counts
    [states]. *)
Definition config_list (G : Demography) (states : list Z)
  : list (pop * gmap string Z) :=
  (λ '(a, b), (a, {[ "derived" := b; "ancestral" := (lineages_of G a - b)%Z ]}))
    <$> zip (merge_sort le (elements (leaves G))) states.

Definition with_config (G : Demography) (states : list Z) : Demography :=
  set_nodes G (apply_state (config_list G states) (nodes G)).

(** p(config): the answer of the engine on that graph. *)
Definition config_probability `{SumProduct} (G : Demography) (states : list Z) : R :=
  match (sp_p (uncached (with_config G states))).1 with
  | Ok x => x
  | _ => 0
  end.

(** The summand of one configuration:
    weight log(p(config) theta / 2) - log(weight!). *)
Definition prf_term `{SumProduct} (theta : R) (G : Demography)
    (it : list Z * nat) : R :=
  INR it.2 * ln (config_probability G it.1 * theta / 2) - ln (INR (fact it.2)).

(** -c theta / 2 + the sum of the summands of all configurations. *)
Definition prf_formula `{SumProduct} (theta : R) (sfs : gmap (list Z) nat)
    (c : R) (G : Demography) : R :=
  - c * theta / 2 + sum_listR (prf_term theta G <$> map_to_list sfs).

(** ** moran_model.py: exactness of the computed inverse *)

(** [numpy.linalg.inv] answered an exact inverse of the eigenvector matrix of
    [rate_matrix n]: P P^-1 and P^-1 P are the identity. *)
Definition exact_inverse `{Linalg} (n : nat) : Prop :=
  ∀ i j, (i < S n)%nat → (j < S n)%nat →
    dot (S n) (moran_eigensystem n).1.1 (moran_eigensystem n).2 i j
      = (if (i =? j)%nat then 1 else 0)
    ∧ dot (S n) (moran_eigensystem n).2 (moran_eigensystem n).1.1 i j
      = (if (i =? j)%nat then 1 else 0).

(** ** size_history.py: the other size histories *)

(** [expm1d_taylor(x)]: the loop over n = 2..10 on the pair (c_n, ret). *)
Definition expm1d_taylor (x : R) : R :=
  (fold_left (λ (s : R * R) (n : nat),
                let c_n := s.1 * x / INR n in (c_n, s.2 + c_n))
             (seq 2 9) (1, 1)).2.

(** [expm1d(x)]: (e^x - 1) / x, with the Taylor polynomial at [x == 0.0]. *)
Definition expm1d (x : R) : R :=
  if Req_dec_T x 0 then expm1d_taylor x else expm1 x / x.

(** [scipy.special.expi], the exponential integral, away from 0. *)
Class Special : Type := {
  expi : R → R
}.

(** [transformed_expi_series(x)] on one entry of the array: the loop over
    n = 1..10 on the pair (c_n, ret). *)
Definition transformed_expi_series (x : R) : R :=
  (fold_left (λ (s : R * R) (n : nat),
                let c_n := - s.1 * x * INR n in (c_n, s.2 + c_n))
             (seq 1 10) (1, 1)).2.

(** [transformed_expi_naive(x)] on one entry of the array; at 0 the quotient
    is not a real. *)
Definition transformed_expi_naive `{Special} (x : R) : result R :=
  if Req_dec_T x 0 then NonFinite
  else Ok (- expi (-1 / x) * exp (1 / x) / x).

(** The pairs ([l[:-1][i]], [l[1:][i]]) of neighbouring entries. *)
Definition neighbours (l : list R) : list (R * R) := zip (removelast l) (tail l).

(** The mask [abs_x < 1./45.]. *)
Definition ser (y : R) : bool := if Rlt_dec (Rabs y) (1 / 45) then true else false.

(** [transformed_expi(x)]: the entries under the mask go through the series,
    the others through the direct formula, and the two results are
    concatenated in that order. *)
Definition transformed_expi `{Special} (x : list R) : result (list R) :=
  let abs_x := Rabs <$> x in
  if forallb (λ p : R * R, if Rge_dec p.1 p.2 then true else false) (neighbours abs_x)
  then
    ys ←r result_mapM transformed_expi_naive (List.filter (λ y, negb (ser y)) x);
    Ok ((transformed_expi_series <$> List.filter ser x) ++ ys)
  else Raise AssertionError.

(** Division of two Python floats: [ZeroDivisionError], written with its
    message, when the divisor is zero. *)
Definition float_div (a b : R) : result R :=
  if Req_dec_T b 0 then Raise (Exception "float division by zero")
  else Ok (a / b).

(** An [ExponentialTruncatedSizeHistory] with a finite [tau]: the attributes
    set by [__init__]. *)
Record ExponentialHistory : Type := mk_exponential {
  exp_n_max : nat;
  exp_tau : R;
  N_top : R;
  N_bottom : R;
  growth_rate : R
}.

(** [ExponentialTruncatedSizeHistory(n_max, tau, N_top, N_bottom)] for a
    finite [tau].  The logarithm is a numpy float, so that dividing it by
    [tau = 0.0] gives a value that is not a real. *)
Definition ExponentialTruncatedSizeHistory (n_max : nat) (tau N_top N_bottom : R)
  : result ExponentialHistory :=
  ratio ←r float_div N_bottom N_top;
  l ←r log ratio;
  if Req_dec_T tau 0 then NonFinite
  else Ok {| exp_n_max := n_max; exp_tau := tau; N_top := N_top;
             N_bottom := N_bottom; growth_rate := l / tau |}.


(** [ExponentialTruncatedSizeHistory.scaled_time]. *)
Definition exponential_scaled_time (h : ExponentialHistory) : result R :=
  if Req_dec_T (N_bottom h) 0 then NonFinite
  else Ok (expm1d (growth_rate h * exp_tau h) * exp_tau h / N_bottom h).


(** Sum of two floats either of which may be [float('inf')]. *)
Definition xadd (a b : xreal) : xreal :=
  match a, b with
  | Fin x, Fin y => Fin (x + y)
  | _, _ => PInf
  end.

(** Python's [sum] over floats, starting from 0. *)
Definition xsum (l : list xreal) : xreal := foldl xadd (Fin 0) l.

(** Elementwise sum of two vectors with numpy's broadcasting. *)
Definition vec_add (a b : list R) : result (list R) :=
  if (length a =? length b)%nat then Ok (zip_with Rplus a b)
  else match a, b with
       | [x], _ => Ok (Rplus x <$> b)
       | _, [y] => Ok ((λ x, x + y) <$> a)
       | _, _ => Raise ValueError
       end.

Fixpoint result_foldl {A B} (f : B → A → result B) (acc : B) (l : list A)
  : result B :=
  match l with
  | [] => Ok acc
  | a :: rest => acc' ←r f acc a; result_foldl f acc' rest
  end.

(** A [PiecewiseHistory]: the attributes set by [__init__].  Every piece
    comes with the identity of its object, which [etjj] compares with
    [is]. *)
Record Piecewise : Type := mk_piecewise {
  pw_n_max : nat;
  pw_tau : xreal;
  pw_pieces : list (nat * TruncatedSizeHistory)
}.

(** [PiecewiseHistory(pieces)]. *)
Definition PiecewiseHistory (pieces : list (nat * TruncatedSizeHistory))
  : result Piecewise :=
  match pieces with
  | [] => Raise IndexError
  | p0 :: _ =>
      let n := n_max p0.2 in
      if forallb (λ p : nat * TruncatedSizeHistory, (n_max p.2 =? n)%nat) pieces
      then Ok {| pw_n_max := n;
                 pw_tau := xsum ((λ p : nat * TruncatedSizeHistory, tau p.2)
                                   <$> pieces);
                 pw_pieces := pieces |}
      else Raise AssertionError
  end.

(** One turn of the loop of [PiecewiseHistory.etjj] on the pair
    ([ret], [noCoalProb]); [last_piece] is the identity of [pieces[-1]]. *)
Definition piecewise_etjj_step (jChoose2 : list R) (last_piece : option nat)
    (s : list R * list R) (pop : nat * TruncatedSizeHistory)
  : result (list R * list R) :=
  term ←r vec_mul s.2 (etjj pop.2);
  ret ←r vec_add s.1 term;
  match scaled_time pop.2 with
  | Fin st =>
      noCoalProb ←r vec_mul s.2 ((λ c, exp (- st * c)) <$> jChoose2);
      Ok (ret, noCoalProb)
  | PInf =>
      if decide (Some pop.1 = last_piece) then Ok (ret, s.2)
      else Raise AssertionError
  end.

(** [PiecewiseHistory.etjj]. *)
Definition piecewise_etjj (o : Piecewise) : result (list R) :=
  let j := seq 2 (pw_n_max o - 1) in
  let jChoose2 := (λ j, INR (choose j 2)) <$> j in
  s ←r result_foldl (piecewise_etjj_step jChoose2 (last (pw_pieces o).*1))
         (replicate (length j) 0, replicate (length j) 1) (pw_pieces o);
  Ok s.1.

(** [PiecewiseHistory.scaled_time]. *)
Definition piecewise_scaled_time (o : Piecewise) : xreal :=
  match pw_tau o with
  | PInf => PInf
  | Fin _ => xsum ((λ p : nat * TruncatedSizeHistory, scaled_time p.2)
                     <$> pw_pieces o)
  end.

(** The history with its two cached properties computed. *)
Definition piecewise_history (o : Piecewise) : result TruncatedSizeHistory :=
  e ←r piecewise_etjj o;
  Ok {| n_max := pw_n_max o; tau := pw_tau o; etjj := e;
        scaled_time := piecewise_scaled_time o |}.

(** ** demography.py: the type of an event *)

(** The successors of an event in the event tree: [eventTree[event]]. *)
Definition tree_successors (T : EventTree) (ev : event) : gset event :=
  list_to_set (filter (λ ed : event * event, ed.1 = ev) (et_edges T)).*2.

(** [event_type(event)].  The length of the tuple [event] is 1 for the event
    of a leaf and the number of edges for a raw event.  When the third test
    is reached [parent_pops] has found the event among the nodes of the
    tree, so that [eventTree[event]] does not fail. *)
Definition event_type (G : Demography) (ev : event) : result string :=
  let len := match ev with LeafEvent _ => 1%nat | RawEvent e => length e end in
  if (len =? 1)%nat then Ok "leaf"
  else
    pp ←r parent_pops G ev;
    if (length pp =? 2)%nat then Ok "admixture"
    else
      T ←r eventTree G;
      if (size (tree_successors T ev) =? 2)%nat then Ok "merge_clusters"
      else Ok "merge_subpops".

(** ** data/compressed_counts.py *)

(** [l[i]] on a Python list or a one-dimensional numpy array: a negative
    index counts from the end, an index out of range raises [IndexError]. *)
Definition seq_getitem {A} (l : list A) (i : Z) : result A :=
  let n := Z.of_nat (length l) in
  let j := if (i <? 0)%Z then (i + n)%Z else i in
  if ((0 <=? j)%Z && (j <? n)%Z)%bool
  then match l !! Z.to_nat j with
       | Some x => Ok x
       | None => Raise IndexError
       end
  else Raise IndexError.

(** [_CompressedList]: the distinct values in the order they first came, the
    position of every distinct value, and for every appended value the
    position of its distinct value. *)
Record CompressedList (V : Type) `{Countable V} : Type := mk_compressed_list {
  uniq_values : list V;
  value2uniq : gmap V nat;
  cl_index2uniq : list nat
}.
Arguments mk_compressed_list {V _ _} _ _ _.
Arguments uniq_values {V _ _} _.
Arguments value2uniq {V _ _} _.
Arguments cl_index2uniq {V _ _} _.

(** [_CompressedList()]. *)
Definition CompressedList_init {V} `{Countable V} : CompressedList V :=
  {| uniq_values := []; value2uniq := ∅; cl_index2uniq := [] |}.

(** [_CompressedList.__len__]. *)
Definition CompressedList_len {V} `{Countable V} (cl : CompressedList V) : nat :=
  length (cl_index2uniq cl).

(** [_CompressedList.__getitem__]. *)
Definition CompressedList_getitem {V} `{Countable V} (cl : CompressedList V)
    (index : Z) : result V :=
  u ←r seq_getitem (cl_index2uniq cl) index;
  seq_getitem (uniq_values cl) (Z.of_nat u).

(** [_CompressedList.append]. *)
Definition CompressedList_append {V} `{Countable V} (cl : CompressedList V)
    (value : V) : CompressedList V :=
  match value2uniq cl !! value with
  | Some uniq_idx =>
      {| uniq_values := uniq_values cl; value2uniq := value2uniq cl;
         cl_index2uniq := cl_index2uniq cl ++ [uniq_idx] |}
  | None =>
      let uniq_idx := length (uniq_values cl) in
      {| uniq_values := uniq_values cl ++ [value];
         value2uniq := <[ value := uniq_idx ]> (value2uniq cl);
         cl_index2uniq := cl_index2uniq cl ++ [uniq_idx] |}
  end.

(** What [append] maintains, [vs] being the values appended so far. *)
Record compressed {V} `{Countable V} (cl : CompressedList V) (vs : list V) : Prop := {
  cp_index : ∀ v u, value2uniq cl !! v = Some u ↔ uniq_values cl !! u = Some v;
  cp_nodup : NoDup (uniq_values cl);
  cp_length : length (cl_index2uniq cl) = length vs;
  cp_items : ∀ i x, vs !! i = Some x →
               ∃ u, cl_index2uniq cl !! i = Some u ∧ uniq_values cl !! u = Some x;
  cp_values : ∀ v, v ∈ uniq_values cl ↔ v ∈ vs
}.

(** [CompressedAlleleCounts]: the distinct configurations, one row of
    (ancestral, derived) counts per population each, and for every site the
    row of its configuration. *)
Record CompressedAlleleCounts : Type := mk_counts {
  config_array : list (list (Z * Z));
  index2uniq : list nat
}.

(** [CompressedAlleleCounts.__len__] and [__getitem__]. *)
Definition counts_len (c : CompressedAlleleCounts) : nat := length (index2uniq c).

Definition counts_getitem (c : CompressedAlleleCounts) (i : Z)
  : result (list (Z * Z)) :=
  u ←r seq_getitem (index2uniq c) i;
  seq_getitem (config_array c) (Z.of_nat u).

(** Python's [<] on tuples of integers. *)
Definition tuple_ltb (a b : list Z) : bool := negb (tuple_leb b a).

(** The sort key of one configuration: the tuple of totals and the smaller
    of the tuples of ancestral and of derived counts. *)
Definition config_key (c : list (Z * Z)) : list Z * list Z :=
  let a := c.*1 in
  let d := c.*2 in
  let n := zip_with Z.add a d in
  let folded := if tuple_ltb d a then d else a in
  (n, folded).

(** Python's [<] on the keys, pairs of tuples. *)
Definition key_ltb (k1 k2 : list Z * list Z) : bool :=
  if decide (k1.1 = k2.1) then tuple_ltb k1.2 k2.2 else tuple_ltb k1.1 k2.1.

(** [sorted(l, key=...)]: a stable sort, [lt] comparing the keys. *)
Fixpoint insert_sorted {A} (lt : A → A → bool) (x : A) (l : list A) : list A :=
  match l with
  | [] => [x]
  | y :: l' => if lt y x then y :: insert_sorted lt x l' else x :: l
  end.

Definition py_sorted {A} (lt : A → A → bool) (l : list A) : list A :=
  foldr (insert_sorted lt) [] l.

(** [arr[idxs]] for an array of non-negative indices. *)
Definition take_rows {A} (arr : list A) (idxs : list nat) : result (list A) :=
  result_mapM (λ i, match arr !! i with
                    | Some x => Ok x
                    | None => Raise IndexError
                    end) idxs.

(** [CompressedAlleleCounts.sort_configs], answering the object after the
    two assignments.  The list [unsorted_idxs] starts as [None] everywhere;
    turning it into an array of integers is a [TypeError] if a [None] is
    left. *)
Definition sort_configs (c : CompressedAlleleCounts) : result CompressedAlleleCounts :=
  let keys := config_key <$> config_array c in
  let key := λ i, nth i keys ([], []) in
  let sorted_idxs :=
    py_sorted (λ i j, key_ltb (key i) (key j)) (seq 0 (length keys)) in
  let unsorted_idxs :=
    foldl (λ acc (ij : nat * nat), <[ ij.2 := Some ij.1 ]> acc)
          (replicate (length sorted_idxs) None) (imap pair sorted_idxs) in
  unsorted_idxs ←r result_mapM
                     (λ o : option nat,
                        match o with
                        | Some i => Ok i
                        | None => Raise (Exception "TypeError")
                        end) unsorted_idxs;
  cfg ←r take_rows (config_array c) sorted_idxs;
  idx ←r take_rows unsorted_idxs (index2uniq c);
  Ok {| config_array := cfg; index2uniq := idx |}.

(** [numpy.unique(l, return_inverse=True)] on non-negative integers: the
    distinct values in increasing order, and for every entry of [l] the
    position of its value among them. *)
Definition np_unique (l : list nat) : list nat * list nat :=
  let uniq := py_sorted Nat.ltb (remove_dups l) in
  (uniq, (λ x, index_of x uniq) <$> l).

(** [CompressedAlleleCounts(config_array, index2uniq)], with [sort=True]. *)
Definition CompressedAlleleCounts_init (config_array : list (list (Z * Z)))
    (index2uniq : list nat) : result CompressedAlleleCounts :=
  sort_configs {| config_array := config_array; index2uniq := index2uniq |}.

(** [CompressedAlleleCounts.filter(idxs)] for an array of non-negative
    indices. *)
Definition counts_filter (c : CompressedAlleleCounts) (idxs : list nat)
  : result CompressedAlleleCounts :=
  to_keep ←r take_rows (index2uniq c) idxs;
  let uniq := np_unique to_keep in
  rows ←r take_rows (config_array c) uniq.1;
  CompressedAlleleCounts_init rows uniq.2.

(** *** The normalizing constant as a sum over the event tree *)

(** What the engine sees of [G] while every leaf is all ancestral, and while
    every leaf is all derived. *)
Definition all_ancestral_graph (G : Demography) : Demography :=
  uncached
    (set_nodes G
       (apply_state
          ((λ v, (v, ({[ "derived" := 0%Z; "ancestral" := lineages_of G v ]}
                        : gmap string Z))) <$> elements (leaves G))
          (nodes G))).

Definition all_derived_graph (G : Demography) : Demography :=
  uncached
    (set_nodes G
       (apply_state
          ((λ v, (v, ({[ "derived" := lineages_of G v; "ancestral" := 0%Z ]}
                        : gmap string Z))) <$> elements (leaves G))
          (nodes G))).

(** ((1 - zeroth vector) * truncated sfs).sum() for one event and one of its
    parent populations, from the answers of the engine on [GA]. *)
Definition branch_value `{SumProduct} (GA : Demography) (ev : event)
    (subpops : list pop) (newpop : pop) : R :=
  match (partial_likelihood_bottom GA ev).1 with
  | Ok arr =>
      match get_zeroth_vector {| la_array := arr; la_labels := subpops |} newpop with
      | Ok z =>
          match (truncated_sfs GA newpop).1 with
          | Ok s =>
              match vec_mul ((λ x, 1 - x) <$> z) s with
              | Ok prod => sum_listR prod
              | _ => 0
              end
          | _ => 0
          end
      | _ => 0
      end
  | _ => 0
  end.

(** The sum over the events of the tree and over their parent
    populations. *)
Definition branch_length_sum `{SumProduct} (GA : Demography) (T : EventTree) : R :=
  foldl (λ acc (evd : event * event_data),
           foldl (λ acc newpop,
                    acc + branch_value GA evd.1 (ed_subpops evd.2) newpop)
                 acc (ed_parent_pops evd.2))
        0 (map_to_list (et_node T)).

(** ** Sample inputs *)

(** An eigensolver answering the identity basis with zero eigenvalues. *)
Definition sample_linalg : Linalg :=
  {| linalg_eig := λ _ _, (λ _, 0, λ i j, if (i =? j)%nat then 1 else 0);
     linalg_inv := λ _ P, P |}.

(** The vector [0., 1., 2.]: two lineages. *)
Definition sample_vector : ndarray :=
  {| shape := [3%nat];
     item := λ idx, match idx with [i] => INR i | _ => 0 end |}.

(** [ConstantTruncatedSizeHistory(5, 1.0, 1.0)]: five lineages. *)
Definition sample_history : TruncatedSizeHistory :=
  {| n_max := 5; tau := Fin 1;
     etjj := constant_etjj 5 (Fin 1) 1;
     scaled_time := constant_scaled_time (Fin 1) 1 |}.

(** A history of zero duration. *)
Definition sample_still_history : TruncatedSizeHistory :=
  {| n_max := 2; tau := Fin 0;
     etjj := constant_etjj 2 (Fin 0) 1;
     scaled_time := Fin 0 |}.

Definition attrs (l : list (string * Z)) : gmap string Z := list_to_map l.

(** An admixture graph: the leaf 3 draws its single lineage from 1 or from
    2, which merge into the root 0. *)
Definition sample_admixture_graph : Demography :=
  {| nodes := list_to_map [(0%nat, ∅); (1%nat, ∅); (2%nat, ∅);
                           (3%nat, attrs [("lineages", 1%Z)])];
     edges := list_to_set [(1, 3); (2, 3); (0, 1); (0, 2)]%nat;
     graph_events := [[(1, 3); (2, 3)]; [(0, 1); (0, 2)]]%nat;
     splitprobs := {[ 3%nat := list_to_map [(1%nat, 1 / 2); (2%nat, 1 / 2)] ]};
     n_derived_cached := false;
     totalSfsSum_cache := None |}.

(** Two leaves 1 and 2 with two lineages each, merging into the root 0. *)
Definition sample_tree_graph : Demography :=
  {| nodes := list_to_map [(0%nat, ∅);
                           (1%nat, attrs [("lineages", 2%Z)]);
                           (2%nat, attrs [("lineages", 2%Z)])];
     edges := list_to_set [(0, 1); (0, 2)]%nat;
     graph_events := [[(0, 1); (0, 2)]]%nat;
     splitprobs := ∅;
     n_derived_cached := false;
     totalSfsSum_cache := None |}.

(** An engine with constant answers. *)
Definition sample_engine : SumProduct :=
  {| sp_new := λ _, (Ok (), false);
     partial_likelihood_bottom := λ _ _, (Ok sample_vector, false);
     get_zeroth_vector := λ _ _, Ok [0];
     truncated_sfs := λ _ _, (Ok [1], false);
     sp_p := λ _, (Ok (1 / 2), false) |}.

(** The same tree with an observed configuration on its leaves. *)
Definition sample_observed_graph : Demography :=
  {| nodes := list_to_map
       [(0%nat, ∅);
        (1%nat, attrs [("lineages", 2%Z); ("derived", 1%Z); ("ancestral", 1%Z)]);
        (2%nat, attrs [("lineages", 2%Z); ("derived", 0%Z); ("ancestral", 2%Z)])];
     edges := list_to_set [(0, 1); (0, 2)]%nat;
     graph_events := [[(0, 1); (0, 2)]]%nat;
     splitprobs := ∅;
     n_derived_cached := false;
     totalSfsSum_cache := None |}.

(** The same tree with every lineage derived. *)
Definition sample_all_derived_graph : Demography :=
  {| nodes := list_to_map
       [(0%nat, ∅);
        (1%nat, attrs [("lineages", 2%Z); ("derived", 2%Z); ("ancestral", 0%Z)]);
        (2%nat, attrs [("lineages", 2%Z); ("derived", 2%Z); ("ancestral", 0%Z)])];
     edges := list_to_set [(0, 1); (0, 2)]%nat;
     graph_events := [[(0, 1); (0, 2)]]%nat;
     splitprobs := ∅;
     n_derived_cached := false;
     totalSfsSum_cache := None |}.


(** One site with one derived lineage in leaf 1 and none in leaf 2. *)
Definition sample_sfs : gmap (list Z) nat := {[ [1%Z; 0%Z] := 1%nat ]}.

(** Two leaves that no event merges. *)
Definition sample_unmerged_graph : Demography :=
  {| nodes := list_to_map [(1%nat, attrs [("lineages", 2%Z)]);
                           (2%nat, attrs [("lineages", 2%Z)])];
     edges := ∅;
     graph_events := [];
     splitprobs := ∅;
     n_derived_cached := false;
     totalSfsSum_cache := None |}.

(** The sample tree with an event that names the edge (0, 1) twice. *)
Definition sample_two_role_graph : Demography :=
  {| nodes := nodes sample_tree_graph;
     edges := edges sample_tree_graph;
     graph_events := [[(0, 1); (0, 1)]]%nat;
     splitprobs := ∅;
     n_derived_cached := false;
     totalSfsSum_cache := None |}.

(** The history of a single lineage held for one unit of time. *)
Definition sample_single_history : TruncatedSizeHistory :=
  {| n_max := 1; tau := Fin 1; etjj := []; scaled_time := Fin 1 |}.

(** A [Special] whose [expi] is constant. *)
Definition sample_special : Special := {| expi := λ _, 1 |}.

(** An engine whose constructor raises. *)
Definition sample_broken_engine : SumProduct :=
  {| sp_new := λ _, (Raise RuntimeError, false);
     partial_likelihood_bottom := λ _ _, (Ok sample_vector, false);
     get_zeroth_vector := λ _ _, Ok [0];
     truncated_sfs := λ _ _, (Ok [1], false);
     sp_p := λ _, (Ok (1 / 2), false) |}.

(** * Properties *)

(** ** Sums *)

Lemma big_sum_ext (f g : nat → R) (m : nat) :
  (∀ i, (i < m)%nat → f i = g i) → big_sum f m = big_sum g m.
Proof.
  induction m as [|m IH]; intros Hfg; simpl; [done|].
  rewrite IH by (intros; apply Hfg; lia).
  rewrite (Hfg m) by lia. done.
Qed.

Lemma big_sum_zero (f : nat → R) (m : nat) :
  (∀ i, (i < m)%nat → f i = 0) → big_sum f m = 0.
Proof.
  induction m as [|m IH]; intros Hf; simpl; [done|].
  rewrite IH by (intros; apply Hf; lia).
  rewrite (Hf m) by lia. lra.
Qed.

Lemma big_sum_plus (f g : nat → R) (m : nat) :
  big_sum (λ i, f i + g i) m = big_sum f m + big_sum g m.
Proof. induction m as [|m IH]; simpl; [lra|]. rewrite IH. lra. Qed.

Lemma big_sum_scal_l (c : R) (f : nat → R) (m : nat) :
  big_sum (λ i, c * f i) m = c * big_sum f m.
Proof. induction m as [|m IH]; simpl; [lra|]. rewrite IH. lra. Qed.

Lemma big_sum_scal_r (c : R) (f : nat → R) (m : nat) :
  big_sum (λ i, f i * c) m = big_sum f m * c.
Proof. induction m as [|m IH]; simpl; [lra|]. rewrite IH. lra. Qed.

Lemma big_sum_exchange (F : nat → nat → R) (m k : nat) :
  big_sum (λ i, big_sum (λ j, F i j) k) m
  = big_sum (λ j, big_sum (λ i, F i j) m) k.
Proof.
  induction m as [|m IH]; simpl.
  - symmetry. by apply big_sum_zero.
  - rewrite IH, <- big_sum_plus. done.
Qed.

(** Sum of a prefix when the remaining terms vanish. *)
Lemma big_sum_trunc (f : nat → R) (m k : nat) :
  (m ≤ k)%nat → (∀ i, (m ≤ i < k)%nat → f i = 0) →
  big_sum f k = big_sum f m.
Proof.
  intros Hle Hz. induction k as [|k IH].
  - by replace m with 0%nat by lia.
  - destruct (decide (m = S k)) as [->|Hne]; [done|].
    simpl. rewrite IH by (try lia; intros; apply Hz; lia).
    rewrite (Hz k) by lia. lra.
Qed.

Lemma big_sum_shift (f : nat → R) (m : nat) :
  big_sum f (S m) = f 0%nat + big_sum (λ i, f (S i)) m.
Proof.
  induction m as [|m IH]; [simpl; lra|].
  change (big_sum f (S (S m))) with (big_sum f (S m) + f (S m)).
  rewrite IH. simpl. lra.
Qed.

Lemma sum_listR_app (l k : list R) :
  sum_listR (l ++ k) = sum_listR l + sum_listR k.
Proof. induction l as [|x l IH]; simpl; [lra|]. rewrite IH. lra. Qed.

Lemma sum_listR_fmap_seq (g : nat → R) (s m : nat) :
  sum_listR (g <$> seq s m) = big_sum (λ i, g (s + i)%nat) m.
Proof.
  induction m as [|m IH]; [done|].
  rewrite seq_S, fmap_app, sum_listR_app, IH. simpl. lra.
Qed.

Lemma fold_left_Rplus_fmap_seq (g : nat → R) (m : nat) :
  fold_left Rplus (g <$> seq 0 m) 0 = big_sum g m.
Proof.
  induction m as [|m IH]; [done|].
  rewrite seq_S, fmap_app, fold_left_app, IH. done.
Qed.

(** ** Loops that may raise *)

Lemma result_mapM_Ok {A B} (f : A → result B) (g : A → B) (l : list A) :
  (∀ x, x ∈ l → f x = Ok (g x)) → result_mapM f l = Ok (g <$> l).
Proof.
  induction l as [|a l IH]; intros Hf; [done|].
  simpl. rewrite (Hf a) by set_solver. simpl.
  rewrite IH by (intros; apply Hf; set_solver). done.
Qed.

Lemma result_mapM_Ok_inv {A B} (f : A → result B) (l : list A) (ys : list B) :
  result_mapM f l = Ok ys → Forall2 (λ x y, f x = Ok y) l ys.
Proof.
  revert ys. induction l as [|a l IH]; intros ys; simpl.
  - intros [= <-]. constructor.
  - destruct (f a) as [b| |] eqn:Ha; simpl; try done.
    destruct (result_mapM f l) as [bs| |]; simpl; try done.
    intros [= <-]. constructor; [done|]. by apply IH.
Qed.

(** ** Binomial coefficients *)

Lemma choose_gt (n k : nat) : (n < k)%nat → choose n k = 0%nat.
Proof.
  revert k. induction n as [|n IH]; intros [|k] Hlt; simpl; try lia.
  rewrite !IH by lia. done.
Qed.

Lemma choose_pos (n k : nat) : (k ≤ n)%nat → (0 < choose n k)%nat.
Proof.
  revert k. induction n as [|n IH]; intros [|k] Hle; simpl; try lia.
  specialize (IH k ltac:(lia)). lia.
Qed.

Lemma choose_1 (n : nat) : choose n 1 = n.
Proof. induction n as [|n IH]; simpl; [done|]. rewrite IH. by destruct n. Qed.

(** C(j,2) = j (j - 1) / 2. *)
Lemma choose_2 (j : nat) : INR (choose j 2) = INR j * (INR j - 1) / 2.
Proof.
  induction j as [|j IH]; [simpl; lra|].
  change (choose (S j) 2) with (choose j 1 + choose j 2)%nat.
  rewrite plus_INR, IH, choose_1, S_INR. lra.
Qed.

(** ** size_history.py: the Constant history *)

(** C5.  [ConstantTruncatedSizeHistory(n_max, tau, N)] raises when [N <= 0];
    for [N > 0] it is built, and for every j in 2..n_max the entry of [etjj]
    for j (at position j - 2) is (1 - e^(-C(j,2) tau / N)) N / C(j,2) when
    [tau] is finite and N / C(j,2) when [tau] is infinite. *)
Theorem constant_history_etjj (n : nat) (tau_ : xreal) (N : R) :
  (N <= 0 →
     ConstantTruncatedSizeHistory n tau_ N = Raise (Exception "N must be positive"))
  ∧ (0 < N →
     ∃ h, ConstantTruncatedSizeHistory n tau_ N = Ok h
          ∧ length (etjj h) = (n - 1)%nat
          ∧ ∀ j, (2 ≤ j ≤ n)%nat →
              etjj h !! (j - 2)%nat =
              Some match tau_ with
                   | Fin t => (1 - exp (- INR (choose j 2) * t / N)) * N
                              / INR (choose j 2)
                   | PInf => N / INR (choose j 2)
                   end).
Proof.
  unfold ConstantTruncatedSizeHistory. split; intros HN.
  - destruct (Rle_dec N 0); [done | lra].
  - destruct (Rle_dec N 0); [lra|]. eexists; split; [done|]. simpl.
    unfold constant_etjj. split; [by rewrite length_fmap, length_seq|].
    intros j Hj. rewrite list_lookup_fmap, lookup_seq_lt by lia.
    replace (2 + (j - 2))%nat with j by lia. cbn [fmap option_fmap option_map].
    assert (0 < INR (choose j 2)) as Hc.
    { apply lt_0_INR. apply choose_pos. lia. }
    f_equal. destruct tau_ as [t|].
    + unfold expm1.
      replace (- (INR (choose j 2) / N * t)) with (- INR (choose j 2) * t / N)
        by (field; lra).
      field. split; lra.
    + field. split; lra.
Qed.

Lemma constant_history_etjj_witness :
  (∃ h, ConstantTruncatedSizeHistory 3 (Fin 1) 2 = Ok h
        ∧ length (etjj h) = 2%nat
        ∧ ∀ j, (2 ≤ j ≤ 3)%nat →
            etjj h !! (j - 2)%nat =
            Some ((1 - exp (- INR (choose j 2) * 1 / 2)) * 2 / INR (choose j 2)))
  ∧ ConstantTruncatedSizeHistory 3 PInf (-1) = Raise (Exception "N must be positive").
Proof.
  split.
  - apply (proj2 (constant_history_etjj 3 (Fin 1) 2)). lra.
  - apply (proj1 (constant_history_etjj 3 PInf (-1))). lra.
Defined.

(** ** size_history.py: the site-frequency spectrum *)

Lemma result_mapM_is_Ok {A B} (f : A → result B) (l : list A) :
  (∀ x, x ∈ l → ∃ y, f x = Ok y) →
  ∃ ys, result_mapM f l = Ok ys ∧ length ys = length l.
Proof.
  induction l as [|a l IH]; intros Hf; [by exists []|].
  destruct (Hf a) as [b Hb]; [set_solver|].
  destruct IH as (bs & Hbs & Hlen); [intros; apply Hf; set_solver|].
  exists (b :: bs). simpl. rewrite Hb. simpl. rewrite Hbs. simpl.
  by rewrite Hlen.
Qed.

(** The weights are defined from j = 2 on. *)
Lemma W_is_Ok (n b j : nat) : (2 ≤ j)%nat → ∃ w, W n b j = Ok w.
Proof.
  intros Hj. replace j with (2 + (j - 2))%nat by lia.
  generalize (j - 2)%nat as k. clear j Hj. intros k.
  cut ((∃ w, W n b (2 + k) = Ok w) ∧ (∃ w, W n b (3 + k) = Ok w)); [tauto|].
  induction k as [|k [[w2 IH2] [w1 IH1]]].
  - split; eexists; reflexivity.
  - split; [by exists w1|].
    change (W n b (3 + S k)) with
      (let jj := INR (2 + k) in
       w2 ←r W n b (2 + k);
       w1 ←r W n b (3 + k);
       Ok (w2 * - (1 + jj) * (3 + 2 * jj) * (INR n - jj) / jj / (2 * jj - 1)
              / (INR n + jj + 1)
           + w1 * (3 + 2 * jj) * (INR n - 2 * INR b) / jj / (INR n + jj + 1))).
    cbv zeta. rewrite IH2, IH1. simpl. by eexists.
Qed.

Lemma lookup_list_to_map_imap {K} `{Countable K} (g : nat → K) (l : list R) (k : nat) :
  Inj (=) (=) g →
  (list_to_map (imap (λ i v, (g i, v)) l) : gmap K R) !! g k = l !! k.
Proof.
  revert g k. induction l as [|x l IH]; intros g k Hg; [done|].
  rewrite imap_cons. simpl. destruct k as [|k].
  - by rewrite lookup_insert_eq.
  - rewrite lookup_insert_ne by (intros Heq; by apply Hg in Heq).
    apply (IH (g ∘ S) k). intros i j Hij. apply Hg in Hij. lia.
Qed.

(** Branch-length conservation for any history with a finite [tau] whose
    [etjj] has one entry for each j = 2..n_max. *)
Lemma sfs_conservation (h : TruncatedSizeHistory) (t : R) :
  (1 ≤ n_max h)%nat → tau h = Fin t → length (etjj h) = (n_max h - 1)%nat →
  ∃ d, sfs h = Ok d
       ∧ (∀ j, (1 ≤ j ≤ n_max h)%nat → is_Some (d !! (j, n_max h)))
       ∧ big_sum (λ i, default 0 (d !! (S i, n_max h)) * INR (S i) / INR (n_max h))
                 (n_max h - 1)
         + default 0 (d !! (n_max h, n_max h)) = t.
Proof.
  intros Hn Htau Hlen. unfold sfs. set (n := n_max h) in *.
  destruct (n =? 1)%nat eqn:Hn1.
  - apply Nat.eqb_eq in Hn1. rewrite Htau. eexists; split; [done|].
    rewrite Hn1. split.
    + intros j Hj. replace j with 1%nat by lia. by rewrite lookup_singleton_eq.
    + simpl. rewrite lookup_singleton_eq. simpl. lra.
  - apply Nat.eqb_neq in Hn1.
    destruct (n =? 0)%nat eqn:Hn0; [apply Nat.eqb_eq in Hn0; lia|]. clear Hn0.
    destruct (result_mapM_is_Ok
                (λ i, result_mapM (λ j, W n j i) (seq 1 (n - 1))) (seq 2 (n - 1)))
      as (ww & -> & _).
    { intros i Hi. apply elem_of_seq in Hi.
      destruct (result_mapM_is_Ok (λ j, W n j i) (seq 1 (n - 1))) as (r & Hr & _);
        [|by exists r].
      intros j _. apply W_is_Ok. lia. }
    simpl. unfold broadcast_column. rewrite Hlen, Nat.eqb_refl. simpl.
    set (bv := (λ c, sum_listR (zip_with (λ e row, e * nth c row 0) (etjj h) ww))
                 <$> seq 0 (n - 1)).
    set (ret := (list_to_map (imap (λ k v, ((S k, n), v)) bv) : gmap (nat * nat) R)).
    assert (∀ k, ret !! (S k, n) = bv !! k) as Hret.
    { intros k. apply (lookup_list_to_map_imap (λ k, (S k, n))).
      intros i j [= ->]. done. }
    assert (length bv = (n - 1)%nat) as Hbv.
    { unfold bv. by rewrite length_fmap, length_seq. }
    unfold _before_tmrca. fold n.
    rewrite (result_mapM_Ok _ (λ b, default 0 (ret !! (b, n)) * INR b / INR n)).
    2:{ intros b Hb. apply elem_of_seq in Hb. unfold getitem.
        destruct b as [|k]; [lia|]. rewrite Hret.
        destruct (lookup_lt_is_Some_2 bv k) as [x ->]; [lia|]. done. }
    simpl. rewrite Htau. simpl. eexists; split; [done|]. split.
    + intros j Hj. destruct (decide (j = n)) as [->|Hne].
      * by rewrite lookup_insert_eq.
      * rewrite lookup_insert_ne by congruence.
        destruct j as [|k]; [lia|]. rewrite Hret.
        apply lookup_lt_is_Some_2. lia.
    + rewrite lookup_insert_eq. simpl.
      rewrite sum_listR_fmap_seq.
      rewrite (big_sum_ext _ (λ i, default 0 (ret !! ((1 + i)%nat, n))
                                   * INR (1 + i) / INR n)).
      2:{ intros i Hi. rewrite lookup_insert_ne; [done|]. intros [= Heq]. lia. }
      simpl. lra.
Qed.

(** C4.  For a Constant history with finite [tau] and [n_max = n], the
    site-frequency dictionary satisfies
    sum_(j=1..n-1) sfs[(j,n)] j / n + sfs[(n,n)] = tau. *)
Theorem constant_sfs_branch_length (n : nat) (t N : R) :
  (1 ≤ n)%nat → 0 < N →
  ∃ h d, ConstantTruncatedSizeHistory n (Fin t) N = Ok h
         ∧ sfs h = Ok d
         ∧ (∀ j, (1 ≤ j ≤ n)%nat → is_Some (d !! (j, n)))
         ∧ big_sum (λ i, default 0 (d !! (S i, n)) * INR (S i) / INR n) (n - 1)
           + default 0 (d !! (n, n)) = t.
Proof.
  intros Hn HN.
  assert (∃ h, ConstantTruncatedSizeHistory n (Fin t) N = Ok h
               ∧ n_max h = n ∧ tau h = Fin t
               ∧ length (etjj h) = (n - 1)%nat) as (h & Hh & Hnm & Htau & Hlen).
  { unfold ConstantTruncatedSizeHistory. destruct (Rle_dec N 0); [lra|].
    eexists; split; [done|]. cbn [n_max tau etjj]. split; [done|]. split; [done|].
    unfold constant_etjj. by rewrite length_fmap, length_seq. }
  destruct (sfs_conservation h t) as (d & Hd & Hkeys & Hsum);
    [lia | done | by rewrite Hnm |].
  exists h, d. rewrite Hnm in *. done.
Qed.

Lemma constant_sfs_branch_length_witness :
  ∃ h d, ConstantTruncatedSizeHistory 3 (Fin 5) 2 = Ok h
         ∧ sfs h = Ok d
         ∧ (∀ j, (1 ≤ j ≤ 3)%nat → is_Some (d !! (j, 3%nat)))
         ∧ big_sum (λ i, default 0 (d !! (S i, 3%nat)) * INR (S i) / INR 3) (3 - 1)
           + default 0 (d !! (3%nat, 3%nat)) = 5.
Proof. apply (constant_sfs_branch_length 3 5 2); [lia | lra]. Defined.

(** C7.  A history whose [scaled_time] is 0 leaves every array unchanged,
    for every array and axis and whatever the eigensolver answers: the
    Moran action, which raises for an axis the array does not have, is not
    reached.  A Constant history with [tau = 0] is such a history. *)
Theorem transition_prob_zero_time `{Linalg} :
  (∀ (h : TruncatedSizeHistory) (v : ndarray) (axis : nat),
     scaled_time h = Fin 0 → transition_prob h v axis = Ok v)
  ∧ (∀ (n : nat) (N : R) (h : TruncatedSizeHistory) (v : ndarray) (axis : nat),
       ConstantTruncatedSizeHistory n (Fin 0) N = Ok h →
       transition_prob h v axis = Ok v).
Proof.
  assert (∀ h v axis, scaled_time h = Fin 0 → transition_prob h v axis = Ok v) as H0.
  { intros h v axis Hs. unfold transition_prob. rewrite Hs. simpl.
    destruct (Req_dec_T 0 0); [done | lra]. }
  split; [done|]. intros n N h v axis Hh. apply H0.
  unfold ConstantTruncatedSizeHistory in Hh.
  destruct (Rle_dec N 0); [done|]. injection Hh as <-. simpl.
  f_equal. field. lra.
Qed.

(** ** moran_model.py: the action along one axis *)

Lemma axes_lookup (axis len i : nat) :
  (axis < len)%nat →
  (seq 0 axis ++ [len - 1] ++ seq axis (len - 1 - axis))%nat !! i =
  if decide (i < axis)%nat then Some i
  else if decide (i = axis) then Some (len - 1)%nat
  else if decide (i < len)%nat then Some (i - 1)%nat else None.
Proof.
  intros Hax. destruct (decide (i < axis)%nat).
  - rewrite lookup_app_l by (rewrite length_seq; lia). by rewrite lookup_seq_lt by lia.
  - rewrite lookup_app_r by (rewrite length_seq; lia). rewrite length_seq.
    destruct (decide (i = axis)) as [->|].
    + by rewrite Nat.sub_diag.
    + destruct (i - axis)%nat as [|k] eqn:Hk; [lia|]. simpl.
      destruct (decide (i < len)%nat).
      * rewrite lookup_seq_lt by lia. f_equal. lia.
      * apply lookup_seq_ge. lia.
Qed.

Lemma axes_permutation (axis len : nat) :
  (axis < len)%nat →
  (seq 0 axis ++ [len - 1] ++ seq axis (len - 1 - axis))%nat ≡ₚ seq 0 len.
Proof.
  intros Hax.
  replace len with (axis + ((len - 1 - axis) + 1))%nat at 3 by lia.
  rewrite !seq_app. simpl. apply Permutation_app_head.
  replace (axis + (len - 1 - axis))%nat with (len - 1)%nat by lia.
  apply (Permutation_app_comm [_]).
Qed.

(** Shape after contraction and transposition. *)
Lemma moved_axis_shape (l : list nat) (axis x : nat) :
  l !! axis = Some x →
  (λ ax, nth ax (delete axis l ++ [x]) 0%nat)
    <$> (seq 0 axis ++ [length l - 1] ++ seq axis (length l - 1 - axis))%nat = l.
Proof.
  intros Hx. pose proof (lookup_lt_Some _ _ _ Hx) as Hlt.
  assert (length (delete axis l) = (length l - 1)%nat) as Hdel.
  { rewrite length_delete; [done|]. by eexists. }
  apply list_eq. intros i. rewrite list_lookup_fmap, axes_lookup by done.
  repeat case_decide; simpl.
  - rewrite nth_lookup, lookup_app_l by lia. rewrite list_lookup_delete_lt by done.
    destruct (lookup_lt_is_Some_2 l i) as [y Hy]; [lia|]. by rewrite Hy.
  - subst i. rewrite nth_lookup, lookup_app_r by lia.
    rewrite Hdel, Nat.sub_diag. simpl. done.
  - rewrite nth_lookup, lookup_app_l by lia. rewrite list_lookup_delete_ge by lia.
    replace (S (i - 1)) with i by lia.
    destruct (lookup_lt_is_Some_2 l i) as [y Hy]; [lia|]. by rewrite Hy.
  - symmetry. apply lookup_ge_None. lia.
Qed.

Lemma index_of_lookup (axes : list nat) (i p : nat) :
  NoDup axes → axes !! i = Some p → index_of p axes = i.
Proof.
  revert i. induction axes as [|a axes IH]; intros i Hnd Hi; [done|].
  apply NoDup_cons in Hnd as [Hna Hnd]. simpl. destruct i as [|i]; simpl in Hi.
  - injection Hi as ->. by rewrite Nat.eqb_refl.
  - destruct (a =? p)%nat eqn:Hap.
    + apply Nat.eqb_eq in Hap. subst a. apply list_elem_of_lookup_2 in Hi. done.
    + f_equal. by apply IH.
Qed.

(** The index the transposed array reads. *)
Lemma moved_axis_index (idx : list nat) (axis len : nat) :
  length idx = len → (axis < len)%nat →
  (λ p, nth (index_of p (seq 0 axis ++ [len - 1] ++ seq axis (len - 1 - axis))%nat)
            idx 0%nat) <$> seq 0 len
  = delete axis idx ++ [nth axis idx 0%nat].
Proof.
  intros Hlen Hax.
  set (axes := (seq 0 axis ++ [len - 1] ++ seq axis (len - 1 - axis))%nat).
  assert (NoDup axes) as Hnd.
  { unfold axes. rewrite axes_permutation by done. apply NoDup_seq. }
  assert (length (delete axis idx) = (len - 1)%nat) as Hdel.
  { rewrite length_delete; [lia|]. apply lookup_lt_is_Some_2. lia. }
  apply list_eq. intros p. rewrite list_lookup_fmap.
  destruct (decide (p < len)%nat) as [Hp|Hp].
  2:{ rewrite lookup_seq_ge by lia. simpl. symmetry. apply lookup_ge_None.
      rewrite length_app, Hdel. simpl. lia. }
  rewrite lookup_seq_lt by lia. simpl.
  destruct (decide (p < axis)%nat).
  - rewrite (index_of_lookup axes p p Hnd).
    2:{ unfold axes. rewrite axes_lookup by done. by rewrite decide_True. }
    rewrite lookup_app_l by lia. rewrite list_lookup_delete_lt by done.
    rewrite nth_lookup. by destruct (lookup_lt_is_Some_2 idx p) as [y ->]; [lia|].
  - destruct (decide (p = len - 1)%nat) as [->|].
    + rewrite (index_of_lookup axes axis (len - 1) Hnd).
      2:{ unfold axes. rewrite axes_lookup by done.
          rewrite decide_False by lia. by rewrite decide_True. }
      rewrite lookup_app_r by lia. by rewrite Hdel, Nat.sub_diag.
    + rewrite (index_of_lookup axes (S p) p Hnd).
      2:{ unfold axes. rewrite axes_lookup by done.
          rewrite !decide_False by lia. rewrite decide_True by lia.
          f_equal. lia. }
      rewrite lookup_app_l by lia. rewrite list_lookup_delete_ge by lia.
      rewrite nth_lookup. by destruct (lookup_lt_is_Some_2 idx (S p)) as [y ->]; [lia|].
Qed.

Lemma insert_at_delete (idx : list nat) (axis j : nat) :
  (axis < length idx)%nat →
  insert_at axis j (delete axis idx) = <[axis := j]> idx.
Proof.
  revert axis. induction idx as [|x l IH]; intros [|a] Hax; simpl in *; try lia.
  - done.
  - unfold insert_at in *. simpl. f_equal. apply IH. lia.
Qed.

Lemma moran_action_spec `{Linalg} (t : R) (v : ndarray) (axis m : nat) :
  shape v !! axis = Some m → (1 ≤ m)%nat →
  ∃ ret, moran_action t v axis = Ok ret
         ∧ shape ret = shape v
         ∧ ∀ idx, length idx = length (shape v) →
             item ret idx =
             big_sum (λ j, item v (<[axis := j]> idx)
                           * moran_matrix t (m - 1) (nth axis idx 0%nat) j) m.
Proof.
  intros Hm Hpos. pose proof (lookup_lt_Some _ _ _ Hm) as Hax.
  unfold moran_action, moran_matrix. rewrite Hm.
  destruct m as [|n]; [lia|]. replace (S n - 1)%nat with n by lia.
  destruct (moran_eigensystem n) as [[P d] Pinv].
  set (Mx := dot (S n) P (dot (S n) (diag (λ a, exp (t * d a))) Pinv)).
  unfold tensordot. rewrite Hm, Nat.eqb_refl. cbn [rbind].
  unfold transpose. cbn [shape item].
  assert (length (delete axis (shape v) ++ [S n]) = length (shape v)) as Hlen.
  { rewrite length_app, length_delete by (by eexists). simpl. lia. }
  rewrite Hlen. rewrite decide_True by (by apply axes_permutation).
  cbn [rbind shape item]. rewrite moved_axis_shape by done.
  rewrite decide_True by done. eexists; split; [done|]. split; [done|].
  intros idx Hidx. cbn [item].
  rewrite moved_axis_index by done.
  assert (length (delete axis idx) = (length (shape v) - 1)%nat) as Hdel.
  { rewrite length_delete; [lia|]. apply lookup_lt_is_Some_2. lia. }
  apply big_sum_ext. intros j _.
  rewrite take_app_length' by done.
  rewrite insert_at_delete by lia.
  rewrite nth_lookup, lookup_app_r by lia. rewrite Hdel, Nat.sub_diag. done.
Qed.

(** C9 (as the code has it).  [moran_action] takes no lineage count: it reads
    n off the array as the size of the acted-on axis minus one, so there is
    no mismatch for it to reject.  For an axis of the array of size
    n + 1 >= 2 it returns an array of the same shape whose entries are those
    of P diag(e^(t d)) P^-1 applied along that axis, the indices on the
    other axes being left as they are. *)
Theorem moran_action_along_axis `{Linalg} (t : R) (v : ndarray) (axis m : nat) :
  shape v !! axis = Some m → (2 ≤ m)%nat →
  ∃ ret, moran_action t v axis = Ok ret
         ∧ shape ret = shape v
         ∧ ∀ idx, length idx = length (shape v) →
             item ret idx =
             big_sum (λ j, item v (<[axis := j]> idx)
                           * moran_matrix t (m - 1) (nth axis idx 0%nat) j) m.
Proof. intros Hm Hpos. apply moran_action_spec; [done | lia]. Qed.

Lemma moran_action_along_axis_witness :
  ∃ ret, @moran_action sample_linalg 1 sample_vector 0 = Ok ret
         ∧ shape ret = shape sample_vector
         ∧ ∀ idx, length idx = length (shape sample_vector) →
             item ret idx =
             big_sum (λ j, item sample_vector (<[0%nat := j]> idx)
                           * @moran_matrix sample_linalg 1 (3 - 1) (nth 0 idx 0%nat) j)
                     3.
Proof.
  apply (@moran_action_along_axis sample_linalg 1 sample_vector 0 3);
    [reflexivity | lia].
Defined.

(** C9 (as stated) fails: a history for five lineages acts on a vector for
    two lineages without any failure. *)
Lemma moran_action_mismatch_accepted :
  ConstantTruncatedSizeHistory 5 (Fin 1) 1 = Ok sample_history
  ∧ n_max sample_history = 5%nat
  ∧ shape sample_vector = [3%nat]
  ∧ ∃ ret, @moran_action sample_linalg 1 sample_vector 0 = Ok ret
           ∧ @transition_prob sample_linalg sample_history sample_vector 0 = Ok ret
           ∧ shape ret = [3%nat].
Proof.
  split.
  { unfold ConstantTruncatedSizeHistory. destruct (Rle_dec 1 0); [lra | done]. }
  split; [done|]. split; [done|].
  destruct (@moran_action_spec sample_linalg 1 sample_vector 0 3)
    as (ret & Hret & Hshape & _); [done | lia |].
  exists ret. split; [done|]. split; [|done].
  unfold transition_prob, sample_history. cbn [scaled_time constant_scaled_time].
  unfold xreal_eqb_zero. destruct (Req_dec_T (1 / 1) 0) as [Heq|_]; [lra|].
  replace (1 / 1) with 1 by lra. done.
Qed.

Lemma transition_prob_zero_time_witness :
  @transition_prob sample_linalg sample_still_history sample_vector 7 = Ok sample_vector
  ∧ @moran_action sample_linalg 0 sample_vector 7 = Raise IndexError
  ∧ ∃ h, ConstantTruncatedSizeHistory 2 (Fin 0) 1 = Ok h
         ∧ @transition_prob sample_linalg h sample_vector 0 = Ok sample_vector.
Proof.
  split; [|split].
  - apply (proj1 (@transition_prob_zero_time sample_linalg)). reflexivity.
  - reflexivity.
  - assert (∃ h, ConstantTruncatedSizeHistory 2 (Fin 0) 1 = Ok h) as [h Hh].
    { unfold ConstantTruncatedSizeHistory.
      destruct (Rle_dec 1 0); [lra | by eexists]. }
    exists h. split; [done|].
    apply (proj2 (@transition_prob_zero_time sample_linalg) 2%nat 1 h _ _ Hh).
Defined.

(** ** demography.py: the admixture tensor *)

Lemma choose_0_r (n : nat) : choose n 0 = 1%nat.
Proof. by destruct n. Qed.

Lemma choose_succ (n k : nat) :
  choose (S n) (S k) = (choose n k + choose n (S k))%nat.
Proof. done. Qed.

(** Vandermonde's identity. *)
Lemma vandermonde (a b k : nat) :
  big_sum (λ d, INR (choose a d) * INR (choose b (k - d))) (S k)
  = INR (choose (a + b) k).
Proof.
  revert k. induction a as [|a IH]; intros k.
  - rewrite big_sum_shift. rewrite big_sum_zero.
    + rewrite choose_0_r, Nat.sub_0_r. simpl. lra.
    + intros i _. simpl. lra.
  - rewrite big_sum_shift, choose_0_r, Nat.sub_0_r.
    rewrite (big_sum_ext _ (λ d, INR (choose a d) * INR (choose b (k - S d))
                                 + INR (choose a (S d)) * INR (choose b (k - S d)))).
    2:{ intros d _. rewrite choose_succ, plus_INR. ring. }
    rewrite big_sum_plus.
    pose proof (IH k) as IHk. rewrite big_sum_shift, choose_0_r, Nat.sub_0_r in IHk.
    destruct k as [|k].
    + simpl. rewrite !choose_0_r. simpl. lra.
    + rewrite (big_sum_ext _ (λ d, INR (choose a d) * INR (choose b (k - d))))
        by (intros d _; done).
      rewrite IH. change (S a + b)%nat with (S (a + b)).
      rewrite choose_succ, plus_INR, <- IHk. ring.
Qed.

(** The binomial theorem. *)
Lemma binomial_theorem (x y : R) (n : nat) :
  big_sum (λ k, INR (choose n k) * x ^ k * y ^ (n - k)) (S n) = (x + y) ^ n.
Proof.
  induction n as [|n IH]; [simpl; lra|].
  rewrite big_sum_shift, choose_0_r, Nat.sub_0_r.
  rewrite (big_sum_ext _ (λ k, x * (INR (choose n k) * x ^ k * y ^ (n - k))
                               + INR (choose n (S k)) * x ^ S k * y ^ (n - k))).
  2:{ intros k _. rewrite choose_succ, plus_INR.
      replace (S n - S k)%nat with (n - k)%nat by lia. simpl. ring. }
  rewrite big_sum_plus, big_sum_scal_l, IH.
  change ((x + y) ^ S n) with ((x + y) * (x + y) ^ n).
  rewrite big_sum_shift, choose_0_r, Nat.sub_0_r in IH.
  change (big_sum (λ k, INR (choose n (S k)) * x ^ S k * y ^ (n - k)) (S n))
    with (big_sum (λ k, INR (choose n (S k)) * x ^ S k * y ^ (n - k)) n
          + INR (choose n (S n)) * x ^ S n * y ^ (n - n)).
  rewrite (choose_gt n (S n)) by lia.
  rewrite (big_sum_ext (λ k, INR (choose n (S k)) * x ^ S k * y ^ (n - k))
                       (λ k, y * (INR (choose n (S k)) * x ^ S k * y ^ (n - S k)))).
  2:{ intros k Hk. replace (n - k)%nat with (S (n - S k)) by lia. simpl. ring. }
  rewrite big_sum_scal_l. rewrite <- IH. simpl. ring.
Qed.

(** Summing over the anti-diagonals of a triangle. *)
Lemma big_sum_triangle (f : nat → nat → R) (N : nat) :
  big_sum (λ c, big_sum (λ i, f i (c - i)%nat) (S c)) N
  = big_sum (λ i, big_sum (λ j, f i j) (N - i)) N.
Proof.
  induction N as [|N IH]; [done|].
  change (big_sum (λ c, big_sum (λ i, f i (c - i)%nat) (S c)) (S N))
    with (big_sum (λ c, big_sum (λ i, f i (c - i)%nat) (S c)) N
          + big_sum (λ i, f i (N - i)%nat) (S N)).
  rewrite IH.
  change (big_sum (λ i, big_sum (λ j, f i j) (S N - i)) (S N))
    with (big_sum (λ i, big_sum (λ j, f i j) (S N - i)) N
          + big_sum (λ j, f N j) (S N - N)).
  rewrite (big_sum_ext (λ i, big_sum (λ j, f i j) (S N - i))
                       (λ i, big_sum (λ j, f i j) (N - i) + f i (N - i)%nat)).
  2:{ intros i Hi. replace (S N - i)%nat with (S (N - i)) by lia. done. }
  rewrite big_sum_plus. replace (S N - N)%nat with 1%nat by lia.
  simpl. rewrite Nat.sub_diag. lra.
Qed.

Lemma sum_listR_big_sum (l : list R) :
  sum_listR l = big_sum (λ i, nth i l 0) (length l).
Proof.
  induction l as [|x l IH]; [done|].
  change (length (x :: l)) with (S (length l)).
  rewrite big_sum_shift. simpl. by rewrite IH.
Qed.

Lemma big_sum_nth_ge (l : list R) (m : nat) :
  (length l ≤ m)%nat → big_sum (λ i, nth i l 0) m = sum_listR l.
Proof.
  intros Hm. rewrite sum_listR_big_sum. apply big_sum_trunc; [done|].
  intros i Hi. apply nth_overflow. lia.
Qed.

(** The entries of a full convolution add up to the product of the sums. *)
Lemma fftconvolve_sum (a b : list R) :
  a ≠ [] → b ≠ [] →
  big_sum (λ c, nth c (fftconvolve a b) 0) (length a + length b - 1)
  = sum_listR a * sum_listR b.
Proof.
  intros Ha Hb. set (N := (length a + length b - 1)%nat).
  assert (0 < length a)%nat by (destruct a; simpl; [done | lia]).
  assert (0 < length b)%nat by (destruct b; simpl; [done | lia]).
  rewrite (big_sum_ext _ (λ c, big_sum (λ i, nth i a 0 * nth (c - i) b 0) (S c))).
  2:{ intros c Hc. unfold fftconvolve. destruct a as [|a0 a']; [done|].
      destruct b as [|b0 b']; [done|]. fold N.
      rewrite nth_lookup, list_lookup_fmap, lookup_seq_lt by done. simpl.
      f_equal.
      - apply big_sum_ext. intros i Hi.
        destruct (i <=? c)%nat eqn:Hic; [done|]. apply Nat.leb_gt in Hic. lia.
      - rewrite Nat.leb_refl. done. }
  rewrite (big_sum_triangle (λ i j, nth i a 0 * nth j b 0)).
  rewrite (big_sum_ext _ (λ i, nth i a 0 * sum_listR b)).
  2:{ intros i Hi. rewrite big_sum_scal_l.
      destruct (decide (i < length a)%nat).
      - rewrite big_sum_nth_ge by (unfold N; lia). done.
      - rewrite nth_overflow by lia. lra. }
  rewrite big_sum_scal_r. rewrite big_sum_nth_ge by (unfold N; lia). done.
Qed.

Lemma length_fftconvolve (a b : list R) :
  a ≠ [] → b ≠ [] → length (fftconvolve a b) = (length a + length b - 1)%nat.
Proof.
  intros Ha Hb. unfold fftconvolve. destruct a; [done|]. destruct b; [done|].
  by rewrite length_fmap, length_seq.
Qed.

Lemma comb_of_nat (n k : nat) :
  comb (Z.of_nat n) (Z.of_nat k) = INR (choose n k).
Proof.
  unfold comb. rewrite !Nat2Z.id.
  destruct (Z.leb_spec 0 (Z.of_nat k)); [|lia]. simpl.
  destruct (Z.leb_spec (Z.of_nat k) (Z.of_nat n)); [done|].
  rewrite choose_gt by lia. done.
Qed.

Lemma length_der_from_parent_probs (n_node k : nat) (der : Z) :
  length (der_from_parent_probs n_node k der) = (k + 1)%nat.
Proof. unfold der_from_parent_probs. by rewrite length_fmap, length_seq. Qed.

(** The probabilities of inheriting 0..k derived lineages from one parent
    add up to 1. *)
Lemma der_from_parent_probs_sum (n_node k par : nat) :
  (k ≤ n_node)%nat → (par ≤ n_node)%nat →
  sum_listR (der_from_parent_probs n_node k (Z.of_nat par)) = 1.
Proof.
  intros Hk Hpar. unfold der_from_parent_probs.
  rewrite sum_listR_fmap_seq.
  rewrite (big_sum_ext _ (λ d, INR (choose par d) * INR (choose (n_node - par) (k - d))
                               * / INR (choose n_node k))).
  2:{ intros d Hd. simpl. rewrite !comb_of_nat.
      replace (Z.of_nat n_node - Z.of_nat par)%Z with (Z.of_nat (n_node - par)) by lia.
      replace (Z.of_nat k - Z.of_nat d)%Z with (Z.of_nat (k - d)) by lia.
      rewrite comb_of_nat. done. }
  rewrite big_sum_scal_r. replace (k + 1)%nat with (S k) by lia.
  rewrite vandermonde. replace (par + (n_node - par))%nat with n_node by lia.
  apply Rinv_r. apply not_0_INR. pose proof (choose_pos n_node k Hk). lia.
Qed.

Lemma der_from_parent_probs_nonempty (n_node k : nat) (der : Z) :
  der_from_parent_probs n_node k der ≠ [].
Proof.
  intros Heq. apply (f_equal length) in Heq.
  rewrite length_der_from_parent_probs in Heq. simpl in Heq. lia.
Qed.

(** The distribution of the child's derived count, for a fixed number of
    lineages drawn from each parent. *)
Lemma der_in_admixture_node_sum (n k par1 par2 : nat) :
  (k ≤ n)%nat → (par1 ≤ n)%nat → (par2 ≤ n)%nat →
  ∃ d, der_in_admixture_node k (n - k) (Z.of_nat par1) (Z.of_nat par2) = Ok d
       ∧ big_sum (λ c, nth c d 0) (n + 1) = 1.
Proof.
  intros Hk Hp1 Hp2. unfold der_in_admixture_node.
  replace (k + (n - k))%nat with n by lia.
  set (a := der_from_parent_probs n k (Z.of_nat par1)).
  set (b := der_from_parent_probs n (n - k) (Z.of_nat par2)).
  assert (length a + length b - 1 = n + 1)%nat as Hlen.
  { unfold a, b. rewrite !length_der_from_parent_probs. lia. }
  rewrite length_fftconvolve by apply der_from_parent_probs_nonempty.
  rewrite Hlen, Nat.eqb_refl. eexists; split; [done|].
  rewrite <- Hlen. rewrite fftconvolve_sum by apply der_from_parent_probs_nonempty.
  unfold a, b. rewrite !der_from_parent_probs_sum by lia. lra.
Qed.

(** One column of the tensor adds up to (prob1 + prob2)^n. *)
Lemma admixture_entry_sum (n : nat) (prob1 prob2 : R) (par1 par2 : nat) :
  (par1 ≤ n)%nat → (par2 ≤ n)%nat →
  ∃ col : nat → R,
    (∀ c, admixture_entry n prob1 prob2 c par1 par2 = Ok (col c))
    ∧ big_sum col (n + 1) = (prob1 + prob2) ^ n.
Proof.
  intros Hp1 Hp2.
  assert (∃ D : nat → list R, ∀ k, (k ≤ n)%nat →
            der_in_admixture_node k (n - k) (Z.of_nat par1) (Z.of_nat par2) = Ok (D k)
            ∧ big_sum (λ c, nth c (D k) 0) (n + 1) = 1) as [D HD].
  { exists (λ k, match der_in_admixture_node k (n - k) (Z.of_nat par1) (Z.of_nat par2) with
                 | Ok d => d
                 | _ => []
                 end).
    intros k Hk. destruct (der_in_admixture_node_sum n k par1 par2) as (d & Hd & Hs);
      [done..|]. rewrite Hd. done. }
  exists (λ c, big_sum (λ k, INR (choose n k) * prob1 ^ k * prob2 ^ (n - k)
                             * nth c (D k) 0) (n + 1)).
  split.
  - intros c. unfold admixture_entry.
    rewrite (result_mapM_Ok _ (λ k, INR (choose n k) * prob1 ^ k * prob2 ^ (n - k)
                                    * nth c (D k) 0)).
    2:{ intros k Hk. apply elem_of_seq in Hk.
        destruct (HD k) as [-> _]; [lia|]. done. }
    simpl. by rewrite fold_left_Rplus_fmap_seq.
  - rewrite big_sum_exchange.
    rewrite (big_sum_ext _ (λ k, INR (choose n k) * prob1 ^ k * prob2 ^ (n - k))).
    2:{ intros k Hk. rewrite big_sum_scal_l.
        destruct (HD k) as [_ ->]; [lia|]. lra. }
    replace (n + 1)%nat with (S n) by lia. apply binomial_theorem.
Qed.

Lemma elem_of_range3 (m c p1 p2 : nat) :
  (c < m)%nat → (p1 < m)%nat → (p2 < m)%nat → (c, p1, p2) ∈ range3 m.
Proof.
  intros Hc H1 H2. unfold range3.
  apply list_elem_of_bind. exists c. split; [|apply elem_of_seq; lia].
  apply list_elem_of_bind. exists p1. split; [|apply elem_of_seq; lia].
  apply list_elem_of_bind. exists p2. split; [|apply elem_of_seq; lia].
  by apply list_elem_of_singleton.
Qed.

Lemma lookup_list_to_map_graph {K} `{Countable K} (g : K → R) (l : list K) (k : K) :
  k ∈ l → (list_to_map ((λ x, (x, g x)) <$> l) : gmap K R) !! k = Some (g k).
Proof.
  induction l as [|x l IH]; [by intros ?%elem_of_nil|]; intros Hk.
  simpl. destruct (decide (x = k)) as [->|Hne].
  - by rewrite lookup_insert_eq.
  - rewrite lookup_insert_ne by done. apply IH.
    apply elem_of_cons in Hk as [?|?]; [congruence | done].
Qed.

(** C3.  For an admixture node with n lineages whose two split
    probabilities add up to 1, the tensor over [child, parent1, parent2]
    is built, each axis ranging over 0..n, and for every fixed pair
    (parent1_derived, parent2_derived) its entries add up to 1 over
    child_derived. *)
Theorem admixture_prob_sums_to_one (G : Demography) (node : nat) (lin : gmap nat Z)
    (n : nat) (edge1 edge2 : nat * nat) (sp : gmap nat R) (prob1 prob2 : R) :
  n_lineages_at_node G = Ok lin →
  lin !! node = Some (Z.of_nat n) →
  in_edges G node = [edge1; edge2] →
  splitprobs G !! node = Some sp →
  sp !! edge1.1 = Some prob1 →
  sp !! edge2.1 = Some prob2 →
  prob1 + prob2 = 1 →
  ∃ A, admixture_prob G node = Ok A
       ∧ la_labels A = [node; edge1.1; edge2.1]
       ∧ shape (la_array A) = [n + 1; n + 1; n + 1]%nat
       ∧ ∀ par1 par2, (par1 ≤ n)%nat → (par2 ≤ n)%nat →
           big_sum (λ child, item (la_array A) [child; par1; par2]) (n + 1) = 1.
Proof.
  intros Hlin Hn Hedges Hsp Hp1 Hp2 Hsum.
  unfold admixture_prob. rewrite Hlin. cbn [rbind]. unfold getitem at 1.
  rewrite Hn. cbn [rbind]. rewrite Hedges. unfold getitem. rewrite Hsp. cbn [rbind].
  rewrite Hp1, Hp2. cbn [rbind]. destruct (Req_dec_T (prob1 + prob2) 1); [|done].
  rewrite Nat2Z.id. replace (Z.to_nat (Z.of_nat n + 1)) with (n + 1)%nat by lia.
  set (E := λ cpp : nat * nat * nat,
         match admixture_entry n prob1 prob2 cpp.1.1 cpp.1.2 cpp.2 with
         | Ok x => x
         | _ => 0
         end).
  rewrite (result_mapM_Ok _ (λ cpp, (cpp, E cpp))).
  2:{ intros [[c p1] p2] Hin. unfold range3 in Hin.
      apply list_elem_of_bind in Hin as (c' & Hin & Hc).
      apply list_elem_of_bind in Hin as (p1' & Hin & H1).
      apply list_elem_of_bind in Hin as (p2' & Hin & H2).
      apply list_elem_of_singleton in Hin. injection Hin as -> -> ->.
      apply elem_of_seq in H1, H2.
      destruct (admixture_entry_sum n prob1 prob2 p1' p2') as (col & Hcol & _);
        [lia..|].
      unfold E. simpl. rewrite Hcol. done. }
  cbn [rbind]. eexists; split; [done|]. cbn [la_labels la_array shape item].
  split; [done|]. split.
  { destruct (n + 1 =? 0)%nat eqn:Hz; [apply Nat.eqb_eq in Hz; lia | done]. }
  intros par1 par2 H1 H2.
  destruct (admixture_entry_sum n prob1 prob2 par1 par2) as (col & Hcol & Hcolsum);
    [done..|].
  rewrite (big_sum_ext _ col).
  - rewrite Hcolsum, Hsum. apply pow1.
  - intros c Hc. rewrite lookup_list_to_map_graph by (apply elem_of_range3; lia).
    unfold E. simpl. by rewrite Hcol.
Qed.

Lemma admixture_prob_sums_to_one_witness :
  ∃ A, admixture_prob sample_admixture_graph 3 = Ok A
       ∧ la_labels A = [3; 2; 1]%nat
       ∧ shape (la_array A) = [2; 2; 2]%nat
       ∧ ∀ par1 par2, (par1 ≤ 1)%nat → (par2 ≤ 1)%nat →
           big_sum (λ child, item (la_array A) [child; par1; par2]) 2 = 1.
Proof.
  apply (admixture_prob_sums_to_one sample_admixture_graph 3
           (list_to_map [(0%nat, 2%Z); (1%nat, 1%Z); (2%nat, 1%Z); (3%nat, 1%Z)])
           1 (2%nat, 3%nat) (1%nat, 3%nat)
           (list_to_map [(1%nat, 1 / 2); (2%nat, 1 / 2)]) (1 / 2) (1 / 2)).
  - vm_compute. reflexivity.
  - reflexivity.
  - vm_compute. reflexivity.
  - reflexivity.
  - reflexivity.
  - reflexivity.
  - lra.
Defined.

(** ** demography.py: observation state *)

Lemma m_bind_Ok_inv {A B} (m : M A) (f : A → M B) (G G' : Demography) (b : B) :
  m_bind m f G = (Ok b, G') →
  ∃ a G1, m G = (Ok a, G1) ∧ f a G1 = (Ok b, G').
Proof.
  unfold m_bind. destruct (m G) as [[a| |] G1]; try done. intros Hf. by exists a, G1.
Qed.

Ltac m_inv H a G1 H1 :=
  apply m_bind_Ok_inv in H as (a & G1 & H1 & H).

Lemma m_read_inv {A} (f : Demography → result A) (G G' : Demography) (r : result A) :
  m_read f G = (r, G') → f G = r ∧ G' = G.
Proof. unfold m_read. by intros [= -> ->]. Qed.

(** The updates of [update_nodes], one node after the other. *)
Lemma update_nodes_Ok_lookup (st : list (nat * gmap string Z))
    (nd nd' : gmap nat (gmap string Z)) :
  NoDup st.*1 → update_nodes st nd = (Ok (), nd') →
  (∀ v u, (v, u) ∈ st →
     ∃ ndn, nd !! v = Some ndn ∧ nd' !! v = Some (u ∪ ndn)
            ∧ state_mismatch (u ∪ ndn) = Ok false)
  ∧ (∀ v, v ∉ st.*1 → nd' !! v = nd !! v).
Proof.
  revert nd. induction st as [|[w uw] st IH]; intros nd Hnd Hup.
  - injection Hup as <-. split; [|done]. intros v u Hin. by apply elem_of_nil in Hin.
  - rewrite fmap_cons in Hnd. apply NoDup_cons in Hnd as [Hw Hnd].
    simpl in Hup. destruct (nd !! w) as [ndw|] eqn:Hndw; [|done].
    destruct (state_mismatch (uw ∪ ndw)) as [[|]| |] eqn:Hmis; try done.
    destruct (IH _ Hnd Hup) as [IH1 IH2]. split.
    + intros v u Hin. apply elem_of_cons in Hin as [[= -> ->]|Hin].
      * exists ndw. split; [done|]. split; [|done].
        rewrite IH2 by done. by rewrite lookup_insert_eq.
      * destruct (IH1 v u Hin) as (ndn & Hv & Hv' & Hm).
        assert (v ≠ w) as Hvw.
        { intros ->. apply Hw. apply list_elem_of_fmap. by exists (w, u). }
        rewrite lookup_insert_ne in Hv by done. by exists ndn.
    + intros v Hv. rewrite fmap_cons, not_elem_of_cons in Hv. destruct Hv as [Hvw Hv].
      rewrite IH2 by done. by rewrite lookup_insert_ne.
Qed.

(** The state in which [update_nodes] stops at the first node whose new
    attributes fail the check. *)
Lemma update_nodes_fails (pre post : list (nat * gmap string Z)) (node : nat)
    (upd ndn : gmap string Z) (nd : gmap nat (gmap string Z)) :
  NoDup (pre ++ [(node, upd)]).*1 →
  (∀ v u, (v, u) ∈ pre →
     ∃ ndv, nd !! v = Some ndv ∧ state_mismatch (u ∪ ndv) = Ok false) →
  nd !! node = Some ndn →
  state_mismatch (upd ∪ ndn) = Ok true →
  ∃ nd', update_nodes (pre ++ (node, upd) :: post) nd
         = (Raise (ExceptionAt "derived + ancestral must add to lineages at node" node),
            nd')
         ∧ nd' !! node = Some (upd ∪ ndn)
         ∧ (∀ v u, (v, u) ∈ pre → ∃ ndv, nd !! v = Some ndv ∧ nd' !! v = Some (u ∪ ndv))
         ∧ (∀ v, v ∉ (pre ++ [(node, upd)]).*1 → nd' !! v = nd !! v).
Proof.
  revert nd. induction pre as [|[w uw] pre IH]; intros nd Hnd Hpre Hnode Hmis.
  - simpl. rewrite Hnode, Hmis. eexists; split; [done|].
    split; [by rewrite lookup_insert_eq|]. split.
    + intros v u Hin. by apply elem_of_nil in Hin.
    + intros v Hv. simpl in Hv. rewrite not_elem_of_cons in Hv.
      rewrite lookup_insert_ne; [done|]. intros ->. by destruct Hv.
  - simpl in Hnd. apply NoDup_cons in Hnd as [Hw Hnd].
    destruct (Hpre w uw) as (ndw & Hndw & Hmw); [left|].
    assert (w ≠ node) as Hwn.
    { intros ->. apply Hw. rewrite fmap_app. apply elem_of_app. right. simpl. left. }
    destruct (IH (<[w := uw ∪ ndw]> nd)) as (nd' & Hup & Hn' & Hpre' & Hother).
    + done.
    + intros v u Hin. destruct (Hpre v u) as (ndv & Hv & Hm); [by right|].
      exists ndv. split; [|done]. rewrite lookup_insert_ne; [done|].
      intros ->. apply Hw. rewrite fmap_app. apply elem_of_app. left.
      apply list_elem_of_fmap. by exists (v, u).
    + by rewrite lookup_insert_ne.
    + done.
    + exists nd'. simpl. rewrite Hndw, Hmw. split; [done|]. split; [done|]. split.
      * intros v u Hin. apply elem_of_cons in Hin as [[= -> ->]|Hin].
        -- exists ndw. split; [done|]. rewrite Hother by done.
           by rewrite lookup_insert_eq.
        -- destruct (Hpre' v u Hin) as (ndv & Hv & Hv'). exists ndv. split; [|done].
           rewrite lookup_insert_ne in Hv; [done|].
           intros ->. apply Hw. rewrite fmap_app. apply elem_of_app. left.
           apply list_elem_of_fmap. by exists (v, u).
      * intros v Hv. rewrite not_elem_of_cons in Hv. destruct Hv as [Hvw Hv].
        rewrite Hother by done. by rewrite lookup_insert_ne.
Qed.

Lemma state_mismatch_true (ndn : gmap string Z) (l d a : Z) :
  ndn !! "lineages" = Some l → ndn !! "derived" = Some d →
  ndn !! "ancestral" = Some a → l ≠ (d + a)%Z →
  state_mismatch ndn = Ok true.
Proof.
  intros Hl Hd Ha Hne. unfold state_mismatch, getitem. rewrite Hl, Hd, Ha. simpl.
  f_equal. apply negb_true_iff. by apply Z.eqb_neq.
Qed.

(** C10.  [update_state] writes before it checks: when the check fails at a
    node, the exception is raised with that node and every node processed
    before it holding the new attributes; the nodes not yet reached keep
    theirs. *)
Theorem update_state_not_atomic (G : Demography)
    (pre post : list (nat * gmap string Z)) (node : nat)
    (upd ndn : gmap string Z) (l d a : Z) :
  NoDup (pre ++ [(node, upd)]).*1 →
  (∀ v u, (v, u) ∈ pre →
     ∃ ndv, nodes G !! v = Some ndv ∧ state_mismatch (u ∪ ndv) = Ok false) →
  nodes G !! node = Some ndn →
  (upd ∪ ndn) !! "lineages" = Some l →
  (upd ∪ ndn) !! "derived" = Some d →
  (upd ∪ ndn) !! "ancestral" = Some a →
  l ≠ (d + a)%Z →
  ∃ G', update_state (pre ++ (node, upd) :: post) G
        = (Raise (ExceptionAt "derived + ancestral must add to lineages at node" node),
           G')
        ∧ nodes G' !! node = Some (upd ∪ ndn)
        ∧ (∀ v u, (v, u) ∈ pre →
             ∃ ndv, nodes G !! v = Some ndv ∧ nodes G' !! v = Some (u ∪ ndv))
        ∧ (∀ v, v ∉ (pre ++ [(node, upd)]).*1 → nodes G' !! v = nodes G !! v).
Proof.
  intros Hnd Hpre Hnode Hl Hd Ha Hne.
  destruct (update_nodes_fails pre post node upd ndn (nodes G))
    as (nd' & Hup & H1 & H2 & H3); [done.. | by eapply state_mismatch_true |].
  exists (set_nodes G nd'). unfold update_state. rewrite Hup. done.
Qed.

Lemma update_state_not_atomic_witness :
  ∃ G', update_state
          ([(1%nat, attrs [("derived", 1%Z); ("ancestral", 1%Z)])]
           ++ [(2%nat, attrs [("derived", 5%Z); ("ancestral", 0%Z)])])
          sample_tree_graph
        = (Raise (ExceptionAt "derived + ancestral must add to lineages at node" 2),
           G')
        ∧ nodes G' !! 2%nat
          = Some (attrs [("derived", 5%Z); ("ancestral", 0%Z)]
                  ∪ attrs [("lineages", 2%Z)])
        ∧ (∀ v u, (v, u) ∈ [(1%nat, attrs [("derived", 1%Z); ("ancestral", 1%Z)])] →
             ∃ ndv, nodes sample_tree_graph !! v = Some ndv
                    ∧ nodes G' !! v = Some (u ∪ ndv))
        ∧ (∀ v, v ∉ [1%nat; 2%nat] → nodes G' !! v = nodes sample_tree_graph !! v).
Proof.
  apply (update_state_not_atomic sample_tree_graph
           [(1%nat, attrs [("derived", 1%Z); ("ancestral", 1%Z)])] [] 2%nat
           (attrs [("derived", 5%Z); ("ancestral", 0%Z)])
           (attrs [("lineages", 2%Z)]) 2 5 0).
  - apply (bool_decide_unpack _). vm_compute. exact I.
  - intros v u Hin. apply list_elem_of_singleton in Hin. injection Hin as -> ->.
    exists (attrs [("lineages", 2%Z)]). split; vm_compute; reflexivity.
  - vm_compute. reflexivity.
  - vm_compute. reflexivity.
  - vm_compute. reflexivity.
  - vm_compute. reflexivity.
  - lia.
Defined.

(** ** demography.py: what the normalizing constant leaves behind *)

Lemma structure_kept_refl (G : Demography) : structure_kept G G.
Proof. by repeat split. Qed.

Lemma structure_kept_trans (G1 G2 G3 : Demography) :
  structure_kept G1 G2 → structure_kept G2 G3 → structure_kept G1 G3.
Proof. unfold structure_kept. intros (?&?&?&?) (?&?&?&?). repeat split; congruence. Qed.

Lemma nodes_kept_refl (G : Demography) : nodes_kept G G.
Proof. split; [done | apply structure_kept_refl]. Qed.

Lemma nodes_kept_trans (G1 G2 G3 : Demography) :
  nodes_kept G1 G2 → nodes_kept G2 G3 → nodes_kept G1 G3.
Proof.
  intros [? ?] [? ?]. split; [congruence | by eapply structure_kept_trans].
Qed.

Lemma engine_call_kept {A} (f : Demography → result A * bool)
    (G G' : Demography) (r : result A) :
  engine_call f G = (r, G') → nodes_kept G G'.
Proof.
  unfold engine_call. destruct (f (uncached G)) as [r' b]. intros [= _ <-].
  by repeat split.
Qed.

Lemma m_foldl_kept {A B} (f : B → A → M B) :
  (∀ acc a G b G', f acc a G = (Ok b, G') → nodes_kept G G') →
  ∀ l acc G b G', m_foldl f acc l G = (Ok b, G') → nodes_kept G G'.
Proof.
  intros Hf l. induction l as [|a l IH]; intros acc G b G' H.
  - injection H as _ <-. apply nodes_kept_refl.
  - simpl in H. m_inv H acc' G1 H1.
    eapply nodes_kept_trans; [by eapply Hf | by eapply IH].
Qed.

Lemma branch_term_kept `{SumProduct} (ev : event) (subpops : list nat)
    (newpop : nat) (G G' : Demography) (x : R) :
  branch_term ev subpops newpop G = (Ok x, G') → nodes_kept G G'.
Proof.
  unfold branch_term. intros H0.
  m_inv H0 arr G1 H1. m_inv H0 z G2 H2. m_inv H0 s G3 H3. m_inv H0 pr G4 H4.
  injection H0 as _ <-.
  apply engine_call_kept in H1, H3.
  apply m_read_inv in H2 as [_ ->]. apply m_read_inv in H4 as [_ ->].
  by eapply nodes_kept_trans.
Qed.

Lemma result_mapM_Ok_fmap {A B} (f : A → result B) (g : A → B) (l : list A)
    (ys : list B) :
  result_mapM f l = Ok ys → (∀ x y, x ∈ l → f x = Ok y → y = g x) →
  ys = g <$> l.
Proof.
  intros Hys Hg. apply result_mapM_Ok_inv in Hys.
  induction Hys as [|x y l ys Hxy _ IH]; [done|].
  rewrite fmap_cons. f_equal.
  - apply Hg; [left | done].
  - apply IH. intros x' y' Hin. apply Hg. by right.
Qed.

(** The three states [normalizing_constant] writes. *)
Lemma getitem_Ok {K V} `{Countable K} (d : gmap K V) (k : K) (v : V) :
  getitem d k = Ok v ↔ d !! k = Some v.
Proof. unfold getitem. destruct (d !! k); split; congruence. Qed.

Lemma all_ancestral_state_Ok (G : Demography) (lv : list nat)
    (st : list (nat * gmap string Z)) :
  all_ancestral_state G lv = Ok st →
  st = (λ v, (v, {[ "derived" := 0%Z; "ancestral" := lineages_of G v ]})) <$> lv.
Proof.
  intros Hst. eapply result_mapM_Ok_fmap; [exact Hst|].
  intros v y _ Hy. simpl in Hy. unfold lineages_of, attribute.
  destruct (getitem (nodes G) v) as [nd| |] eqn:Hnd; try done.
  apply getitem_Ok in Hnd. rewrite Hnd. simpl in *.
  destruct (getitem nd "lineages") as [n| |] eqn:Hn; try done.
  apply getitem_Ok in Hn. rewrite Hn. simpl in *. congruence.
Qed.

Lemma all_derived_state_Ok (G : Demography) (lv : list nat)
    (st : list (nat * gmap string Z)) :
  all_derived_state G lv = Ok st →
  st = (λ v, (v, {[ "derived" := lineages_of G v; "ancestral" := 0%Z ]})) <$> lv.
Proof.
  intros Hst. eapply result_mapM_Ok_fmap; [exact Hst|].
  intros v y _ Hy. simpl in Hy. unfold lineages_of, attribute.
  destruct (getitem (nodes G) v) as [nd| |] eqn:Hnd; try done.
  apply getitem_Ok in Hnd. rewrite Hnd. simpl in *.
  destruct (getitem nd "lineages") as [n| |] eqn:Hn; try done.
  apply getitem_Ok in Hn. rewrite Hn. simpl in *. congruence.
Qed.

Lemma saved_state_Ok (G : Demography) (lv : list nat)
    (st : list (nat * gmap string Z)) :
  saved_state G lv = Ok st →
  st = (λ v, (v, {[ "ancestral" := default 0%Z (attribute G v "ancestral");
                    "derived" := default 0%Z (attribute G v "derived") ]})) <$> lv
  ∧ ∀ v, v ∈ lv → observed G v.
Proof.
  intros Hst. split.
  - eapply result_mapM_Ok_fmap; [exact Hst|].
    intros v y _ Hy. simpl in Hy. unfold attribute.
    destruct (getitem (nodes G) v) as [nd| |] eqn:Hnd; try done.
    apply getitem_Ok in Hnd. rewrite Hnd. simpl in *.
    destruct (getitem nd "ancestral") as [a| |] eqn:Ha; try done.
    apply getitem_Ok in Ha. rewrite Ha. simpl in *.
    destruct (getitem nd "derived") as [d| |] eqn:Hd; try done.
    apply getitem_Ok in Hd. rewrite Hd. simpl in *. congruence.
  - apply result_mapM_Ok_inv in Hst. intros v Hv.
    apply list_elem_of_lookup in Hv as [i Hi].
    destruct (Forall2_lookup_l _ _ _ _ _ Hst Hi) as (y & _ & Hy). simpl in Hy.
    unfold observed, attribute.
    destruct (getitem (nodes G) v) as [nd| |] eqn:Hnd; try done.
    apply getitem_Ok in Hnd. rewrite Hnd. simpl in *.
    destruct (getitem nd "ancestral") as [a| |] eqn:Ha; try done.
    apply getitem_Ok in Ha. rewrite Ha. simpl in *.
    destruct (getitem nd "derived") as [d| |] eqn:Hd; try done.
    apply getitem_Ok in Hd. rewrite Hd. by split.
Qed.

Lemma saved_state_is_Ok (G : Demography) (lv : list nat) :
  (∀ v, v ∈ lv → observed G v) → ∃ st, saved_state G lv = Ok st.
Proof.
  intros Hobs.
  destruct (result_mapM_is_Ok
    (λ v, nd ←r getitem (nodes G) v;
          a ←r getitem nd "ancestral";
          d ←r getitem nd "derived";
          Ok (v, ({[ "ancestral" := a; "derived" := d ]} : gmap string Z))) lv)
    as (st & Hst & _); [|by exists st].
  intros v Hv. destruct (Hobs v Hv) as [[d Hd] [a Ha]]. unfold attribute in *.
  unfold getitem. destruct (nodes G !! v) as [nd|]; [|done]. simpl in *.
  rewrite Ha, Hd. simpl. by eexists.
Qed.

(** A successful [update_state] with one entry for each node of [lv]. *)
Lemma update_state_fmap_Ok (U : nat → gmap string Z) (lv : list nat)
    (G G' : Demography) (r : ()) :
  NoDup lv →
  update_state ((λ v, (v, U v)) <$> lv) G = (Ok r, G') →
  structure_kept G G'
  ∧ ∀ v, nodes G' !! v
         = if decide (v ∈ lv) then (U v ∪.) <$> nodes G !! v else nodes G !! v.
Proof.
  intros Hnd Hup. unfold update_state in Hup.
  destruct (update_nodes ((λ v, (v, U v)) <$> lv) (nodes G)) as [[[]| |] nd'] eqn:Hn;
    try done.
  assert (((λ v, (v, U v)) <$> lv).*1 = lv) as Hkeys.
  { rewrite <- list_fmap_compose. apply list_fmap_id. }
  apply update_nodes_Ok_lookup in Hn as [Hin Hout]; [|by rewrite Hkeys].
  rewrite Hkeys in Hout.
  assert (nodes G' = nd' ∧ structure_kept G G') as [-> Hs].
  { destruct (n_derived_cached (set_nodes G nd') || n_derived_computable (set_nodes G nd'))%bool;
      [|done]. injection Hup as _ <-. by repeat split. }
  split; [done|]. intros v. destruct (decide (v ∈ lv)) as [Hv|Hv].
  - destruct (Hin v (U v)) as (ndn & -> & -> & _); [|done].
    apply list_elem_of_fmap. by exists v.
  - by apply Hout.
Qed.

Lemma pair_union_lookup (k1 k2 : string) (x y : Z) (m : gmap string Z) (k : string) :
  ({[ k1 := x; k2 := y ]} ∪ m) !! k
  = if decide (k = k1) then Some x
    else if decide (k = k2) then Some y else m !! k.
Proof.
  destruct (decide (k = k1)) as [->|H1].
  - apply lookup_union_Some_l. apply lookup_insert_eq.
  - destruct (decide (k = k2)) as [->|H2].
    + apply lookup_union_Some_l. rewrite lookup_insert_ne by done.
      apply lookup_singleton_eq.
    + apply lookup_union_r. rewrite lookup_insert_ne by done.
      by apply lookup_singleton_ne.
Qed.

Lemma observation_only_intro (G G' : Demography) :
  topology_kept G G' →
  (∀ v, nodes G' !! v = nodes G !! v
        ∨ (v ∈ leaves G
           ∧ ∃ x y, nodes G' !! v
                    = ({[ "derived" := x; "ancestral" := y ]} ∪.) <$> nodes G !! v)) →
  observation_only G G'.
Proof.
  intros Ht Hn. split; [done|]. intros v.
  destruct (Hn v) as [->|(Hv & x & y & ->)].
  - destruct (nodes G !! v); [|done]. split; done.
  - destruct (nodes G !! v) as [a|]; cbn [fmap option_fmap option_map]; [|done].
    split; [done|]. intros k Hd Ha. rewrite pair_union_lookup.
    by rewrite !decide_False.
Qed.

Lemma structure_topology_kept (G G' : Demography) :
  structure_kept G G' → topology_kept G G'.
Proof. intros (?&?&?&?). by repeat split. Qed.

Lemma normalizing_constant_value_nodes `{SumProduct} (G0 G' : Demography) (ret : R) :
  normalizing_constant_value G0 = (Ok ret, G') →
  structure_kept G0 G'
  ∧ observation_only G0 G'
  ∧ ((∀ v, v ∈ leaves G0 → observed G0 v) ∧ nodes G' = nodes G0
     ∨ ¬ (∀ v, v ∈ leaves G0 → observed G0 v)
       ∧ ∀ v, nodes G' !! v
              = if decide (v ∈ leaves G0)
                then ({[ "derived" := lineages_of G0 v; "ancestral" := 0%Z ]} ∪.)
                       <$> nodes G0 !! v
                else nodes G0 !! v).
Proof.
  unfold normalizing_constant_value. intros H0.
  set (lv := elements (leaves G0)) in *.
  assert (NoDup lv) as Hnd by apply NoDup_elements.
  assert (∀ v, v ∈ lv ↔ v ∈ leaves G0) as Hlv by (intros; apply elem_of_elements).
  m_inv H0 st1 G0' H1. apply m_read_inv in H1 as [H1 ->].
  apply all_ancestral_state_Ok in H1. subst st1.
  m_inv H0 u1 G1 H1. apply update_state_fmap_Ok in H1 as [Hs1 Hn1]; [|done].
  m_inv H0 u2 G2 H2. apply engine_call_kept in H2 as [Hn2 Hs2].
  m_inv H0 T G2' H3. apply m_read_inv in H3 as [_ ->].
  m_inv H0 ret1 G3 H3.
  apply (m_foldl_kept
           (λ ret '(ev, d),
              m_foldl (λ ret newpop,
                         x ←m branch_term ev (ed_subpops d) newpop;
                         m_ret (ret + x)) ret (ed_parent_pops d))) in H3
    as [Hn3 Hs3].
  2:{ intros acc [ev d] Ga b Gb Hstep.
      eapply (m_foldl_kept (λ ret newpop,
                              x ←m branch_term ev (ed_subpops d) newpop;
                              m_ret (ret + x))); [|exact Hstep].
      intros acc' np Gc b' Gd Hb. m_inv Hb x Ge Hx. injection Hb as _ <-.
      by eapply branch_term_kept. }
  m_inv H0 st2 G3' H4. apply m_read_inv in H4 as [H4 ->].
  apply all_derived_state_Ok in H4. subst st2.
  m_inv H0 u4 G4 H4. apply update_state_fmap_Ok in H4 as [Hs4 Hn4]; [|done].
  m_inv H0 u5 G5 H5. apply engine_call_kept in H5 as [Hn5 Hs5].
  m_inv H0 p G6 H6. apply engine_call_kept in H6 as [Hn6 Hs6].
  m_inv H0 u7 G7 H7. injection H0 as _ <-.
  (* the nodes after the second update *)
  assert (∀ v, nodes G6 !! v
               = if decide (v ∈ leaves G0)
                 then ({[ "derived" := lineages_of G0 v; "ancestral" := 0%Z ]} ∪.)
                        <$> nodes G0 !! v
                 else nodes G0 !! v) as Hn6'.
  { intros v. rewrite Hn6, Hn5, Hn4, Hn3, Hn2, Hn1.
    destruct (decide (v ∈ lv)) as [Hv|Hv].
    - rewrite decide_True by (by apply Hlv).
      destruct (nodes G0 !! v) as [ndv|] eqn:Hndv;
        cbn [fmap option_fmap option_map]; [|reflexivity]. f_equal.
      assert (lineages_of G3 v = lineages_of G0 v) as ->.
      { unfold lineages_of, attribute. rewrite Hn3, Hn2, Hn1.
        rewrite decide_True by done. rewrite Hndv.
        cbn [fmap option_fmap option_map mbind option_bind].
        by rewrite pair_union_lookup. }
      apply map_eq. intros k. rewrite !pair_union_lookup.
      repeat case_decide; done.
    - rewrite decide_False by (by rewrite <- Hlv). done. }
  assert (structure_kept G0 G6) as Hs6'.
  { repeat (eapply structure_kept_trans; [|eassumption]). done. }
  assert (observation_only G0 G6) as Ho6.
  { apply observation_only_intro; [by apply structure_topology_kept|].
    intros v. rewrite Hn6'. destruct (decide (v ∈ leaves G0)); [|by left].
    right. split; [done|]. by eexists _, _. }
  assert (¬ (∃ st, saved_state G0 lv = Ok st) →
          ¬ (∀ v, v ∈ leaves G0 → observed G0 v)) as Hnone.
  { intros Hno Hobs. apply Hno. apply saved_state_is_Ok.
    intros v Hv. apply Hobs. by apply Hlv. }
  destruct (saved_state G0 lv) as [st3| |] eqn:Hsaved.
  - apply saved_state_Ok in Hsaved as [-> Hobs].
    apply update_state_fmap_Ok in H7 as [Hs7 Hn7]; [|done].
    assert (nodes G7 = nodes G0) as Heq.
    { apply map_eq. intros v. rewrite Hn7, Hn6'.
      destruct (decide (v ∈ lv)) as [Hv|Hv].
      * rewrite decide_True by (by apply Hlv).
        destruct (Hobs v Hv) as [[d Hd] [a Ha]]. unfold attribute in *.
        destruct (nodes G0 !! v) as [ndv|] eqn:Hndv;
          cbn [mbind option_bind] in Hd, Ha; [|discriminate Hd].
        cbn [mbind option_bind]. rewrite Hd, Ha.
        cbn [fmap option_fmap option_map default]. f_equal. apply map_eq. intros k.
        rewrite !pair_union_lookup. unfold Datatypes.id.
        repeat case_decide; subst; congruence.
      * rewrite decide_False by (by rewrite <- Hlv). done. }
    split; [by eapply structure_kept_trans|]. split.
    + apply observation_only_intro.
      * apply structure_topology_kept. by eapply structure_kept_trans.
      * intros v. left. by rewrite Heq.
    + left. split; [|done]. intros v Hv. apply Hobs. by apply Hlv.
  - injection H7 as _ <-. split; [done|]. split; [done|]. right. split; [|done].
    apply Hnone. by intros [st [=]].
  - injection H7 as _ <-. split; [done|]. split; [done|]. right. split; [|done].
    apply Hnone. by intros [st [=]].
Qed.

Lemma normalizing_constant_inv `{SumProduct} (G G' : Demography) (r : R) :
  normalizing_constant G = (Ok r, G') →
  normalizing_constant_value G = (Ok r, G') ∧ 0 < r.
Proof.
  unfold normalizing_constant. intros H0. m_inv H0 ret G1 H1.
  unfold m_assert_return in H0. destruct (Rlt_dec 0 ret); [|done].
  by injection H0 as <- <-.
Qed.


(** C8 (as the code has it).  When [normalizing_constant] returns, the
    topology and every attribute other than ['derived'] and ['ancestral'] of
    the leaves are as on entry.  If every leaf carried both ['derived'] and
    ['ancestral'] on entry, the node attributes are exactly those of entry;
    if some leaf did not, nothing is restored and every leaf is left with
    ['derived'] equal to its lineages and ['ancestral'] equal to 0. *)
Theorem normalizing_constant_restores_state `{SumProduct}
    (G0 G' : Demography) (r : R) :
  normalizing_constant G0 = (Ok r, G') →
  structure_kept G0 G'
  ∧ observation_only G0 G'
  ∧ ((∀ v, v ∈ leaves G0 → observed G0 v) ∧ nodes G' = nodes G0
     ∨ ¬ (∀ v, v ∈ leaves G0 → observed G0 v)
       ∧ ∀ v, nodes G' !! v
              = if decide (v ∈ leaves G0)
                then ({[ "derived" := lineages_of G0 v; "ancestral" := 0%Z ]} ∪.)
                       <$> nodes G0 !! v
                else nodes G0 !! v).
Proof.
  intros Hr. apply normalizing_constant_inv in Hr as [Hv _].
  by apply normalizing_constant_value_nodes in Hv.
Qed.

(** Runs on the sample tree. *)
Lemma sample_run_observed :
  @normalizing_constant sample_engine sample_observed_graph
  = (Ok (5 / 2), sample_observed_graph).
Proof.
  vm_compute. destruct (Rlt_dec _ _) as [_|Hn].
  - f_equal. f_equal. lra.
  - exfalso. apply Hn. lra.
Qed.

Lemma sample_run_fresh :
  @normalizing_constant sample_engine sample_tree_graph
  = (Ok (5 / 2), sample_all_derived_graph).
Proof.
  vm_compute. destruct (Rlt_dec _ _) as [_|Hn].
  - f_equal. f_equal. lra.
  - exfalso. apply Hn. lra.
Qed.



Lemma normalizing_constant_restores_state_witness :
  structure_kept sample_observed_graph sample_observed_graph
  ∧ observation_only sample_observed_graph sample_observed_graph
  ∧ ((∀ v, v ∈ leaves sample_observed_graph → observed sample_observed_graph v)
     ∧ nodes sample_observed_graph = nodes sample_observed_graph
     ∨ ¬ (∀ v, v ∈ leaves sample_observed_graph → observed sample_observed_graph v)
       ∧ ∀ v, nodes sample_observed_graph !! v
              = if decide (v ∈ leaves sample_observed_graph)
                then ({[ "derived" := lineages_of sample_observed_graph v;
                         "ancestral" := 0%Z ]} ∪.)
                       <$> nodes sample_observed_graph !! v
                else nodes sample_observed_graph !! v).
Proof.
  apply (@normalizing_constant_restores_state sample_engine
           sample_observed_graph sample_observed_graph (5 / 2)).
  apply sample_run_observed.
Defined.

(** C8 (as stated) fails: on a graph whose leaves carry no observation state
    yet, the call returns and leaves them with one. *)
Lemma normalizing_constant_changes_fresh_state :
  ∃ r G', @normalizing_constant sample_engine sample_tree_graph = (Ok r, G')
          ∧ attribute sample_tree_graph 1 "derived" = None
          ∧ attribute G' 1 "derived" = Some 2%Z.
Proof.
  exists (5 / 2), sample_all_derived_graph. split; [apply sample_run_fresh|].
  split; vm_compute; reflexivity.
Qed.

(** ** demography.py: the log-likelihood *)

Lemma observation_only_refl (G : Demography) : observation_only G G.
Proof.
  split; [by repeat split|]. intros v. destruct (nodes G !! v); [|done]. by split.
Qed.

Lemma observation_only_dom (G G' : Demography) :
  observation_only G G' → dom (nodes G') = dom (nodes G).
Proof.
  intros [_ Hn]. apply set_eq. intros v. rewrite !elem_of_dom.
  specialize (Hn v). by destruct (nodes G !! v), (nodes G' !! v).
Qed.

Lemma observation_only_leaves (G G' : Demography) :
  observation_only G G' → leaves G' = leaves G.
Proof.
  intros Ho. pose proof (observation_only_dom _ _ Ho) as Hdom.
  destruct Ho as [(He & _ & _) _]. apply set_eq. intros v. unfold leaves.
  rewrite !elem_of_filter, Hdom. unfold successors. by rewrite He.
Qed.

Lemma observation_only_attribute (G G' : Demography) (v : nat) (k : string) :
  observation_only G G' → k ≠ "derived" → k ≠ "ancestral" →
  attribute G' v k = attribute G v k.
Proof.
  intros [_ Hn] Hd Ha. specialize (Hn v). unfold attribute.
  destruct (nodes G !! v), (nodes G' !! v); try done.
  cbn [mbind option_bind]. by apply Hn.
Qed.

Lemma observation_only_lineages (G G' : Demography) (v : nat) :
  observation_only G G' → lineages_of G' v = lineages_of G v.
Proof.
  intros Ho. unfold lineages_of. by rewrite (observation_only_attribute G G').
Qed.

Lemma n_lineages_from_leaf (G : Demography) (fuel a : nat) (n : Z) :
  n_lineages_from G fuel a = Ok n → a ∈ leaves G →
  attribute G a "lineages" = Some n.
Proof.
  intros Hn Hleaf.
  assert (is_leaf G a = true) as Hl by (by apply bool_decide_eq_true_2).
  assert ((nd ←r getitem (nodes G) a; getitem nd "lineages") = Ok n) as Hget.
  { destruct fuel; simpl in Hn; by rewrite Hl in Hn. }
  unfold attribute, getitem in *.
  destruct (nodes G !! a) as [nd|]; [|done]. cbn [rbind mbind option_bind] in *.
  by destruct (nd !! "lineages") as [x|]; [injection Hget as ->|].
Qed.

(** At a leaf, [n_lineages_at_node] is the ['lineages'] attribute. *)
Lemma n_lineages_at_leaf (G : Demography) (lin : gmap nat Z) (a : nat) (n : Z) :
  n_lineages_at_node G = Ok lin → lin !! a = Some n → a ∈ leaves G →
  attribute G a "lineages" = Some n.
Proof.
  unfold n_lineages_at_node. intros Hlin Ha Hleaf.
  destruct (root G) as [r| |]; try done. cbn [rbind] in Hlin.
  destruct (result_mapM _ _) as [kvs| |] eqn:Hkvs; try done.
  injection Hlin as <-. apply elem_of_list_to_map_2 in Ha.
  apply result_mapM_Ok_inv in Hkvs.
  apply list_elem_of_lookup in Ha as [i Hi].
  destruct (Forall2_lookup_r _ _ _ _ _ Hkvs Hi) as (v & _ & Hv).
  cbn beta in Hv.
  destruct (n_lineages_from G (size (nodes G)) v) as [n'| |] eqn:Hn; try done.
  injection Hv as -> ->. by eapply n_lineages_from_leaf.
Qed.

Lemma sorted_leaves_spec (G : Demography) :
  NoDup (merge_sort le (elements (leaves G)))
  ∧ (∀ v, v ∈ merge_sort le (elements (leaves G)) ↔ v ∈ leaves G)
  ∧ length (merge_sort le (elements (leaves G))) = size (leaves G).
Proof.
  pose proof (merge_sort_Permutation le (elements (leaves G))) as Hp.
  split; [|split].
  - rewrite Hp. apply NoDup_elements.
  - intros v. rewrite Hp. apply elem_of_elements.
  - by rewrite Hp.
Qed.

Lemma update_state_Ok_apply (st : list (nat * gmap string Z))
    (G G' : Demography) (r : ()) :
  NoDup st.*1 → update_state st G = (Ok r, G') →
  structure_kept G G' ∧ nodes G' = apply_state st (nodes G).
Proof.
  intros Hnd Hup. unfold update_state in Hup.
  destruct (update_nodes st (nodes G)) as [[[]| |] nd'] eqn:Hn; try done.
  apply update_nodes_Ok_lookup in Hn as [Hin Hout]; [|done].
  assert (nodes G' = nd' ∧ structure_kept G G') as [-> Hs].
  { destruct (n_derived_cached (set_nodes G nd') || n_derived_computable (set_nodes G nd'))%bool;
      [|done]. injection Hup as _ <-. by repeat split. }
  split; [done|]. apply map_eq. intros v. unfold apply_state.
  rewrite map_lookup_imap. destruct (decide (v ∈ st.*1)) as [Hv|Hv].
  - apply list_elem_of_fmap in Hv as ([v' u] & -> & Hvu). cbn [fst].
    destruct (Hin v' u Hvu) as (ndn & -> & -> & _). cbn [mbind option_bind].
    by rewrite (elem_of_list_to_map_1 st v' u).
  - rewrite Hout by done. destruct (nodes G !! v) as [ndv|]; [|done].
    cbn [mbind option_bind]. by rewrite (not_elem_of_list_to_map_1 st v).
Qed.

Lemma config_list_keys (G : Demography) (states : list Z) :
  length states = size (leaves G) →
  (config_list G states).*1 = merge_sort le (elements (leaves G)).
Proof.
  intros Hlen. destruct (sorted_leaves_spec G) as (_ & _ & Hl). unfold config_list.
  rewrite <- list_fmap_compose.
  rewrite (list_fmap_ext _ fst) by (by intros i [a b] _).
  apply fst_zip. lia.
Qed.

Lemma config_list_values (G : Demography) (states : list Z) (v : nat)
    (u : gmap string Z) :
  (v, u) ∈ config_list G states →
  ∃ b, u = {[ "derived" := b; "ancestral" := (lineages_of G v - b)%Z ]}.
Proof.
  unfold config_list. intros Hin.
  apply list_elem_of_fmap in Hin as ([a b] & [= -> ->] & _). by exists b.
Qed.

Lemma config_list_lookup (G : Demography) (states : list Z) (v : nat) :
  length states = size (leaves G) →
  match (list_to_map (config_list G states) : gmap nat (gmap string Z)) !! v with
  | Some u => v ∈ leaves G
              ∧ ∃ b, u = {[ "derived" := b; "ancestral" := (lineages_of G v - b)%Z ]}
  | None => v ∉ leaves G
  end.
Proof.
  intros Hlen. destruct (sorted_leaves_spec G) as (Hnd & Hin & _).
  destruct (list_to_map (config_list G states) !! v) as [u|] eqn:Hu.
  - apply elem_of_list_to_map_2 in Hu. split; [|by eapply config_list_values].
    apply Hin. rewrite <- (config_list_keys G states) by done.
    apply list_elem_of_fmap. by exists (v, u).
  - apply not_elem_of_list_to_map_2 in Hu.
    rewrite config_list_keys in Hu by done. by rewrite <- Hin.
Qed.

(** Setting a full configuration forgets the observation state held before. *)
Lemma apply_state_observation (G Ga : Demography) (states : list Z) :
  observation_only G Ga → length states = size (leaves G) →
  apply_state (config_list G states) (nodes Ga)
  = apply_state (config_list G states) (nodes G).
Proof.
  intros [_ Ho] Hlen. apply map_eq. intros v. unfold apply_state.
  rewrite !map_lookup_imap. specialize (Ho v).
  pose proof (config_list_lookup G states v Hlen) as Hl.
  destruct (nodes G !! v) as [a|], (nodes Ga !! v) as [b|]; try done.
  cbn [mbind option_bind]. destruct Ho as [Hnl Hk]. f_equal.
  destruct (list_to_map (config_list G states) !! v) as [u|].
  - destruct Hl as (_ & x & ->). apply map_eq. intros k.
    rewrite !pair_union_lookup. repeat case_decide; try done. by apply Hk.
  - by apply Hnl.
Qed.

Lemma with_config_observation (G : Demography) (states : list Z) :
  length states = size (leaves G) → observation_only G (with_config G states).
Proof.
  intros Hlen. apply observation_only_intro; [by repeat split|].
  intros v. unfold with_config, apply_state. cbn [nodes set_nodes].
  rewrite map_lookup_imap.
  pose proof (config_list_lookup G states v Hlen) as Hl.
  destruct (list_to_map (config_list G states) !! v) as [u|].
  - right. destruct Hl as (Hv & b & ->). split; [done|]. exists b, (lineages_of G v - b)%Z.
    by destruct (nodes G !! v).
  - left. by destruct (nodes G !! v).
Qed.

Lemma config_state_Ok (G Ga : Demography) (states : list Z)
    (st : list (nat * gmap string Z)) :
  observation_only G Ga →
  config_state Ga (merge_sort le (elements (leaves G))) states = Ok st →
  st = config_list G states.
Proof.
  intros Ho Hst. unfold config_state in Hst.
  destruct (n_lineages_at_node Ga) as [lin| |] eqn:Hlin; try done.
  cbn [rbind] in Hst. unfold config_list.
  eapply result_mapM_Ok_fmap; [exact Hst|].
  intros [a b] y Hin Hy. cbn beta iota in Hy.
  destruct (getitem lin a) as [n| |] eqn:Hn; try done. cbn [rbind] in Hy.
  injection Hy as <-. apply getitem_Ok in Hn.
  apply elem_of_zip_l in Hin. apply (sorted_leaves_spec G) in Hin.
  assert (attribute Ga a "lineages" = Some n) as Hattr.
  { eapply n_lineages_at_leaf; [done..|]. by rewrite (observation_only_leaves G Ga). }
  rewrite <- (observation_only_lineages G Ga) by done.
  unfold lineages_of. by rewrite Hattr.
Qed.

Lemma sum_listR_Permutation (l k : list R) : l ≡ₚ k → sum_listR l = sum_listR k.
Proof.
  induction 1 as [|x l k _ IH|x y l|l k m _ IH1 _ IH2]; simpl; lra.
Qed.

(** One turn of the loop, started on a graph that differs from [G] at most
    in the observation state of its leaves. *)
Lemma prf_step_spec `{SumProduct} (theta : R) (G Ga Gb : Demography)
    (acc acc' : R) (it : list Z * nat) :
  observation_only G Ga → length it.1 = size (leaves G) →
  prf_step theta (merge_sort le (elements (leaves G))) acc it Ga = (Ok acc', Gb) →
  observation_only G Gb
  ∧ (∃ p, (sp_p (uncached (with_config G it.1))).1 = Ok p ∧ 0 < p * theta / 2)
  ∧ acc' = acc + prf_term theta G it.
Proof.
  destruct it as [states w]. cbn [fst snd]. intros Ho Hlen H0. unfold prf_step in H0.
  m_inv H0 st G1 H1. apply m_read_inv in H1 as [H1 ->].
  apply (config_state_Ok G) in H1; [|done]. subst st.
  m_inv H0 u1 G1 H1.
  apply update_state_Ok_apply in H1 as [Hs1 Hn1];
    [|rewrite config_list_keys by done; apply sorted_leaves_spec].
  rewrite apply_state_observation in Hn1 by done.
  m_inv H0 u2 G2 H2. apply engine_call_kept in H2 as [Hn2 Hs2].
  m_inv H0 p G3 H3. pose proof (engine_call_kept _ _ _ _ H3) as [Hn3 Hs3].
  m_inv H0 l G4 H4. apply m_read_inv in H4 as [H4 ->]. injection H0 as <- <-.
  assert (structure_kept Ga G3) as Hs.
  { eapply structure_kept_trans; [|exact Hs3].
    eapply structure_kept_trans; [exact Hs1 | exact Hs2]. }
  assert (topology_kept G G3) as Ht.
  { destruct Ho as [(?&?&?) _]. destruct Hs as (?&?&?&?). repeat split; congruence. }
  assert (nodes G3 = nodes (with_config G states)) as Hn.
  { rewrite Hn3, Hn2, Hn1. done. }
  assert (uncached G2 = uncached (with_config G states)) as Hunc.
  { destruct Ho as [(?&?&?) _]. destruct Hs1 as (?&?&?&?). destruct Hs2 as (?&?&?&?).
    unfold uncached. f_equal; cbn [edges graph_events splitprobs with_config set_nodes];
      congruence. }
  unfold log in H4. destruct (Rlt_dec 0 (p * theta / 2)) as [Hpos|]; [|done].
  injection H4 as <-.
  unfold engine_call in H3. rewrite Hunc in H3.
  destruct (sp_p (uncached (with_config G states))) as [rp b] eqn:Hp.
  injection H3 as -> _.
  split; [|split].
  - destruct (with_config_observation G states Hlen) as [_ Hw].
    split; [done|]. intros v. rewrite Hn. apply Hw.
  - by exists p.
  - unfold prf_term, config_probability, gammaln_succ. cbn [fst snd]. rewrite Hp.
    cbn [fst]. ring.
Qed.

Lemma prf_loop_spec `{SumProduct} (theta : R) (G : Demography)
    (items : list (list Z * nat)) :
  ∀ (acc : R) (Ga G' : Demography) (r : R),
    observation_only G Ga →
    (∀ it, it ∈ items → length it.1 = size (leaves G)) →
    m_foldl (prf_step theta (merge_sort le (elements (leaves G)))) acc items Ga
    = (Ok r, G') →
    observation_only G G'
    ∧ (∀ it, it ∈ items →
         ∃ p, (sp_p (uncached (with_config G it.1))).1 = Ok p ∧ 0 < p * theta / 2)
    ∧ r = acc + sum_listR (prf_term theta G <$> items).
Proof.
  induction items as [|it items IH]; intros acc Ga G' r Ho Hlen H0.
  - injection H0 as <- <-. split; [done|]. split.
    + intros it Hin. by apply elem_of_nil in Hin.
    + simpl. lra.
  - simpl in H0. m_inv H0 acc1 G1 H1.
    apply (prf_step_spec theta G) in H1 as (Ho1 & Hp1 & ->);
      [|done|apply Hlen; left].
    apply IH in H0 as (Ho' & Hp' & ->); [|done|intros; apply Hlen; by right].
    split; [done|]. split.
    + intros it' Hin. apply elem_of_cons in Hin as [->|Hin]; [done | by apply Hp'].
    + rewrite fmap_cons.
      change (sum_listR (prf_term theta G it :: (prf_term theta G <$> items)))
        with (prf_term theta G it + sum_listR (prf_term theta G <$> items)).
      lra.
Qed.

Lemma totalSfsSum_spec `{SumProduct} (G G1 : Demography) (c : R) :
  totalSfsSum G = (Ok c, G1) →
  observation_only G G1
  ∧ match totalSfsSum_cache G with
    | Some c' => c = c'
    | None => ∃ G0, normalizing_constant G = (Ok c, G0)
    end.
Proof.
  unfold totalSfsSum. destruct (totalSfsSum_cache G) as [c'|].
  - intros [= <- <-]. split; [apply observation_only_refl | done].
  - destruct (normalizing_constant G) as [[c0| |] G0] eqn:Hnc; try done.
    intros [= <- <-]. split; [|by exists G0].
    apply normalizing_constant_inv in Hnc as [Hnc _].
    apply normalizing_constant_value_nodes in Hnc as (_ & [Ht Hn] & _).
    split; [by destruct Ht as (?&?&?) | done].
Qed.

Lemma log_likelihood_prf_value_spec `{SumProduct} (theta : R)
    (sfs : gmap (list Z) nat) (G G' : Demography) (r : R) :
  (∀ states w, sfs !! states = Some w → length states = size (leaves G)) →
  log_likelihood_prf_value theta sfs G = (Ok r, G') →
  ∃ c G1, totalSfsSum G = (Ok c, G1)
          ∧ (∀ states w, sfs !! states = Some w →
               ∃ p, (sp_p (uncached (with_config G states))).1 = Ok p
                    ∧ 0 < p * theta / 2)
          ∧ r = prf_formula theta sfs c G.
Proof.
  intros Hlen H0. unfold log_likelihood_prf_value in H0.
  m_inv H0 c G1 H1. exists c, G1. split; [done|].
  apply totalSfsSum_spec in H1 as [Ho _].
  m_inv H0 lvs G1' H2. apply m_read_inv in H2 as [[= <-] ->].
  rewrite (observation_only_leaves G G1) in H0 by done.
  pose proof (merge_sort_Permutation item_le (map_to_list sfs)) as Hperm.
  apply (prf_loop_spec theta G) in H0 as (_ & Hp & ->); [|done|].
  2:{ intros [states w] Hin. rewrite Hperm in Hin.
      apply elem_of_map_to_list in Hin. by eapply Hlen. }
  split.
  - intros states w Hsw. apply (Hp (states, w)). rewrite Hperm.
    by apply elem_of_map_to_list.
  - unfold prf_formula. f_equal. apply sum_listR_Permutation. by rewrite Hperm.
Qed.

(** C2.  A value returned by [log_likelihood_prf] is
    -c theta / 2 + sum over the configurations of
    weight log(p(config) theta / 2) - log(weight!), where c is the value of
    [totalSfsSum] (the cached one, or the normalizing constant computed now)
    and p(config) is the answer of the engine on the graph whose leaves hold
    that configuration; and it is strictly negative: reaching the last line
    with [ret >= 0] fails the assertion. *)
Theorem log_likelihood_prf_formula `{SumProduct} (theta : R)
    (sfs : gmap (list Z) nat) (G : Demography) :
  (∀ states w, sfs !! states = Some w → length states = size (leaves G)) →
  (∀ r G', log_likelihood_prf theta sfs G = (Ok r, G') →
     r < 0
     ∧ ∃ c G1, totalSfsSum G = (Ok c, G1)
               ∧ match totalSfsSum_cache G with
                 | Some c' => c = c'
                 | None => ∃ G0, normalizing_constant G = (Ok c, G0)
                 end
               ∧ (∀ states w, sfs !! states = Some w →
                    ∃ p, (sp_p (uncached (with_config G states))).1 = Ok p
                         ∧ 0 < p * theta / 2)
               ∧ r = prf_formula theta sfs c G)
  ∧ (∀ ret G', log_likelihood_prf_value theta sfs G = (Ok ret, G') →
       (0 <= ret → log_likelihood_prf theta sfs G = (Raise AssertionError, G'))
       ∧ (ret < 0 → log_likelihood_prf theta sfs G = (Ok ret, G'))).
Proof.
  intros Hlen. split.
  - intros r G' H0. unfold log_likelihood_prf in H0. m_inv H0 ret G1 H1.
    unfold m_assert_return in H0. destruct (Rlt_dec ret 0) as [Hneg|]; [|done].
    injection H0 as <- <-. split; [done|].
    destruct (log_likelihood_prf_value_spec theta sfs G G1 ret Hlen H1)
      as (c & G2 & Ht & Hp & Hr).
    exists c, G2. split; [done|]. split; [|done].
    by apply totalSfsSum_spec in Ht as [_ ?].
  - intros ret G' Hv. unfold log_likelihood_prf, m_bind. rewrite Hv.
    unfold m_assert_return. destruct (Rlt_dec ret 0); split; intros; try done; lra.
Qed.

(** A run of the likelihood on the sample tree. *)
Lemma m_bind_run {A B} (m : M A) (f : A → M B) (G G1 : Demography) (a : A) :
  m G = (Ok a, G1) → m_bind m f G = f a G1.
Proof. unfold m_bind. by intros ->. Qed.

Ltac run_step := etrans; [apply m_bind_run; vm_compute; reflexivity | cbv beta].

Lemma sample_totalSfsSum :
  @totalSfsSum sample_engine sample_tree_graph
  = (Ok (5 / 2), set_totalSfsSum sample_all_derived_graph (Some (5 / 2))).
Proof. unfold totalSfsSum. cbn [totalSfsSum_cache sample_tree_graph]. by rewrite sample_run_fresh. Qed.

Lemma sample_run_prf :
  ∃ r G', @log_likelihood_prf sample_engine 1 sample_sfs sample_tree_graph
          = (Ok r, G').
Proof.
  eexists _, _. unfold log_likelihood_prf, log_likelihood_prf_value.
  etrans; [apply m_bind_run|].
  { etrans; [apply m_bind_run; apply sample_totalSfsSum | cbv beta].
    run_step.
    replace (merge_sort item_le (map_to_list sample_sfs))
      with [([1%Z; 0%Z], 1%nat)] by (vm_compute; reflexivity).
    cbn [m_foldl]. etrans; [apply m_bind_run|reflexivity].
    unfold prf_step. run_step. run_step. run_step. run_step.
    etrans; [apply m_bind_run|reflexivity].
    unfold m_read, log.
    destruct (Rlt_dec _ _) as [_|Hn]; [reflexivity | exfalso; apply Hn; lra]. }
  unfold m_assert_return.
  destruct (Rlt_dec _ 0) as [_|Hn]; [reflexivity|].
  exfalso. apply Hn. unfold gammaln_succ. simpl fact. simpl INR. rewrite ln_1.
  assert (ln (R1 * / (R1 + R1) * 1 / 2) < 0) as Hln.
  { rewrite <- ln_1. apply ln_increasing; lra. }
  lra.
Qed.

Lemma log_likelihood_prf_formula_witness :
  ∃ r G', @log_likelihood_prf sample_engine 1 sample_sfs sample_tree_graph = (Ok r, G')
          ∧ r < 0
          ∧ ∃ c G1, @totalSfsSum sample_engine sample_tree_graph = (Ok c, G1)
                    ∧ match totalSfsSum_cache sample_tree_graph with
                      | Some c' => c = c'
                      | None => ∃ G0, @normalizing_constant sample_engine
                                        sample_tree_graph = (Ok c, G0)
                      end
                    ∧ (∀ states w, sample_sfs !! states = Some w →
                         ∃ p, (@sp_p sample_engine
                                 (uncached (with_config sample_tree_graph states))).1
                              = Ok p
                              ∧ 0 < p * 1 / 2)
                    ∧ r = @prf_formula sample_engine 1 sample_sfs c sample_tree_graph.
Proof.
  destruct sample_run_prf as (r & G' & Hrun). exists r, G'. split; [done|].
  apply (proj1 (@log_likelihood_prf_formula sample_engine 1 sample_sfs
                  sample_tree_graph
                  ltac:(unfold sample_sfs;
                        intros states w [<- _]%lookup_singleton_Some;
                        vm_compute; reflexivity))
           r G' Hrun).
Defined.

(** ** demography.py: the event tree *)

Section event_tree.
Local Open Scope nat_scope.

Lemma tree_init_currEvents (L : gset nat) (p : nat) (ev : event) :
  currEvents (tree_init L) !! p = Some ev ↔ p ∈ L ∧ ev = LeafEvent p.
Proof.
  unfold tree_init. cbn [currEvents]. rewrite lookup_set_to_map.
  - split.
    + intros (y & Hy & [= -> <-]). done.
    + intros [Hp ->]. by exists p.
  - intros y y' _ _ Hyy. done.
Qed.

Lemma tree_init_eventDict (L : gset nat) (ev : event) (d : event_data) :
  eventDict (tree_init L) !! ev = Some d
  ↔ ∃ l, l ∈ L ∧ ev = LeafEvent l ∧ d = leaf_event_data l.
Proof.
  unfold tree_init. cbn [eventDict]. rewrite lookup_set_to_map.
  - split.
    + intros (y & Hy & [= <- <-]). by exists y.
    + intros (l & Hl & -> & ->). by exists l.
  - intros y y' _ _ [= Hyy]. done.
Qed.

Lemma tree_init_inv (L : gset nat) : tree_inv L L L (tree_init L).
Proof.
  split.
  - apply set_eq. intros p. rewrite elem_of_dom. split.
    + intros [ev Hev]. by apply tree_init_currEvents in Hev as [? _].
    + intros Hp. exists (LeafEvent p). by apply tree_init_currEvents.
  - done.
  - intros p ev [Hp ->]%tree_init_currEvents. exists (leaf_event_data p). split.
    + apply tree_init_eventDict. by exists p.
    + simpl. left.
  - intros q ev d p [Hq ->]%tree_init_currEvents
      (l & Hl & [= <-] & ->)%tree_init_eventDict Hp.
    simpl in Hp. apply list_elem_of_singleton in Hp as ->.
    by apply tree_init_currEvents.
  - intros ev d (l & Hl & -> & ->)%tree_init_eventDict. simpl.
    split; [apply NoDup_singleton|]. split; [done|].
    split; [apply NoDup_singleton | done].
  - intros e d (l & _ & [=] & _)%tree_init_eventDict.
  - intros x y Hin. by apply elem_of_nil in Hin.
  - intros p ev x _ Hin. by apply elem_of_nil in Hin.
  - intros ev d (l & Hl & -> & ->)%tree_init_eventDict.
    exists l, (LeafEvent l). split; [by apply tree_init_currEvents | done].
  - intros l Hl. exists (leaf_event_data l). apply tree_init_eventDict. by exists l.
Qed.

Lemma size_list_to_set_le {A} `{Countable A} (l : list A) :
  size (list_to_set l : gset A) ≤ length l.
Proof.
  induction l as [|x l IH].
  - rewrite list_to_set_nil, size_empty. done.
  - rewrite list_to_set_cons, size_union_alt, size_singleton.
    assert (size (list_to_set l ∖ {[x]} : gset A) ≤ size (list_to_set l : gset A))
      by (apply subseteq_size, subseteq_difference_l; reflexivity).
    simpl. lia.
Qed.

Lemma elem_of_concat {A} (x : A) (ls : list (list A)) :
  x ∈ concat ls ↔ ∃ l, x ∈ l ∧ l ∈ ls.
Proof.
  induction ls as [|l ls IH]; simpl.
  - split; [by intros ?%elem_of_nil | by intros (l & _ & ?%elem_of_nil)].
  - rewrite elem_of_app, IH. split.
    + intros [Hx|(l' & Hx & Hl')]; [exists l; split; [done | left]|].
      exists l'. split; [done | by right].
    + intros (l' & Hx & [->|Hl']%elem_of_cons); [by left|]. right. by exists l'.
Qed.

Lemma tree_step_Ok (st : tree_state) (e : list (nat * nat)) :
  let P : gset nat := list_to_set e.*1 in
  let K : gset nat := list_to_set e.*2 in
  length e = 2 → size P + size K = 3 →
  K ⊆ dom (currEvents st) →
  (∀ c ev, currEvents st !! c = Some ev → is_Some (eventDict st !! ev)) →
  ∃ (CE : gset event) (S : gset nat),
    (∀ ev, ev ∈ CE ↔ ∃ c, c ∈ K ∧ currEvents st !! c = Some ev)
    ∧ (∀ p, p ∈ S ↔ (p ∈ P ∨ ((p ∉ K) ∧ ∃ ce d, ce ∈ CE ∧ eventDict st !! ce = Some d
                                               ∧ p ∈ ed_subpops d)))
    ∧ tree_step st e = Ok (stepped st e CE S).
Proof.
  intros P K Hlen Hsize HK HD.
  set (own := λ c, default (LeafEvent 0) (currEvents st !! c)).
  set (CE := list_to_set (own <$> elements K) : gset event).
  assert (∀ ev, ev ∈ CE ↔ ∃ c, c ∈ K ∧ currEvents st !! c = Some ev) as HCE.
  { intros ev. unfold CE. rewrite elem_of_list_to_set, list_elem_of_fmap. split.
    - intros (c & -> & Hc%elem_of_elements). exists c. split; [done|].
      unfold own. apply HK, elem_of_dom in Hc as [ev' ->]. done.
    - intros (c & Hc & Hev). exists c. split; [|by apply elem_of_elements].
      unfold own. by rewrite Hev. }
  set (sub := λ ce, ed_subpops
                      (default (leaf_event_data 0) (eventDict st !! ce))).
  set (S := (list_to_set (concat (sub <$> elements CE)) ∖ K) ∪ P : gset nat).
  exists CE, S. split; [done|]. split.
  { intros p. unfold S. rewrite elem_of_union, elem_of_difference, elem_of_list_to_set.
    rewrite elem_of_concat. split.
    - intros [[(l & Hp & Hl) HpK]|Hp]; [|by left]. right. split; [done|].
      apply list_elem_of_fmap in Hl as (ce & -> & Hce%elem_of_elements).
      destruct (proj1 (HCE ce) Hce) as (c & _ & Hc).
      destruct (HD c ce Hc) as [d Hd]. exists ce, d. split; [done|]. split; [done|].
      unfold sub in Hp. by rewrite Hd in Hp.
    - intros [Hp|(HpK & ce & d & Hce & Hd & Hp)]; [by right|]. left. split; [|done].
      exists (ed_subpops d). split; [done|]. apply list_elem_of_fmap. exists ce.
      split; [|by apply elem_of_elements]. unfold sub. by rewrite Hd. }
  unfold tree_step. destruct e as [|e1 [|e2 [|]]]; try done.
  fold P K.
  rewrite (result_mapM_Ok _ own).
  2:{ intros c Hc%elem_of_elements. unfold own, getitem.
      apply HK, elem_of_dom in Hc as [ev ->]. done. }
  cbn [rbind]. fold CE.
  assert (size CE = 1 ∨ size CE = 2) as HsCE.
  { assert (size CE ≤ 2).
    { unfold CE. etrans; [apply size_list_to_set_le|].
      rewrite length_fmap. change (length (elements K)) with (size K).
      unfold K. etrans; [apply size_list_to_set_le|]. done. }
    assert (size CE ≠ 0); [|lia].
    apply size_non_empty_iff. intros Hemp.
    assert (e1.2 ∈ K) as Hk by (unfold K; apply elem_of_list_to_set; left).
    pose proof (HK _ Hk) as [ev Hev]%elem_of_dom.
    assert (ev ∈ CE) as Hin by (apply HCE; eauto).
    apply Hemp in Hin. by apply elem_of_empty in Hin. }
  rewrite bool_decide_eq_true_2 by done.
  rewrite (result_mapM_Ok _ sub).
  2:{ intros ce Hce%elem_of_elements. unfold sub, getitem.
      destruct (proj1 (HCE ce) Hce) as (c & _ & Hc).
      destruct (HD c ce Hc) as [d ->]. done. }
  done.
Qed.

Lemma stepped_currEvents (st : tree_state) (e : list (nat * nat))
    (CE : gset event) (S : gset nat) (p : nat) :
  currEvents (stepped st e CE S) !! p
  = if decide (p ∈ (list_to_set e.*2 : gset nat)) then None
    else if decide (p ∈ S) then Some (RawEvent e)
    else currEvents st !! p.
Proof.
  unfold stepped. cbn [currEvents]. apply option_eq. intros ev.
  rewrite map_lookup_filter_Some, lookup_union_Some_raw.
  rewrite lookup_gset_to_gmap_Some, lookup_gset_to_gmap_None. cbn [fst].
  repeat case_decide; naive_solver.
Qed.

Lemma stepped_eventDict (st : tree_state) (e : list (nat * nat))
    (CE : gset event) (S : gset nat) (ev : event) :
  eventDict st !! RawEvent e = None →
  eventDict (stepped st e CE S) !! ev
  = if decide (ev = RawEvent e)
    then Some {| ed_subpops := elements S;
                 ed_parent_pops := elements (list_to_set e.*1 : gset nat);
                 ed_child_pops := filter (λ kv, kv.1 ∈ (list_to_set e.*2 : gset nat))
                                         (currEvents st) |}
    else eventDict st !! ev.
Proof.
  intros _. unfold stepped. cbn [eventDict]. case_decide as Hev.
  - subst. by rewrite lookup_insert_eq.
  - by rewrite lookup_insert_ne.
Qed.

Lemma stepped_edges (st : tree_state) (e : list (nat * nat))
    (CE : gset event) (S : gset nat) (x y : event) :
  (x, y) ∈ eventEdgeList (stepped st e CE S)
  ↔ (x, y) ∈ eventEdgeList st ∨ (x = RawEvent e ∧ y ∈ CE).
Proof.
  unfold stepped. cbn [eventEdgeList]. rewrite elem_of_app, list_elem_of_fmap.
  split.
  - intros [?|(c & [= -> ->] & Hc%elem_of_elements)]; [by left | by right].
  - intros [?|[-> Hy]]; [by left|]. right. exists y. by rewrite elem_of_elements.
Qed.

(** One event of a well-formed list keeps the invariant. *)
Lemma tree_step_inv (sample live seen : gset nat) (st : tree_state)
    (e : list (nat * nat)) :
  let P : gset nat := list_to_set e.*1 in
  let K : gset nat := list_to_set e.*2 in
  tree_inv sample live seen st →
  length e = 2 → size P + size K = 3 → K ⊆ live → P ## seen →
  ∃ st', tree_step st e = Ok st'
         ∧ tree_inv sample ((live ∖ K) ∪ P) (seen ∪ P) st'.
Proof.
  intros P K Hinv Hlen Hsize HK HP.
  destruct Hinv as [Hdom Hseen Howner Howned Hdata Hraw Hedges Htop Hreach Hleaves].
  destruct (tree_step_Ok st e) as (CE & S & HCE & HS & Hstep); [done | done | | |].
  { by rewrite Hdom. }
  { intros c ev Hc. destruct (Howner c ev Hc) as (d & -> & _). done. }
  fold P K in HCE, HS. exists (stepped st e CE S). split; [done|].
  set (ev0 := RawEvent e).
  (* facts about the event *)
  assert (∃ p0, p0 ∈ P) as [p0 Hp0].
  { destruct e as [|e1 e]; [done|]. exists e1.1. unfold P.
    apply elem_of_list_to_set. left. }
  assert (eventDict st !! ev0 = None) as Hnew.
  { destruct (eventDict st !! ev0) as [d|] eqn:Hd; [|done].
    destruct (Hraw e d Hd) as (p & Hp & Hps).
    destruct (HP p); [by apply elem_of_list_to_set | done]. }
  assert (∀ p, p ∈ P → p ∉ dom (currEvents st)) as HPlive.
  { intros p Hp Hd. rewrite Hdom in Hd. apply (HP p); [done | by apply Hseen]. }
  assert (∀ p, p ∈ P → p ∉ K) as HPK.
  { intros p Hp HpK. apply (HPlive p Hp). rewrite Hdom. by apply HK. }
  assert (∀ ce, ce ∈ CE → ce ≠ ev0) as HCEne.
  { intros ce (c & _ & Hc)%HCE ->. destruct (Howner c ev0 Hc) as (d & Hd & _).
    congruence. }
  (* a population of the new event that was alive belonged to a child event *)
  assert (∀ p, p ∈ S → p ∉ P → ∃ ce, ce ∈ CE ∧ currEvents st !! p = Some ce) as HSold.
  { intros p [?|(_ & ce & d & Hce & Hd & Hp)]%HS HnP; [done|]. exists ce. split; [done|].
    destruct (proj1 (HCE ce) Hce) as (c & _ & Hc). by eapply Howned. }
  (* a population owned by a child event is consumed or taken over *)
  assert (∀ p ce, ce ∈ CE → currEvents st !! p = Some ce → p ∈ K ∨ p ∈ S) as HCEown.
  { intros p ce Hce Hp. destruct (decide (p ∈ K)); [by left|]. right.
    apply HS. right. split; [done|]. destruct (Howner p ce Hp) as (d & Hd & Hpd).
    by exists ce, d. }
  assert (∀ p ev, currEvents (stepped st e CE S) !! p = Some ev →
            (ev = ev0 ∧ p ∈ S ∧ (p ∉ K))
            ∨ ((ev ≠ ev0) ∧ (ev ∉ CE) ∧ (p ∉ S) ∧ (p ∉ K)
               ∧ currEvents st !! p = Some ev))
    as Hcases.
  { intros p ev Hp. rewrite stepped_currEvents in Hp. fold K in Hp.
    destruct (decide (p ∈ K)); [done|]. destruct (decide (p ∈ S)).
    - left. by injection Hp as <-.
    - right. destruct (Howner p ev Hp) as (d & Hd & _).
      split; [congruence|]. split; [|done].
      intros Hce. destruct (HCEown p ev Hce Hp); done. }
  split.
  - (* inv_dom *)
    apply set_eq. intros p. rewrite elem_of_dom, stepped_currEvents. fold K.
    rewrite elem_of_union, elem_of_difference, <- Hdom, elem_of_dom.
    destruct (decide (p ∈ K)) as [HpK|HpK].
    + split; [by intros [? [=]]|]. intros [[_ ?]|Hp]; [done|]. by apply HPK in Hp.
    + destruct (decide (p ∈ S)) as [HpS|HpS].
      * split; [|by eexists]. intros _. destruct (decide (p ∈ P)); [by right|].
        left. split; [|done]. destruct (HSold p HpS) as (ce & _ & ->); done.
      * split; [by left|]. intros [[? _]|Hp]; [done|]. destruct HpS. apply HS. by left.
  - (* inv_seen *)
    apply union_subseteq. split; [|apply union_subseteq_r].
    etrans; [apply subseteq_difference_l; reflexivity|].
    etrans; [exact Hseen | apply union_subseteq_l].
  - (* inv_owner *)
    intros p ev Hp. rewrite stepped_eventDict by done. fold ev0.
    destruct (Hcases p ev Hp) as [(-> & HpS & _)|(Hne & _ & _ & _ & Hold)].
    + rewrite decide_True by done. eexists; split; [done|]. cbn [ed_subpops].
      by apply elem_of_elements.
    + rewrite decide_False by done. by apply Howner.
  - (* inv_owned *)
    intros q ev d p Hq Hd Hp. rewrite stepped_eventDict in Hd by done. fold ev0 in Hd.
    rewrite stepped_currEvents. fold K.
    destruct (Hcases q ev Hq) as [(-> & HqS & _)|(Hne & HnCE & HqS & HqK & Hold)].
    + rewrite decide_True in Hd by done. injection Hd as <-. cbn [ed_subpops] in Hp.
      apply elem_of_elements in Hp.
      assert (p ∉ K) as HpK.
      { apply HS in Hp as [Hp|[? _]]; [by apply HPK | done]. }
      rewrite decide_False by done. by rewrite decide_True.
    + rewrite decide_False in Hd by done.
      pose proof (Howned q ev d p Hold Hd Hp) as Hpev.
      assert (p ∉ K) as HpK.
      { intros HpK. apply HnCE. apply HCE. by exists p. }
      assert (p ∉ S) as HpS.
      { intros HpS. destruct (decide (p ∈ P)) as [HpP|HpP].
        - apply (HPlive p HpP). apply elem_of_dom. by eexists.
        - destruct (HSold p HpS HpP) as (ce & Hce & Hpce). congruence. }
      by rewrite !decide_False.
  - (* inv_data *)
    intros ev d Hd. rewrite stepped_eventDict in Hd by done. fold ev0 in Hd.
    destruct (decide (ev = ev0)); [|by eapply Hdata].
    injection Hd as <-. cbn [ed_subpops ed_parent_pops]. fold P.
    split; [apply NoDup_elements|]. split.
    { intros Hnil. assert (p0 ∈ elements P) as Hin by (by apply elem_of_elements).
      rewrite Hnil in Hin. by apply elem_of_nil in Hin. }
    split; [apply NoDup_elements|].
    intros p Hp%elem_of_elements. apply elem_of_elements, HS. by left.
  - (* inv_raw *)
    intros e' d Hd. rewrite stepped_eventDict in Hd by done. fold ev0 in Hd.
    destruct (decide (RawEvent e' = ev0)) as [Heq|Hne].
    + injection Heq as ->. exists p0. split.
      * by apply elem_of_list_to_set in Hp0.
      * apply elem_of_union. by right.
    + destruct (Hraw e' d Hd) as (p & Hp & Hps). exists p. split; [done|].
      apply elem_of_union. by left.
  - (* inv_edges *)
    intros x y [Hxy|[-> Hy]]%stepped_edges; rewrite stepped_eventDict by done;
      fold ev0; case_decide; try done.
    + by eapply Hedges.
    + destruct (proj1 (HCE y) Hy) as (c & _ & Hc).
      destruct (Howner c y Hc) as (d & -> & _). done.
  - (* inv_top *)
    intros p ev x Hp [Hxy|[-> Hy]]%stepped_edges.
    + destruct (Hcases p ev Hp) as [(-> & _ & _)|(_ & _ & _ & _ & Hold)].
      * destruct (Hedges x ev0 Hxy) as [d Hd]. congruence.
      * by eapply Htop.
    + destruct (Hcases p ev Hp) as [(-> & _ & _)|(_ & HnCE & _)]; [|done].
      by apply (HCEne ev0 Hy).
  - (* inv_reach *)
    assert (currEvents (stepped st e CE S) !! p0 = Some ev0) as Hp0live.
    { rewrite stepped_currEvents. fold K. rewrite decide_False by (by apply HPK).
      rewrite decide_True; [done|]. apply HS. by left. }
    intros ev d Hd. rewrite stepped_eventDict in Hd by done. fold ev0 in Hd.
    destruct (decide (ev = ev0)) as [->|Hne]; [by exists p0, ev0|].
    destruct (Hreach ev d Hd) as (p & top & Hp & Hpath).
    assert (rtc (λ a b, (a, b) ∈ eventEdgeList (stepped st e CE S)) top ev) as Hpath'.
    { eapply rtc_subrel; [|exact Hpath]. intros a b Hab. apply stepped_edges. by left. }
    destruct (decide (top ∈ CE)) as [Htop'|Htop'].
    + exists p0, ev0. split; [done|]. eapply rtc_l; [|exact Hpath'].
      apply stepped_edges. by right.
    + exists p, top. split; [|done]. rewrite stepped_currEvents. fold K.
      assert (p ∉ K) as HpK.
      { intros HpK. apply Htop'. apply HCE. by exists p. }
      assert (p ∉ S) as HpS.
      { intros HpS. destruct (decide (p ∈ P)) as [HpP|HpP].
        - apply (HPlive p HpP). apply elem_of_dom. by eexists.
        - destruct (HSold p HpS HpP) as (ce & Hce & Hpce). congruence. }
      by rewrite !decide_False.
  - (* inv_leaves *)
    intros l Hl. rewrite stepped_eventDict by done. fold ev0.
    rewrite decide_False by done. by apply Hleaves.
Qed.

Lemma tree_loop_wf (sample : gset nat) (events : list (list (nat * nat))) :
  ∀ (live seen : gset nat) (st : tree_state),
    tree_inv sample live seen st → wf_events live seen events = true →
    ∃ st' live' seen', tree_loop st events = Ok st'
                       ∧ tree_inv sample live' seen' st' ∧ size live' = 1.
Proof.
  induction events as [|e events IH]; intros live seen st Hinv Hwf.
  - simpl in Hwf. apply bool_decide_eq_true in Hwf. by exists st, live, seen.
  - cbn [wf_events] in Hwf. apply andb_true_iff in Hwf as [Hstep Hrest].
    apply bool_decide_eq_true in Hstep as (Hlen & Hsize & HK & HP).
    destruct (tree_step_inv sample live seen st e Hinv Hlen Hsize HK HP)
      as (st1 & Hst1 & Hinv1).
    destruct (IH _ _ st1 Hinv1 Hrest) as (st' & live' & seen' & Hloop & Hinv' & Hone).
    exists st', live', seen'. cbn [tree_loop]. rewrite Hst1. done.
Qed.

Lemma tree_loop_app (st : tree_state) (pre post : list (list (nat * nat))) :
  tree_loop st (pre ++ post) = (st' ←r tree_loop st pre; tree_loop st' post).
Proof.
  revert st. induction pre as [|e pre IH]; intros st; [done|].
  cbn [app tree_loop]. destruct (tree_step st e) as [st1| |]; [apply IH | done..].
Qed.

(** An event that has not three population roles is refused. *)
Lemma tree_step_roles (st : tree_state) (e : list (nat * nat)) :
  size (list_to_set e.*1 : gset nat) + size (list_to_set e.*2 : gset nat) ≠ 3 →
  (∀ st', tree_step st e ≠ Ok st')
  ∧ (e ≠ [] → list_to_set e.*2 ⊆ dom (currEvents st) →
     tree_step st e = Raise AssertionError).
Proof.
  intros Hsize.
  assert (e ≠ [] →
          ∀ evs, result_mapM (getitem (currEvents st))
                   (elements (list_to_set e.*2 : gset nat)) = Ok evs →
                 tree_step st e = Raise AssertionError) as Hassert.
  { intros He evs Hevs. unfold tree_step. destruct e as [|e1 e]; [done|].
    rewrite Hevs. cbn [rbind]. rewrite bool_decide_eq_false_2; [done|].
    intros (_ & ? & _). done. }
  split.
  - intros st' Hst'. destruct e as [|e1 e]; [done|].
    destruct (result_mapM (getitem (currEvents st))
                (elements (list_to_set (e1 :: e).*2 : gset nat))) as [evs| |] eqn:Hevs.
    + rewrite (Hassert ltac:(done) evs eq_refl) in Hst'. done.
    + unfold tree_step in Hst'. rewrite Hevs in Hst'. done.
    + unfold tree_step in Hst'. rewrite Hevs in Hst'. done.
  - intros He HK.
    destruct (result_mapM_is_Ok (getitem (currEvents st))
                (elements (list_to_set e.*2 : gset nat))) as (evs & Hevs & _).
    { intros c Hc%elem_of_elements. apply HK, elem_of_dom in Hc as [ev Hev].
      exists ev. unfold getitem. by rewrite Hev. }
    by eapply Hassert.
Qed.

Lemma NoDup_all_eq {A} (l : list A) (r : A) :
  NoDup l → (∀ x, x ∈ l → x = r) → r ∈ l → l = [r].
Proof.
  intros Hnd Hall Hr. destruct l as [|x l]; [by apply elem_of_nil in Hr|].
  rewrite (Hall x) by left. f_equal. destruct l as [|y l]; [done|].
  apply NoDup_cons in Hnd as [Hx _]. destruct Hx.
  rewrite (Hall x), (Hall y); [left | right; left | left].
Qed.

(** C6.  On a well-formed event list [eventTree] returns a tree whose root
    event has a single population as its [subpops] and [parent_pops]; the
    root is no event's child, every event of the tree (the event of every
    leaf among them) is reached from the root along the edges, and the root
    is the only event that is no event's child.  The construction fails by
    assertion when the loop ends with a number of live populations other
    than one; an event whose parent and child populations are not three in
    total never yields a tree, and fails by assertion once its child
    populations are looked up. *)
Theorem eventTree_single_root (G : Demography) :
  (well_formed_events G = true →
   ∃ T r d, eventTree G = Ok T
            ∧ et_node T !! et_root T = Some d
            ∧ ed_subpops d = [r] ∧ ed_parent_pops d = [r]
            ∧ (∀ x, ¬ tree_edge T x (et_root T))
            ∧ (∀ ev, is_Some (et_node T !! ev) → rtc (tree_edge T) (et_root T) ev)
            ∧ (∀ ev, is_Some (et_node T !! ev) → (∀ x, ¬ tree_edge T x ev) →
                     ev = et_root T)
            ∧ (∀ l, l ∈ leaves G → is_Some (et_node T !! LeafEvent l)))
  ∧ (∀ st, tree_loop (tree_init (leaves G)) (graph_events G) = Ok st →
           size (currEvents st) ≠ 1 → eventTree G = Raise AssertionError)
  ∧ (∀ pre e post st,
       graph_events G = pre ++ e :: post →
       tree_loop (tree_init (leaves G)) pre = Ok st →
       size (list_to_set e.*1 : gset nat) + size (list_to_set e.*2 : gset nat) ≠ 3 →
       (∀ T, eventTree G ≠ Ok T)
       ∧ (e ≠ [] → list_to_set e.*2 ⊆ dom (currEvents st) →
          eventTree G = Raise AssertionError)).
Proof.
  split; [|split].
  - intros Hwf. unfold well_formed_events in Hwf.
    destruct (tree_loop_wf (leaves G) (graph_events G) _ _ _
                (tree_init_inv (leaves G)) Hwf)
      as (st & live & seen & Hloop & Hinv & Hone).
    destruct Hinv as [Hdom Hseen Howner Howned Hdata Hraw Hedges Htop Hreach Hleaves].
    unfold eventTree. rewrite Hloop. cbn [rbind].
    assert (length (map_to_list (currEvents st)) = 1) as Hlen.
    { by rewrite length_map_to_list, <- size_dom, Hdom. }
    destruct (map_to_list (currEvents st)) as [|[r top] [|]] eqn:Hlist; try done.
    assert (currEvents st !! r = Some top) as Hr.
    { apply elem_of_map_to_list. rewrite Hlist. left. }
    assert (∀ p ev, currEvents st !! p = Some ev → p = r ∧ ev = top) as Honly.
    { intros p ev Hp%elem_of_map_to_list. rewrite Hlist in Hp.
      by apply list_elem_of_singleton in Hp as [= -> ->]. }
    destruct (Howner r top Hr) as (d & Hd & Hrd).
    destruct (Hdata top d Hd) as (Hnd & Hne & Hndp & Hsub).
    assert (ed_subpops d = [r]) as Hsubpops.
    { apply NoDup_all_eq; [done| |done].
      intros p Hp. by destruct (Honly p top (Howned r top d p Hr Hd Hp)). }
    cbn [fmap list_fmap snd]. eexists _, r, d. split; [done|].
    cbn [et_root et_node et_edges]. unfold tree_edge. cbn [et_edges].
    split; [done|]. split; [done|]. split.
    { destruct (ed_parent_pops d) as [|p ps] eqn:Hpp; [done|].
      apply NoDup_all_eq; [done| |].
      - intros x Hx. apply Hsub in Hx. rewrite Hsubpops in Hx.
        by apply list_elem_of_singleton in Hx.
      - assert (p ∈ [r]) as Hp by (rewrite <- Hsubpops; apply Hsub; left).
        apply list_elem_of_singleton in Hp as ->. left. }
    assert (∀ ev, is_Some (eventDict st !! ev) →
                  rtc (λ a b, (a, b) ∈ eventEdgeList st) top ev) as Hreach'.
    { intros ev [d' Hd']. destruct (Hreach ev d' Hd') as (p & top' & Hp & Hpath).
      by destruct (Honly p top' Hp) as [_ <-]. }
    split; [intros x; by apply (Htop r top x)|]. split; [done|]. split; [|done].
    intros ev Hev Hnone. destruct (rtc_inv_r _ _ (Hreach' ev Hev)) as [->|(y & _ & Hy)];
      [done|]. by destruct (Hnone y).
  - intros st Hloop Hsize. unfold eventTree. rewrite Hloop. cbn [rbind].
    assert (length (map_to_list (currEvents st)).*2 ≠ 1) as Hlen.
    { by rewrite length_fmap, length_map_to_list. }
    by destruct ((map_to_list (currEvents st)).*2) as [|? [|]].
  - intros pre e post st Hev Hpre Hsize.
    destruct (tree_step_roles st e Hsize) as [Hnot Hassert].
    unfold eventTree. rewrite Hev, tree_loop_app, Hpre. cbn [rbind tree_loop].
    split.
    + intros T HT. destruct (tree_step st e) as [st'| |] eqn:Hstep; try done.
      by destruct (Hnot st').
    + intros He HK. by rewrite (Hassert He HK).
Qed.

Lemma eventTree_single_root_witness :
  (∃ T r d, eventTree sample_tree_graph = Ok T
            ∧ et_node T !! et_root T = Some d
            ∧ ed_subpops d = [r] ∧ ed_parent_pops d = [r]
            ∧ (∀ x, ¬ tree_edge T x (et_root T))
            ∧ (∀ ev, is_Some (et_node T !! ev) → rtc (tree_edge T) (et_root T) ev)
            ∧ (∀ ev, is_Some (et_node T !! ev) → (∀ x, ¬ tree_edge T x ev) →
                     ev = et_root T)
            ∧ (∀ l, l ∈ leaves sample_tree_graph →
                    is_Some (et_node T !! LeafEvent l)))
  ∧ eventTree sample_unmerged_graph = Raise AssertionError
  ∧ (∀ T, eventTree sample_two_role_graph ≠ Ok T)
  ∧ eventTree sample_two_role_graph = Raise AssertionError.
Proof.
  split; [|split].
  - apply (proj1 (eventTree_single_root sample_tree_graph)). vm_compute. reflexivity.
  - apply (proj1 (proj2 (eventTree_single_root sample_unmerged_graph))
             (tree_init (leaves sample_unmerged_graph))); [reflexivity|].
    vm_compute. intros Heq. discriminate Heq.
  - assert (size (list_to_set [(0, 1); (0, 1)].*1 : gset nat)
            + size (list_to_set [(0, 1); (0, 1)].*2 : gset nat) ≠ 3) as Hsize.
    { vm_compute. intros Heq. discriminate Heq. }
    destruct (proj2 (proj2 (eventTree_single_root sample_two_role_graph))
                [] [(0, 1); (0, 1)] []
                (tree_init (leaves sample_two_role_graph)) eq_refl eq_refl Hsize)
      as [Hnot Hassert].
    split; [exact Hnot|]. apply Hassert; [done|].
    apply (bool_decide_unpack _). vm_compute. exact I.
Defined.

End event_tree.

(** ** moran_model.py: the rate matrix and the semigroup *)

Lemma big_sum_single (f : nat → R) (k m : nat) :
  big_sum (λ j, if (j =? k)%nat then f j else 0) m
  = if (k <? m)%nat then f k else 0.
Proof.
  induction m as [|m IH]; [done|]. simpl. rewrite IH.
  destruct (Nat.eqb_spec m k) as [->|Hne].
  - rewrite Nat.ltb_irrefl. destruct (Nat.ltb_spec k (S k)); [lra | lia].
  - destruct (Nat.ltb_spec k m), (Nat.ltb_spec k (S m)); try lia; lra.
Qed.

Lemma rate_diag_ends (n : nat) : rate_diag n 0 = 0 ∧ rate_diag n n = 0.
Proof. unfold rate_diag. simpl. split; lra. Qed.

Lemma rate_diag_nonneg (n r : nat) : (r ≤ n)%nat → 0 <= rate_diag n r.
Proof.
  intros Hr. unfold rate_diag. apply le_INR in Hr.
  pose proof (pos_INR r). nra.
Qed.

(** [rate_matrix(n)] is the generator of a Markov chain on 0..n whose two
    end states are absorbing: every row sums to zero, the entries off the
    diagonal are non-negative, the diagonal is non-positive, and the rows
    of 0 and of n vanish. *)
Theorem rate_matrix_generator (n r : nat) :
  (r ≤ n)%nat →
  big_sum (rate_matrix n r) (S n) = 0
  ∧ (∀ c, c ≠ r → 0 <= rate_matrix n r c)
  ∧ rate_matrix n r r <= 0
  ∧ (∀ c, rate_matrix n 0 c = 0 ∧ rate_matrix n n c = 0).
Proof.
  intros Hr. pose proof (rate_diag_nonneg n r Hr) as Hd.
  destruct (rate_diag_ends n) as [H0 Hn].
  split; [|split; [|split]].
  - rewrite (big_sum_ext _
       (λ c, (if (c =? r + 1)%nat then rate_diag n r else 0)
             + ((if (c =? r)%nat then -2 * rate_diag n r else 0)
                + (if (c =? r - 1)%nat
                   then (if (1 <=? r)%nat then rate_diag n r else 0) else 0)))).
    2:{ intros c _. unfold rate_matrix.
        destruct (Nat.eqb_spec c (r + 1)), (Nat.eqb_spec c r),
          (Nat.eqb_spec r (c + 1)), (Nat.eqb_spec c (r - 1)),
          (Nat.leb_spec 1 r); try lia; lra. }
    rewrite !big_sum_plus.
    rewrite (big_sum_single (λ _, rate_diag n r)),
      (big_sum_single (λ _, -2 * rate_diag n r)),
      (big_sum_single (λ _, if (1 <=? r)%nat then rate_diag n r else 0)).
    destruct (Nat.ltb_spec (r + 1) (S n)), (Nat.ltb_spec r (S n)),
      (Nat.ltb_spec (r - 1) (S n)), (Nat.leb_spec 1 r); try lia; try lra.
    + assert (r = 0%nat) as -> by lia. lra.
    + assert (r = n) as -> by lia. lra.
    + assert (r = n) as -> by lia. lra.
  - intros c Hc. unfold rate_matrix.
    destruct (c =? r + 1)%nat; [done|]. destruct (Nat.eqb_spec c r); [done|].
    destruct (r =? c + 1)%nat; [done | lra].
  - unfold rate_matrix. destruct (Nat.eqb_spec r (r + 1)); [lia|].
    rewrite Nat.eqb_refl. lra.
  - intros c. unfold rate_matrix. rewrite H0, Hn.
    split; repeat case_match; lra.
Qed.

Lemma rate_matrix_generator_witness :
  big_sum (rate_matrix 3 1) 4 = 0
  ∧ (∀ c, c ≠ 1%nat → 0 <= rate_matrix 3 1 c)
  ∧ rate_matrix 3 1 1 <= 0
  ∧ (∀ c, rate_matrix 3 0 c = 0 ∧ rate_matrix 3 3 c = 0).
Proof. apply (rate_matrix_generator 3 1). lia. Defined.

(** The entries of P diag(e^(t d)) P^-1. *)
Lemma moran_matrix_entry `{Linalg} (t : R) (n i j : nat) :
  moran_matrix t n i j
  = big_sum (λ a, (moran_eigensystem n).1.1 i a * exp (t * (moran_eigensystem n).1.2 a)
                  * (moran_eigensystem n).2 a j) (S n).
Proof.
  unfold moran_matrix. destruct (moran_eigensystem n) as [[P d] Pinv].
  cbn [fst snd]. unfold dot at 1. apply big_sum_ext. intros a Ha.
  unfold dot, diag.
  rewrite (big_sum_ext _ (λ b, if (b =? a)%nat then exp (t * d a) * Pinv b j else 0)).
  2:{ intros b _. rewrite (Nat.eqb_sym a b). destruct (b =? a)%nat; lra. }
  rewrite (big_sum_single (λ b, exp (t * d a) * Pinv b j)).
  destruct (Nat.ltb_spec a (S n)); [lra | lia].
Qed.

Lemma moran_matrix_zero `{Linalg} (n i j : nat) :
  exact_inverse n → (i < S n)%nat → (j < S n)%nat →
  moran_matrix 0 n i j = if (i =? j)%nat then 1 else 0.
Proof.
  intros Hinv Hi Hj. rewrite moran_matrix_entry.
  destruct (Hinv i j Hi Hj) as [<- _]. unfold dot. apply big_sum_ext.
  intros a _. rewrite Rmult_0_l, exp_0. lra.
Qed.


(** With an exact inverse, [moran_action(0, v, axis)] is [v]: the array
    returned has the shape of [v] and the same entries. *)
Theorem moran_action_zero `{Linalg} (v : ndarray) (axis m : nat) :
  shape v !! axis = Some m → (1 ≤ m)%nat → exact_inverse (m - 1) →
  ∃ ret, moran_action 0 v axis = Ok ret
         ∧ shape ret = shape v
         ∧ ∀ idx, length idx = length (shape v) → (nth axis idx 0 < m)%nat →
             item ret idx = item v idx.
Proof.
  intros Hm Hpos Hinv.
  destruct (moran_action_spec 0 v axis m Hm Hpos) as (ret & Hret & Hshape & Hitem).
  exists ret. split; [done|]. split; [done|]. intros idx Hlen Hidx.
  rewrite Hitem by done.
  pose proof (lookup_lt_Some _ _ _ Hm) as Hax.
  rewrite (big_sum_ext _
     (λ j, if (j =? nth axis idx 0)%nat then item v (<[axis := j]> idx) else 0)).
  2:{ intros j Hj. rewrite moran_matrix_zero by (done || lia).
      rewrite (Nat.eqb_sym _ j). destruct (j =? _)%nat; lra. }
  rewrite (big_sum_single (λ j, item v (<[axis := j]> idx))).
  destruct (Nat.ltb_spec (nth axis idx 0%nat) m); [|lia].
  rewrite list_insert_id; [done|]. rewrite nth_lookup.
  destruct (lookup_lt_is_Some_2 idx axis) as [y Hy]; [lia|]. by rewrite Hy.
Qed.


Lemma sample_linalg_exact : @exact_inverse sample_linalg 2.
Proof.
  intros i j Hi Hj.
  destruct i as [|[|[|i]]], j as [|[|[|j]]]; try lia; split; vm_compute; lra.
Qed.

Lemma moran_action_zero_witness :
  ∃ ret, @moran_action sample_linalg 0 sample_vector 0 = Ok ret
         ∧ shape ret = shape sample_vector
         ∧ ∀ idx, length idx = length (shape sample_vector) →
                  (nth 0 idx 0 < 3)%nat →
                  item ret idx = item sample_vector idx.
Proof.
  apply (@moran_action_zero sample_linalg sample_vector 0 3);
    [reflexivity | lia | apply sample_linalg_exact].
Defined.


(** ** size_history.py: the weights, the keys of [sfs] and [freq] *)

Lemma W_step (n b k : nat) :
  W n b (4 + k) =
    (w2 ←r W n b (2 + k);
     w1 ←r W n b (3 + k);
     Ok (w2 * - (1 + INR (2 + k)) * (3 + 2 * INR (2 + k)) * (INR n - INR (2 + k))
            / INR (2 + k) / (2 * INR (2 + k) - 1) / (INR n + INR (2 + k) + 1)
         + w1 * (3 + 2 * INR (2 + k)) * (INR n - 2 * INR b) / INR (2 + k)
              / (INR n + INR (2 + k) + 1))).
Proof. reflexivity. Qed.

(** Exchanging the derived count [b] with [n - b] changes the weight
    [W(n, b, j)] by the sign (-1)^j, for every j >= 2. *)
Theorem W_reflect (n b j : nat) :
  (b ≤ n)%nat → (2 ≤ j)%nat →
  ∃ w, W n b j = Ok w ∧ W n (n - b) j = Ok ((-1) ^ j * w).
Proof.
  intros Hb Hj. replace j with (2 + (j - 2))%nat by lia.
  generalize (j - 2)%nat as k. clear j Hj. intros k.
  assert (INR n - 2 * INR (n - b) = - (INR n - 2 * INR b)) as Hflip.
  { rewrite minus_INR by done. lra. }
  cut ((∃ w, W n b (2 + k) = Ok w ∧ W n (n - b) (2 + k) = Ok ((-1) ^ (2 + k) * w))
       ∧ (∃ w, W n b (3 + k) = Ok w
               ∧ W n (n - b) (3 + k) = Ok ((-1) ^ (3 + k) * w))); [tauto|].
  induction k as [|k [(w2 & IH2 & IH2') (w1 & IH1 & IH1')]].
  - split; eexists; (split; [reflexivity|]).
    + cbn [W Nat.add]. f_equal. simpl. lra.
    + cbn [W Nat.add]. rewrite Hflip. f_equal. simpl. field.
      pose proof (pos_INR n). rewrite !plus_INR. simpl. lra.
  - split.
    { exists w1. split; [done|]. exact IH1'. }
    change (3 + S k)%nat with (4 + k)%nat. rewrite !W_step.
    rewrite IH2, IH1, IH2', IH1'. cbn [rbind]. eexists; split; [done|].
    f_equal. rewrite Hflip.
    replace ((-1) ^ (4 + k)) with ((-1) ^ (2 + k)) by (simpl; lra).
    replace ((-1) ^ (3 + k)) with (- (-1) ^ (2 + k)) by (simpl; lra).
    assert (0 < INR (2 + k)) as Hpos by (apply lt_0_INR; lia).
    assert (1 < INR (2 + k)) as Hpos1 by (apply (lt_INR 1); lia).
    pose proof (pos_INR n). field. lra.
Qed.

Lemma W_reflect_witness :
  ∃ w, W 5 2 3 = Ok w ∧ W 5 (5 - 2) 3 = Ok ((-1) ^ 3 * w).
Proof. apply (W_reflect 5 2 3); lia. Defined.

Lemma elem_of_imap_keys (n : nat) (bv : list R) (b m : nat) :
  is_Some ((list_to_map (imap (λ k v, ((S k, n), v)) bv) : gmap (nat * nat) R)
             !! (b, m))
  ↔ m = n ∧ (1 ≤ b ≤ length bv)%nat.
Proof.
  split.
  - intros [x Hx]. apply elem_of_list_to_map_2 in Hx.
    apply elem_of_lookup_imap in Hx as (i & y & Heq & Hi).
    injection Heq as -> -> ->. apply lookup_lt_Some in Hi. lia.
  - intros [-> Hb]. destruct b as [|k]; [lia|].
    rewrite (lookup_list_to_map_imap (λ k, (S k, n))).
    + apply lookup_lt_is_Some_2. lia.
    + intros i j [= ->]. done.
Qed.

(** The keys of [sfs] are the pairs (b, n_max) with 1 <= b <= n_max. *)
Lemma sfs_keys (h : TruncatedSizeHistory) (d : gmap (nat * nat) R) :
  sfs h = Ok d →
  ∀ b n, is_Some (d !! (b, n)) ↔ n = n_max h ∧ (1 ≤ b ≤ n_max h)%nat.
Proof.
  unfold sfs. set (N := n_max h). intros Hd b n.
  destruct (N =? 1)%nat eqn:Hn1.
  - apply Nat.eqb_eq in Hn1. destruct (tau h); [|done]. injection Hd as <-.
    rewrite Hn1. split.
    + intros [x Hx]. apply lookup_singleton_Some in Hx as [[= <- <-] _]. lia.
    + intros [-> Hb]. replace b with 1%nat by lia. by rewrite lookup_singleton_eq.
  - apply Nat.eqb_neq in Hn1.
    destruct (N =? 0)%nat eqn:Hn0; [done|]. apply Nat.eqb_neq in Hn0.
    destruct (result_mapM _ (seq 2 (N - 1))) as [ww| |]; [|done..].
    cbn [rbind] in Hd.
    destruct (broadcast_column (etjj h) (N - 1)) as [col| |]; [|done..].
    cbn [rbind] in Hd.
    set (bv := (λ c, sum_listR (zip_with (λ e row, e * nth c row 0) col ww))
                 <$> seq 0 (N - 1)) in *.
    assert (length bv = (N - 1)%nat) as Hbv.
    { unfold bv. by rewrite length_fmap, length_seq. }
    destruct (_before_tmrca h _) as [m| |]; [|done..].
    cbn [rbind] in Hd. injection Hd as <-.
    destruct (decide ((b, n) = (N, N))) as [[= -> ->]|Hne].
    + rewrite lookup_insert_eq. split; [intros _; lia | by eexists].
    + rewrite lookup_insert_ne by done. rewrite elem_of_imap_keys, Hbv.
      split; [lia|]. intros [-> Hb].
      split; [done|]. destruct (decide (b = N)); [congruence | lia].
Qed.

(** [freq(0, n)] is 0 whatever the history.  For a history with a finite
    [tau] and one [etjj] entry for each j = 2..n_max, [sfs] is built, its
    keys are the pairs (b, n_max) with 1 <= b <= n_max, [freq] answers the
    entry of such a pair, and any other pair with b > 0 raises [KeyError]. *)
Theorem freq_domain (h : TruncatedSizeHistory) (t : R) :
  (∀ n, freq h 0 n = Ok 0)
  ∧ ((1 ≤ n_max h)%nat → tau h = Fin t → length (etjj h) = (n_max h - 1)%nat →
     ∃ d, sfs h = Ok d
          ∧ (∀ b n, is_Some (d !! (b, n)) ↔ n = n_max h ∧ (1 ≤ b ≤ n_max h)%nat)
          ∧ (∀ b, (1 ≤ b ≤ n_max h)%nat →
               ∃ x, d !! (b, n_max h) = Some x ∧ freq h b (n_max h) = Ok x)
          ∧ (∀ b n, b ≠ 0%nat → n ≠ n_max h ∨ (n_max h < b)%nat →
               freq h b n = Raise KeyError)).
Proof.
  split; [done|]. intros Hn Htau Hlen.
  destruct (sfs_conservation h t Hn Htau Hlen) as (d & Hd & _).
  pose proof (sfs_keys h d Hd) as Hkeys.
  exists d. split; [done|]. split; [done|]. split.
  - intros b Hb. destruct (proj2 (Hkeys b (n_max h))) as [x Hx]; [done|].
    exists x. split; [done|]. unfold freq.
    destruct (Nat.eqb_spec b 0); [lia|]. rewrite Hd. cbn [rbind].
    unfold getitem. by rewrite Hx.
  - intros b n Hb Hout. unfold freq.
    destruct (Nat.eqb_spec b 0); [done|]. rewrite Hd. cbn [rbind].
    unfold getitem. destruct (d !! (b, n)) as [x|] eqn:Hx; [|done].
    assert (is_Some (d !! (b, n))) as Hs by (by eexists).
    apply Hkeys in Hs. lia.
Qed.

Lemma freq_domain_witness :
  ∃ d, sfs sample_single_history = Ok d
       ∧ (∀ b n, is_Some (d !! (b, n))
                 ↔ n = n_max sample_single_history
                   ∧ (1 ≤ b ≤ n_max sample_single_history)%nat)
       ∧ (∀ b, (1 ≤ b ≤ n_max sample_single_history)%nat →
            ∃ x, d !! (b, n_max sample_single_history) = Some x
                 ∧ freq sample_single_history b (n_max sample_single_history) = Ok x)
       ∧ (∀ b n, b ≠ 0%nat →
            n ≠ n_max sample_single_history ∨ (n_max sample_single_history < b)%nat →
            freq sample_single_history b n = Raise KeyError).
Proof.
  apply (proj2 (freq_domain sample_single_history 1)); [simpl; lia | done | done].
Defined.

(** ** size_history.py: bounds on the Constant history *)

Lemma decay_ratio_bounds (c t : R) :
  0 < c → 0 <= t → 0 <= - expm1 (- (c * t)) / c <= t.
Proof.
  intros Hc Ht. unfold expm1.
  pose proof (exp_ineq1_le (- (c * t))) as H1.
  assert (exp (- (c * t)) <= 1) as H2.
  { destruct (Req_dec (c * t) 0) as [->|Hne].
    - rewrite Ropp_0, exp_0. lra.
    - rewrite <- exp_0. left. apply exp_increasing. nra. }
  split.
  - apply Rmult_le_reg_r with c; [done|]. field_simplify; lra.
  - apply Rmult_le_reg_r with c; [done|]. field_simplify; lra.
Qed.

Lemma decay_ratio_mono (a b t : R) :
  0 < a → a <= b → 0 <= t →
  - expm1 (- (b * t)) / b <= - expm1 (- (a * t)) / a.
Proof.
  intros Ha Hab Ht. unfold expm1.
  set (Ea := exp (- (a * t))). set (Eb := exp (- (b * t))).
  assert (0 < Ea) as HEa by apply exp_pos.
  assert (Eb = Ea * exp (- ((b - a) * t))) as HEb.
  { unfold Ea, Eb. rewrite <- exp_plus. f_equal. ring. }
  pose proof (exp_ineq1_le (- ((b - a) * t))) as H1.
  assert ((1 + a * t) * Ea <= 1) as H2.
  { pose proof (exp_ineq1_le (a * t)) as H3.
    assert (exp (a * t) * Ea = 1) as H4.
    { unfold Ea. rewrite <- exp_plus. replace (a * t + - (a * t)) with 0 by ring.
      apply exp_0. }
    rewrite <- H4. apply Rmult_le_compat_r; lra. }
  assert (Ea * (1 - (b - a) * t) <= Eb) as H5.
  { rewrite HEb. apply Rmult_le_compat_l; lra. }
  apply Rmult_le_reg_r with (a * b); [nra|].
  replace (- (Eb - 1) / b * (a * b)) with (a * (1 - Eb)) by (field; lra).
  replace (- (Ea - 1) / a * (a * b)) with (b * (1 - Ea)) by (field; lra).
  assert (0 <= (b - a)) as Hba by lra.
  assert ((b - a) * ((1 + a * t) * Ea) <= (b - a) * 1) as H6
    by (apply Rmult_le_compat_l; lra).
  nra.
Qed.

Lemma choose_2_mono (i j : nat) : (i ≤ j)%nat → (choose i 2 ≤ choose j 2)%nat.
Proof.
  induction 1 as [|j Hle IH]; [done|].
  change (choose (S j) 2) with (choose j 1 + choose j 2)%nat. lia.
Qed.

(** The assertion that the source keeps as a comment holds over the reals:
    for [N > 0] and a finite [tau >= 0] the entries of
    [ConstantTruncatedSizeHistory.etjj] lie between 0 and [tau] and do not
    increase with j. *)
Theorem constant_etjj_bounds (n : nat) (t N : R) :
  0 < N → 0 <= t →
  ∃ h, ConstantTruncatedSizeHistory n (Fin t) N = Ok h
       ∧ (∀ i x, etjj h !! i = Some x → 0 <= x <= t)
       ∧ (∀ i k x y, (i ≤ k)%nat → etjj h !! i = Some x → etjj h !! k = Some y →
                     y <= x).
Proof.
  intros HN Ht. unfold ConstantTruncatedSizeHistory.
  destruct (Rle_dec N 0); [lra|]. eexists; split; [done|].
  cbn [etjj]. unfold constant_etjj.
  assert (∀ i x,
            ((λ j, let denom := INR (choose j 2) / N in
                   let scaled_time := denom * t in
                   let num := - expm1 (- scaled_time) in num / denom)
               <$> seq 2 (n - 1)) !! i = Some x →
            (i < n - 1)%nat
            ∧ x = - expm1 (- (INR (choose (2 + i) 2) / N * t))
                  / (INR (choose (2 + i) 2) / N)) as Hentry.
  { intros i x Hx. rewrite list_lookup_fmap in Hx.
    destruct (seq 2 (n - 1) !! i) as [j|] eqn:Hj; [|done].
    apply lookup_seq in Hj as [-> Hi]. by injection Hx as <-. }
  assert (∀ i, 0 < INR (choose (2 + i) 2) / N) as Hc.
  { intros i. apply Rdiv_lt_0_compat; [|done]. apply lt_0_INR, choose_pos. lia. }
  split.
  - intros i x Hx. apply Hentry in Hx as [_ ->]. by apply decay_ratio_bounds.
  - intros i k x y Hik Hx Hy. apply Hentry in Hx as [_ ->].
    apply Hentry in Hy as [_ ->]. apply decay_ratio_mono; [done| |done].
    apply Rmult_le_compat_r; [left; by apply Rinv_0_lt_compat|].
    apply le_INR, choose_2_mono. lia.
Qed.

Lemma constant_etjj_bounds_witness :
  ∃ h, ConstantTruncatedSizeHistory 5 (Fin 1) 1 = Ok h
       ∧ (∀ i x, etjj h !! i = Some x → 0 <= x <= 1)
       ∧ (∀ i k x y, (i ≤ k)%nat → etjj h !! i = Some x → etjj h !! k = Some y →
                     y <= x).
Proof. apply (constant_etjj_bounds 5 1 1); lra. Defined.

(** ** size_history.py: [expm1d] and [transformed_expi] *)

Lemma expm1d_taylor_loop (x : R) (k : nat) :
  fold_left (λ (s : R * R) (n : nat),
               let c_n := s.1 * x / INR n in (c_n, s.2 + c_n))
            (seq 2 k) (1, 1)
  = (x ^ k / INR (fact (S k)), big_sum (λ i, x ^ i / INR (fact (S i))) (S k)).
Proof.
  induction k as [|k IH].
  - simpl. f_equal; lra.
  - rewrite seq_S, fold_left_app, IH. cbn [fold_left fst snd].
    assert (INR (fact (S (S k))) = INR (2 + k) * INR (fact (S k))) as Hf.
    { rewrite <- mult_INR. f_equal. }
    assert (0 < INR (fact (S k))) as Hpos by (apply lt_0_INR, lt_O_fact).
    assert (0 < INR (2 + k)) as Hpos' by (apply lt_0_INR; lia).
    assert (x ^ k / INR (fact (S k)) * x / INR (2 + k)
            = x ^ S k / INR (fact (S (S k)))) as Hc.
    { rewrite Hf. simpl pow. field. lra. }
    rewrite Hc. f_equal.
Qed.

Lemma expm1d_zero : expm1d 0 = 1.
Proof.
  unfold expm1d. destruct (Req_dec_T 0 0); [|lra].
  unfold expm1d_taylor. rewrite expm1d_taylor_loop. cbn [snd].
  rewrite big_sum_shift.
  rewrite big_sum_zero by (intros i _; simpl; lra). simpl. lra.
Qed.

(** [expm1d(x)] is the value whose product with [x] is e^x - 1, also at
    [x = 0] where it is 1; it is positive everywhere.  The Taylor branch is
    the polynomial 1 + x/2! + ... + x^9/10!. *)
Theorem expm1d_spec (x : R) :
  expm1d x * x = exp x - 1
  ∧ 0 < expm1d x
  ∧ expm1d 0 = 1
  ∧ expm1d_taylor x = big_sum (λ i, x ^ i / INR (fact (S i))) 10.
Proof.
  assert (expm1d_taylor x = big_sum (λ i, x ^ i / INR (fact (S i))) 10) as Ht.
  { unfold expm1d_taylor. by rewrite expm1d_taylor_loop. }
  pose proof expm1d_zero as H0.
  split; [|split; [|done]].
  - unfold expm1d. destruct (Req_dec_T x 0) as [->|Hx].
    + fold (expm1d 0). unfold expm1d in H0. destruct (Req_dec_T 0 0); [|lra].
      rewrite H0, exp_0. lra.
    + unfold expm1. field. done.
  - destruct (Req_dec_T x 0) as [->|Hx]; [rewrite H0; lra|].
    unfold expm1d. destruct (Req_dec_T x 0); [done|]. unfold expm1.
    destruct (Rlt_dec 0 x) as [Hpos|Hneg].
    + apply Rdiv_lt_0_compat; [|done].
      pose proof (exp_increasing 0 x Hpos) as He. rewrite exp_0 in He. lra.
    + assert (x < 0) as Hlt by lra.
      pose proof (exp_increasing x 0 Hlt) as He. rewrite exp_0 in He.
      replace ((exp x - 1) / x) with ((1 - exp x) / (- x)) by (field; lra).
      apply Rdiv_lt_0_compat; lra.
Qed.

Lemma transformed_expi_series_loop (x : R) (k : nat) :
  fold_left (λ (s : R * R) (n : nat),
               let c_n := - s.1 * x * INR n in (c_n, s.2 + c_n))
            (seq 1 k) (1, 1)
  = ((- x) ^ k * INR (fact k), big_sum (λ i, (- x) ^ i * INR (fact i)) (S k)).
Proof.
  induction k as [|k IH].
  - simpl. f_equal; lra.
  - rewrite seq_S, fold_left_app, IH. cbn [fold_left fst snd].
    assert (INR (fact (S k)) = INR (1 + k) * INR (fact k)) as Hf.
    { rewrite <- mult_INR. f_equal. }
    assert (- ((- x) ^ k * INR (fact k)) * x * INR (1 + k)
            = (- x) ^ S k * INR (fact (S k))) as Hc.
    { rewrite Hf. simpl pow. ring. }
    rewrite Hc. f_equal.
Qed.

Lemma transformed_expi_series_sum (x : R) :
  transformed_expi_series x = big_sum (λ i, (- x) ^ i * INR (fact i)) 11.
Proof. unfold transformed_expi_series. by rewrite transformed_expi_series_loop. Qed.

Lemma neighbours_cons (a b : R) (l : list R) :
  neighbours (a :: b :: l) = (a, b) :: neighbours (b :: l).
Proof. done. Qed.

(** A vector of non-increasing size splits into the entries of size at
    least 1/45 followed by those below. *)
Lemma non_increasing_split (x : list R) :
  forallb (λ p : R * R, if Rge_dec p.1 p.2 then true else false)
          (neighbours (Rabs <$> x)) = true →
  x = List.filter (λ y, negb (ser y)) x ++ List.filter ser x.
Proof.
  induction x as [|a x IH]; [done|]. intros Hall.
  assert (forallb (λ p : R * R, if Rge_dec p.1 p.2 then true else false)
            (neighbours (Rabs <$> x)) = true
          ∧ (ser a = true → Forall (λ y, ser y = true) x)) as [Hall' Hsmall].
  { destruct x as [|b x]; [by split|].
    rewrite !fmap_cons, neighbours_cons in Hall. cbn [forallb fst snd] in Hall.
    apply andb_prop in Hall as [Hab Hall]. split; [done|].
    intros Ha. clear IH. revert a b Hab Hall Ha.
    induction x as [|c x IHx]; intros a b Hab Hall Ha.
    - constructor; [|done]. unfold ser in *.
      destruct (Rge_dec (Rabs a) (Rabs b)); [|done].
      destruct (Rlt_dec (Rabs a) (1 / 45)); [|done].
      destruct (Rlt_dec (Rabs b) (1 / 45)); [done | lra].
    - assert (ser b = true) as Hb.
      { unfold ser in *. destruct (Rge_dec (Rabs a) (Rabs b)); [|done].
        destruct (Rlt_dec (Rabs a) (1 / 45)); [|done].
        destruct (Rlt_dec (Rabs b) (1 / 45)); [done | lra]. }
      constructor; [done|].
      rewrite !fmap_cons, neighbours_cons in Hall. cbn [forallb fst snd] in Hall.
      apply andb_prop in Hall as [Hbc Hall]. by apply (IHx b c). }
  specialize (IH Hall'). cbn [List.filter].
  destruct (ser a) eqn:Ha; cbn [negb].
  - specialize (Hsmall eq_refl).
    assert (List.filter (λ y, negb (ser y)) x = []) as ->.
    { clear -Hsmall. induction Hsmall as [|y l Hy _ IHl]; [done|].
      cbn [List.filter]. by rewrite Hy. }
    simpl. f_equal.
    clear -Hsmall. induction Hsmall as [|y l Hy _ IHl]; [done|].
    cbn [List.filter]. rewrite Hy. by f_equal.
  - cbn [app]. by f_equal.
Qed.

(** [transformed_expi] fails its assertion unless the sizes of the entries
    do not increase.  When it passes, the input is a block [big] of entries
    of size at least 1/45 followed by a block [small] of smaller ones, and
    the result lists the series values of [small] first and the direct
    values of [big] after them: the two blocks come out in the opposite
    order of the input.  The series value is the polynomial
    sum_(i <= 10) i! (-x)^i. *)
Theorem transformed_expi_blocks `{Special} (x : list R) :
  (forallb (λ p : R * R, if Rge_dec p.1 p.2 then true else false)
           (neighbours (Rabs <$> x)) = false →
   transformed_expi x = Raise AssertionError)
  ∧ (forallb (λ p : R * R, if Rge_dec p.1 p.2 then true else false)
             (neighbours (Rabs <$> x)) = true →
     ∃ big small,
       x = big ++ small
       ∧ Forall (λ y, 1 / 45 <= Rabs y) big
       ∧ Forall (λ y, Rabs y < 1 / 45) small
       ∧ transformed_expi x
         = Ok (((λ y, big_sum (λ i, (- y) ^ i * INR (fact i)) 11) <$> small)
               ++ ((λ y, - expi (-1 / y) * exp (1 / y) / y) <$> big))).
Proof.
  split; intros Hall; unfold transformed_expi; rewrite Hall; [done|].
  exists (List.filter (λ y, negb (ser y)) x), (List.filter ser x).
  split; [by apply non_increasing_split|].
  assert (Forall (λ y, 1 / 45 <= Rabs y) (List.filter (λ y, negb (ser y)) x)) as Hbig.
  { apply Forall_forall. intros y Hy. apply list_elem_of_In, filter_In in Hy as [_ Hy].
    unfold ser in Hy. destruct (Rlt_dec (Rabs y) (1 / 45)); [done | lra]. }
  split; [done|]. split.
  { apply Forall_forall. intros y Hy. apply list_elem_of_In, filter_In in Hy as [_ Hy].
    unfold ser in Hy. by destruct (Rlt_dec (Rabs y) (1 / 45)). }
  rewrite (result_mapM_Ok _ (λ y, - expi (-1 / y) * exp (1 / y) / y)).
  2:{ intros y Hy. rewrite Forall_forall in Hbig. specialize (Hbig y Hy).
      unfold transformed_expi_naive. destruct (Req_dec_T y 0) as [->|]; [|done].
      rewrite Rabs_R0 in Hbig. lra. }
  cbn [rbind]. do 2 f_equal. apply list_fmap_ext. intros i y _.
  apply transformed_expi_series_sum.
Qed.

Lemma transformed_expi_blocks_witness :
  @transformed_expi sample_special [1; 2] = Raise AssertionError
  ∧ ∃ big small,
      [1; 0] = big ++ small
      ∧ Forall (λ y, 1 / 45 <= Rabs y) big
      ∧ Forall (λ y, Rabs y < 1 / 45) small
      ∧ @transformed_expi sample_special [1; 0]
        = Ok (((λ y, big_sum (λ i, (- y) ^ i * INR (fact i)) 11) <$> small)
              ++ ((λ y, - @expi sample_special (-1 / y) * exp (1 / y) / y) <$> big)).
Proof.
  split.
  - apply (proj1 (@transformed_expi_blocks sample_special [1; 2])).
    cbn [fmap list_fmap neighbours removelast tail zip zip_with forallb fst snd].
    destruct (Rge_dec (Rabs 1) (Rabs 2)) as [Hge|]; [|done].
    rewrite !Rabs_pos_eq in Hge by lra. lra.
  - apply (proj2 (@transformed_expi_blocks sample_special [1; 0])).
    cbn [fmap list_fmap neighbours removelast tail zip zip_with forallb fst snd].
    destruct (Rge_dec (Rabs 1) (Rabs 0)) as [|Hn]; [done|].
    rewrite Rabs_R0, Rabs_pos_eq in Hn by lra. lra.
Defined.

(** ** size_history.py: the Exponential history *)

Lemma exponential_init_Ok (n : nat) (t Nt Nb : R) :
  0 < Nt → 0 < Nb → t ≠ 0 →
  ExponentialTruncatedSizeHistory n t Nt Nb
  = Ok {| exp_n_max := n; exp_tau := t; N_top := Nt; N_bottom := Nb;
          growth_rate := ln (Nb / Nt) / t |}.
Proof.
  intros HNt HNb Ht. unfold ExponentialTruncatedSizeHistory, float_div.
  destruct (Req_dec_T Nt 0); [lra|]. cbn [rbind]. unfold log.
  assert (0 < Nb / Nt) as Hr by (by apply Rdiv_lt_0_compat).
  destruct (Rlt_dec 0 (Nb / Nt)); [|done]. cbn [rbind].
  by destruct (Req_dec_T t 0).
Qed.

(** For positive sizes and a finite non-zero [tau], [scaled_time] is
    tau / N when the two sizes are the same N, and
    tau (1/N_top - 1/N_bottom) / ln(N_bottom / N_top) when they differ. *)
Theorem exponential_scaled_time_closed (n : nat) (t Nt Nb : R) :
  0 < Nt → 0 < Nb → t ≠ 0 →
  ∃ h, ExponentialTruncatedSizeHistory n t Nt Nb = Ok h
       ∧ growth_rate h = ln (Nb / Nt) / t
       ∧ exponential_scaled_time h
         = Ok (if Req_dec_T Nt Nb then t / Nb
               else t * (1 / Nt - 1 / Nb) / ln (Nb / Nt)).
Proof.
  intros HNt HNb Ht. rewrite exponential_init_Ok by done.
  eexists; split; [done|]. split; [done|].
  unfold exponential_scaled_time. cbn [N_bottom growth_rate exp_tau].
  destruct (Req_dec_T Nb 0); [lra|]. f_equal.
  replace (ln (Nb / Nt) / t * t) with (ln (Nb / Nt)) by (field; done).
  destruct (Req_dec_T Nt Nb) as [->|Hne].
  - replace (Nb / Nb) with 1 by (field; lra). rewrite ln_1.
    rewrite expm1d_zero. lra.
  - assert (0 < Nb / Nt) as Hr by (by apply Rdiv_lt_0_compat).
    assert (ln (Nb / Nt) ≠ 0) as Hl.
    { apply ln_neq_0; [|done]. intros Heq.
      apply Hne. apply (Rmult_eq_compat_r Nt) in Heq.
      replace (Nb / Nt * Nt) with Nb in Heq by (field; lra). lra. }
    unfold expm1d. destruct (Req_dec_T (ln (Nb / Nt)) 0); [done|].
    unfold expm1. rewrite exp_ln by done. field. lra.
Qed.

Lemma exponential_scaled_time_closed_witness :
  ∃ h, ExponentialTruncatedSizeHistory 3 1 2 2 = Ok h
       ∧ growth_rate h = ln (2 / 2) / 1
       ∧ exponential_scaled_time h
         = Ok (if Req_dec_T 2 2 then 1 / 2
               else 1 * (1 / 2 - 1 / 2) / ln (2 / 2)).
Proof. apply (exponential_scaled_time_closed 3 1 2 2); lra. Defined.


Lemma fmap_twice {A B C} (f : B → C) (g : A → B) (l : list A) :
  f <$> (g <$> l) = (λ x, f (g x)) <$> l.
Proof. induction l as [|a l IH]; [done|]. cbn [fmap list_fmap] in *. by f_equal. Qed.

Lemma zip_with_fmap_same {A B C D} (f : B → C → D) (g : A → B) (h : A → C)
    (l : list A) :
  zip_with f (g <$> l) (h <$> l) = (λ x, f (g x) (h x)) <$> l.
Proof. induction l as [|a l IH]; [done|]. cbn [fmap list_fmap zip_with] in *. by f_equal. Qed.




(** ** size_history.py: piecewise histories *)

Lemma vec_mul_fmap {A} (g h : A → R) (l : list A) :
  vec_mul (g <$> l) (h <$> l) = Ok ((λ x, g x * h x) <$> l).
Proof.
  unfold vec_mul. rewrite !length_fmap, Nat.eqb_refl. f_equal.
  apply zip_with_fmap_same.
Qed.

Lemma vec_add_fmap {A} (g h : A → R) (l : list A) :
  vec_add (g <$> l) (h <$> l) = Ok ((λ x, g x + h x) <$> l).
Proof.
  unfold vec_add. rewrite !length_fmap, Nat.eqb_refl. f_equal.
  apply zip_with_fmap_same.
Qed.

Lemma replicate_fmap_seq (c : R) (s k : nat) :
  replicate (length (seq s k)) c = (λ _, c) <$> seq s k.
Proof.
  rewrite length_seq. revert s. induction k as [|k IH]; intros s; [done|].
  simpl. f_equal. apply IH.
Qed.

Ltac vec_fmap :=
  match goal with
  | |- context [vec_mul (?g <$> ?l) (?h <$> ?l)] => rewrite (vec_mul_fmap g h l)
  | |- context [vec_add (?g <$> ?l) (?h <$> ?l)] => rewrite (vec_add_fmap g h l)
  end; cbn [rbind fst snd].

(** Two Constant pieces of the same size N, the first of finite duration,
    make the Constant history of size N over the sum of the two durations:
    the same [tau], the same [etjj] entry by entry, the same [scaled_time],
    also when the second piece lasts for ever. *)
Theorem piecewise_constant_join (n i1 i2 : nat) (t1 : R) (tau2 : xreal) (N : R) :
  0 < N →
  ∃ p1 p2 o,
    ConstantTruncatedSizeHistory n (Fin t1) N = Ok p1
    ∧ ConstantTruncatedSizeHistory n tau2 N = Ok p2
    ∧ PiecewiseHistory [(i1, p1); (i2, p2)] = Ok o
    ∧ piecewise_history o = ConstantTruncatedSizeHistory n (xadd (Fin t1) tau2) N.
Proof.
  intros HN. unfold ConstantTruncatedSizeHistory.
  destruct (Rle_dec N 0); [lra|]. do 3 eexists.
  split; [done|]. split; [done|].
  unfold PiecewiseHistory. cbn [forallb snd n_max]. rewrite Nat.eqb_refl.
  cbn [andb]. split; [done|].
  unfold piecewise_history, piecewise_etjj.
  cbn [pw_n_max pw_pieces pw_tau result_foldl].
  unfold piecewise_etjj_step. cbn [fst snd etjj scaled_time].
  rewrite !replicate_fmap_seq. unfold constant_etjj.
  do 2 vec_fmap. cbn [constant_scaled_time]. rewrite fmap_twice. do 3 vec_fmap.
  assert (∀ j, j ∈ seq 2 (n - 1) → 0 < INR (choose j 2)) as Hc.
  { intros j Hj. apply elem_of_seq in Hj. apply lt_0_INR, choose_pos. lia. }
  destruct tau2 as [t2|].
  - cbn [constant_scaled_time]. rewrite fmap_twice. vec_fmap.
    f_equal. unfold piecewise_scaled_time, xsum.
    cbn [pw_tau pw_pieces fmap list_fmap foldl xadd tau snd scaled_time].
    f_equal.
    + f_equal. lra.
    + apply list_fmap_ext. intros k j Hj. apply list_elem_of_lookup_2 in Hj.
      specialize (Hc j Hj). unfold expm1.
      replace (- (INR (choose j 2) / N * (t1 + t2)))
        with (- (INR (choose j 2) / N * t1) + - (INR (choose j 2) / N * t2))
        by ring.
      rewrite exp_plus.
      replace (- (t1 / N) * INR (choose j 2))
        with (- (INR (choose j 2) / N * t1)) by (field; lra).
      field. lra.
    + cbn [constant_scaled_time]. f_equal. field. lra.
  - rewrite decide_True by done. cbn [constant_scaled_time rbind fst].
    f_equal. f_equal.
    apply list_fmap_ext. intros k j Hj. apply list_elem_of_lookup_2 in Hj.
    specialize (Hc j Hj). cbn [xadd]. unfold expm1.
    replace (- (t1 / N) * INR (choose j 2))
      with (- (INR (choose j 2) / N * t1)) by (field; lra).
    field. lra.
Qed.

Lemma piecewise_constant_join_witness :
  ∃ p1 p2 o,
    ConstantTruncatedSizeHistory 3 (Fin 1) 2 = Ok p1
    ∧ ConstantTruncatedSizeHistory 3 PInf 2 = Ok p2
    ∧ PiecewiseHistory [(0%nat, p1); (1%nat, p2)] = Ok o
    ∧ piecewise_history o = ConstantTruncatedSizeHistory 3 (xadd (Fin 1) PInf) 2.
Proof. apply (piecewise_constant_join 3 0 1 1 PInf 2). lra. Defined.

Lemma vec_mul_same_length (a b : list R) :
  length a = length b →
  ∃ c, vec_mul a b = Ok c ∧ length c = length a.
Proof.
  intros Hlen. unfold vec_mul. apply Nat.eqb_eq in Hlen as Heq. rewrite Heq.
  eexists; split; [done|]. rewrite length_zip_with. lia.
Qed.

Lemma vec_add_same_length (a b : list R) :
  length a = length b →
  ∃ c, vec_add a b = Ok c ∧ length c = length a.
Proof.
  intros Hlen. unfold vec_add. apply Nat.eqb_eq in Hlen as Heq. rewrite Heq.
  eexists; split; [done|]. rewrite length_zip_with. lia.
Qed.

(** One turn of the loop on vectors of the right length. *)
Lemma piecewise_etjj_step_cases (jC : list R) (last_piece : option nat)
    (s : list R * list R) (i : nat) (p : TruncatedSizeHistory) :
  length s.1 = length jC → length s.2 = length jC →
  length (etjj p) = length jC →
  match scaled_time p with
  | Fin _ => ∃ s', piecewise_etjj_step jC last_piece s (i, p) = Ok s'
                   ∧ length s'.1 = length jC ∧ length s'.2 = length jC
  | PInf =>
      if decide (Some i = last_piece)
      then ∃ s', piecewise_etjj_step jC last_piece s (i, p) = Ok s'
                 ∧ length s'.1 = length jC ∧ length s'.2 = length jC
      else piecewise_etjj_step jC last_piece s (i, p) = Raise AssertionError
  end.
Proof.
  intros H1 H2 Hp. unfold piecewise_etjj_step. cbn [fst snd].
  destruct (vec_mul_same_length s.2 (etjj p)) as (term & -> & Hterm); [congruence|].
  cbn [rbind].
  destruct (vec_add_same_length s.1 term) as (ret & -> & Hret); [congruence|].
  cbn [rbind]. destruct (scaled_time p) as [st|].
  - destruct (vec_mul_same_length s.2 ((λ c, exp (- st * c)) <$> jC))
      as (nc & -> & Hnc); [by rewrite length_fmap|].
    cbn [rbind]. eexists; split; [done|]. cbn [fst snd]. split; congruence.
  - destruct (decide (Some i = last_piece)); [|done].
    eexists; split; [done|]. cbn [fst snd]. split; congruence.
Qed.

Lemma piecewise_loop_finite (jC : list R) (last_piece : option nat)
    (pieces : list (nat * TruncatedSizeHistory)) :
  ∀ s, length s.1 = length jC → length s.2 = length jC →
       Forall (λ q : nat * TruncatedSizeHistory,
                 length (etjj q.2) = length jC ∧ scaled_time q.2 ≠ PInf) pieces →
       ∃ s', result_foldl (piecewise_etjj_step jC last_piece) s pieces = Ok s'
             ∧ length s'.1 = length jC ∧ length s'.2 = length jC.
Proof.
  induction pieces as [|[i p] pieces IH]; intros s H1 H2 Hall.
  - by exists s.
  - apply Forall_cons in Hall as [[Hp Hfin] Hall]. cbn [snd] in Hp, Hfin.
    pose proof (piecewise_etjj_step_cases jC last_piece s i p H1 H2 Hp) as Hstep.
    destruct (scaled_time p) as [st|]; [|done].
    destruct Hstep as (s1 & Hs1 & Ha & Hb).
    cbn [result_foldl]. rewrite Hs1. cbn [rbind]. by apply IH.
Qed.

Lemma result_foldl_app {A B} (f : B → A → result B) (acc : B) (l k : list A) :
  result_foldl f acc (l ++ k) = (acc' ←r result_foldl f acc l; result_foldl f acc' k).
Proof.
  revert acc. induction l as [|a l IH]; intros acc; [done|].
  cbn [app result_foldl]. destruct (f acc a); [|done..]. cbn [rbind]. apply IH.
Qed.

Lemma PiecewiseHistory_Ok (pieces : list (nat * TruncatedSizeHistory)) (o : Piecewise) :
  PiecewiseHistory pieces = Ok o →
  pw_pieces o = pieces
  ∧ pw_tau o = xsum ((λ p : nat * TruncatedSizeHistory, tau p.2) <$> pieces)
  ∧ ∀ q, q ∈ pieces → n_max q.2 = pw_n_max o.
Proof.
  unfold PiecewiseHistory. destruct pieces as [|p0 rest]; [done|].
  destruct (forallb _ (p0 :: rest)) eqn:Hall; [|done]. intros [= <-].
  split; [done|]. split; [done|]. intros q Hq.
  rewrite forallb_forall in Hall. apply list_elem_of_In, Hall in Hq.
  by apply Nat.eqb_eq in Hq.
Qed.

(** [etjj] of a piecewise history fails its assertion when a piece with an
    infinite [scaled_time] is met that is not the object [pieces[-1]]: the
    pieces before it having finite [scaled_time] and every [etjj] one entry
    for each j = 2..n_max. *)
Theorem piecewise_infinite_inside (pre post : list (nat * TruncatedSizeHistory))
    (i : nat) (p : TruncatedSizeHistory) (o : Piecewise) :
  PiecewiseHistory (pre ++ (i, p) :: post) = Ok o →
  Forall (λ q : nat * TruncatedSizeHistory,
            length (etjj q.2) = (n_max q.2 - 1)%nat ∧ scaled_time q.2 ≠ PInf) pre →
  length (etjj p) = (n_max p - 1)%nat →
  scaled_time p = PInf →
  last (pre ++ (i, p) :: post).*1 ≠ Some i →
  piecewise_etjj o = Raise AssertionError
  ∧ piecewise_history o = Raise AssertionError.
Proof.
  intros Ho Hpre Hp Hinf Hlast.
  apply PiecewiseHistory_Ok in Ho as (Hpieces & _ & Hn).
  assert (piecewise_etjj o = Raise AssertionError) as He.
  2:{ split; [done|]. unfold piecewise_history. by rewrite He. }
  unfold piecewise_etjj. rewrite Hpieces.
  set (jC := (λ j, INR (choose j 2)) <$> seq 2 (pw_n_max o - 1)).
  assert (length jC = (pw_n_max o - 1)%nat) as HjC.
  { unfold jC. by rewrite length_fmap, length_seq. }
  rewrite length_seq, result_foldl_app.
  destruct (piecewise_loop_finite jC (last (pre ++ (i, p) :: post).*1) pre
              (replicate (pw_n_max o - 1) 0, replicate (pw_n_max o - 1) 1))
    as (s1 & -> & H1 & H2).
  { cbn [fst]. by rewrite length_replicate. }
  { cbn [snd]. by rewrite length_replicate. }
  { apply Forall_forall. intros q Hq. rewrite Forall_forall in Hpre.
    destruct (Hpre q Hq) as [Hlen Hfin].
    split; [|done]. rewrite Hlen, HjC. f_equal. apply Hn. set_solver. }
  cbn [rbind result_foldl].
  pose proof (piecewise_etjj_step_cases jC (last (pre ++ (i, p) :: post).*1)
                s1 i p H1 H2) as Hstep.
  rewrite Hinf in Hstep. rewrite decide_False in Hstep by congruence.
  rewrite Hstep; [done|]. rewrite Hp, HjC. f_equal.
  apply (Hn (i, p)). set_solver.
Qed.

Lemma piecewise_infinite_inside_witness :
  ∃ o, PiecewiseHistory
         ([] ++ (0%nat, {| n_max := 1; tau := PInf; etjj := []; scaled_time := PInf |})
             :: [(1%nat, sample_single_history)]) = Ok o
       ∧ piecewise_etjj o = Raise AssertionError
       ∧ piecewise_history o = Raise AssertionError.
Proof.
  eexists. split; [reflexivity|].
  apply (piecewise_infinite_inside []
           [(1%nat, sample_single_history)] 0
           {| n_max := 1; tau := PInf; etjj := []; scaled_time := PInf |});
    [reflexivity | constructor | reflexivity | reflexivity | discriminate].
Defined.




(** ** demography.py: the outcome of [update_state] *)

Lemma update_nodes_is_Ok (st : list (nat * gmap string Z))
    (nd : gmap nat (gmap string Z)) :
  NoDup st.*1 →
  (∀ v u, (v, u) ∈ st →
     ∃ ndv, nd !! v = Some ndv ∧ state_mismatch (u ∪ ndv) = Ok false) →
  ∃ nd', update_nodes st nd = (Ok (), nd').
Proof.
  revert nd. induction st as [|[w uw] st IH]; intros nd Hnd Hst.
  - by eexists.
  - rewrite fmap_cons in Hnd. apply NoDup_cons in Hnd as [Hw Hnd].
    destruct (Hst w uw) as (ndw & Hndw & Hmw); [left|].
    cbn [update_nodes]. rewrite Hndw, Hmw. apply IH; [done|].
    intros v u Hin. destruct (Hst v u) as (ndv & Hv & Hm); [by right|].
    exists ndv. split; [|done]. rewrite lookup_insert_ne; [done|].
    intros ->. apply Hw. apply list_elem_of_fmap. by exists (v, u).
Qed.

Lemma update_nodes_apply (st : list (nat * gmap string Z))
    (nd nd' : gmap nat (gmap string Z)) :
  NoDup st.*1 → update_nodes st nd = (Ok (), nd') → nd' = apply_state st nd.
Proof.
  intros Hnd Hn. apply update_nodes_Ok_lookup in Hn as [Hin Hout]; [|done].
  apply map_eq. intros v. unfold apply_state.
  rewrite map_lookup_imap. destruct (decide (v ∈ st.*1)) as [Hv|Hv].
  - apply list_elem_of_fmap in Hv as ([v' u] & -> & Hvu). cbn [fst].
    destruct (Hin v' u Hvu) as (ndn & -> & -> & _). cbn [mbind option_bind].
    by rewrite (elem_of_list_to_map_1 st v' u).
  - rewrite Hout by done. destruct (nd !! v) as [ndv|]; [|done].
    cbn [mbind option_bind]. by rewrite (not_elem_of_list_to_map_1 st v).
Qed.

Lemma apply_state_attribute (st : list (nat * gmap string Z)) (G : Demography)
    (v : nat) (k : string) :
  NoDup st.*1 →
  attribute (set_nodes G (apply_state st (nodes G))) v k
  = match (list_to_map st : gmap nat (gmap string Z)) !! v with
    | Some u => match nodes G !! v with
                | Some ndv => (u ∪ ndv) !! k
                | None => None
                end
    | None => attribute G v k
    end.
Proof.
  intros Hnd. unfold attribute, apply_state. cbn [nodes set_nodes].
  rewrite map_lookup_imap.
  destruct (nodes G !! v) as [ndv|]; cbn [mbind option_bind];
    by destruct (list_to_map st !! v).
Qed.

Lemma apply_state_leaves (st : list (nat * gmap string Z)) (G : Demography) :
  leaves (set_nodes G (apply_state st (nodes G))) = leaves G.
Proof.
  apply set_eq. intros v. unfold leaves, successors. cbn [edges set_nodes nodes].
  rewrite !elem_of_filter. unfold apply_state. rewrite !elem_of_dom.
  rewrite map_lookup_imap. destruct (nodes G !! v); cbn [mbind option_bind].
  - split; intros [? _]; (split; [done | by eexists]).
  - split; intros [_ [? [=]]].
Qed.

Lemma apply_state_attribute_in (st : list (nat * gmap string Z)) (G : Demography)
    (v : nat) (u : gmap string Z) (k : string) :
  NoDup st.*1 → (v, u) ∈ st → is_Some (nodes G !! v) →
  attribute (set_nodes G (apply_state st (nodes G))) v k
  = match u !! k with
    | Some x => Some x
    | None => attribute G v k
    end.
Proof.
  intros Hnd Hin [ndv Hv]. rewrite apply_state_attribute by done.
  rewrite (elem_of_list_to_map_1 st v u) by done.
  unfold attribute. rewrite Hv.
  cbn [mbind option_bind]. rewrite lookup_union.
  destruct (u !! k), (ndv !! k); done.
Qed.

Lemma update_state_Ok (st : list (nat * gmap string Z)) (G : Demography) :
  NoDup st.*1 →
  (∀ v u, (v, u) ∈ st →
     ∃ ndv, nodes G !! v = Some ndv ∧ state_mismatch (u ∪ ndv) = Ok false) →
  let G1 := set_nodes G (apply_state st (nodes G)) in
  (n_derived_cached G || n_derived_computable G1)%bool = true →
  update_state st G = (Ok (), set_n_derived_cached G1 false).
Proof.
  intros Hnd Hst G1 Hor.
  destruct (update_nodes_is_Ok st (nodes G) Hnd Hst) as (nd' & Hup).
  pose proof (update_nodes_apply _ _ _ Hnd Hup) as ->.
  unfold update_state. rewrite Hup. fold G1.
  by assert ((n_derived_cached G1 || n_derived_computable G1)%bool = true) as ->.
Qed.

(** [update_state(state)] on a state every node of which exists and passes
    the check once written.  The attributes given for a node replace those
    it had, its other attributes and the other nodes are kept.  The call
    returns, dropping the cache of [n_derived_subtended_by], when that cache
    existed or every leaf now has a ['derived'] attribute; otherwise it
    raises [KeyError] with the new attributes written. *)
Theorem update_state_outcome (st : list (nat * gmap string Z)) (G : Demography) :
  NoDup st.*1 →
  (∀ v u, (v, u) ∈ st →
     ∃ ndv, nodes G !! v = Some ndv ∧ state_mismatch (u ∪ ndv) = Ok false) →
  let G1 := set_nodes G (apply_state st (nodes G)) in
  (∀ v u k, (v, u) ∈ st →
     attribute G1 v k = match u !! k with
                        | Some x => Some x
                        | None => attribute G v k
                        end)
  ∧ (∀ v k, v ∉ st.*1 → attribute G1 v k = attribute G v k)
  ∧ leaves G1 = leaves G
  ∧ (n_derived_cached G = true
     ∨ (∀ l, l ∈ leaves G → is_Some (attribute G1 l "derived")) →
     update_state st G = (Ok (), set_n_derived_cached G1 false))
  ∧ (n_derived_cached G = false →
     (∃ l, l ∈ leaves G ∧ attribute G1 l "derived" = None) →
     update_state st G = (Raise KeyError, G1)).
Proof.
  intros Hnd Hst G1.
  pose proof (apply_state_leaves st G) as Hleaves. fold G1 in Hleaves.
  assert (n_derived_computable G1 = true
          ↔ ∀ l, l ∈ leaves G → is_Some (attribute G1 l "derived")) as Hcomp.
  { unfold n_derived_computable. rewrite bool_decide_eq_true, Hleaves. done. }
  destruct (update_nodes_is_Ok st (nodes G) Hnd Hst) as (nd' & Hup).
  pose proof (update_nodes_apply _ _ _ Hnd Hup) as ->.
  split; [|split; [|split; [done|split]]].
  - intros v u k Hin. destruct (Hst v u Hin) as (ndv & Hv & _).
    apply apply_state_attribute_in; [done..|by eexists].
  - intros v k Hv. unfold G1. rewrite apply_state_attribute by done.
    by rewrite (not_elem_of_list_to_map_1 st v).
  - intros Hor. apply update_state_Ok; [done..|]. fold G1.
    apply orb_true_iff. destruct Hor as [Hc|Hl]; [by left|]. right. by apply Hcomp.
  - intros Hc (l & Hl & Hnone). unfold update_state. rewrite Hup. fold G1.
    assert ((n_derived_cached G1 || n_derived_computable G1)%bool = false) as ->; [|done].
    apply orb_false_iff. split; [done|]. apply not_true_iff_false.
    rewrite Hcomp. intros Hall. specialize (Hall l Hl). rewrite Hnone in Hall.
    by destruct Hall.
Qed.

Lemma update_state_outcome_witness :
  let st := [(1%nat, attrs [("derived", 1%Z); ("ancestral", 1%Z)])] in
  let G1 := set_nodes sample_tree_graph (apply_state st (nodes sample_tree_graph)) in
  attribute G1 1 "derived" = Some 1%Z
  ∧ attribute G1 1 "lineages" = Some 2%Z
  ∧ attribute G1 2 "derived" = None
  ∧ update_state st sample_tree_graph = (Raise KeyError, G1).
Proof.
  intros st G1.
  destruct (update_state_outcome st sample_tree_graph) as (Hin & Hout & _ & _ & Hk).
  { apply (bool_decide_unpack _). vm_compute. exact I. }
  { intros v u Hvu. apply list_elem_of_singleton in Hvu. injection Hvu as -> ->.
    exists (attrs [("lineages", 2%Z)]). split; vm_compute; reflexivity. }
  assert (attribute G1 2 "derived" = None) as H2.
  { rewrite Hout; [vm_compute; reflexivity|].
    apply (bool_decide_unpack _). vm_compute. exact I. }
  split; [|split; [|split]].
  - rewrite (Hin 1%nat (attrs [("derived", 1%Z); ("ancestral", 1%Z)]));
      [vm_compute; reflexivity | left].
  - rewrite (Hin 1%nat (attrs [("derived", 1%Z); ("ancestral", 1%Z)]));
      [vm_compute; reflexivity | left].
  - done.
  - apply Hk; [reflexivity|]. exists 2%nat. split; [|done].
    apply (bool_decide_unpack _). vm_compute. exact I.
Defined.

(** ** demography.py: the cached [totalSfsSum] and [root] *)

Lemma update_state_keeps_cache (st : list (nat * gmap string Z))
    (G G' : Demography) (r : result ()) :
  update_state st G = (r, G') → totalSfsSum_cache G' = totalSfsSum_cache G.
Proof.
  unfold update_state. destruct (update_nodes st (nodes G)) as [[[]| |] nd'].
  - destruct (_ || _)%bool; by intros [= <- <-].
  - by intros [= <- <-].
  - by intros [= <- <-].
Qed.

(** Once [totalSfsSum] has returned, its value is stored on the graph and
    later reads answer it without calling the engine and without touching
    the graph: also after [update_state] has changed the observation state
    or failed, since [update_state] drops other caches but not this one. *)
Theorem totalSfsSum_cached `{SumProduct} (G G1 : Demography) (c : R) :
  totalSfsSum G = (Ok c, G1) →
  totalSfsSum_cache G1 = Some c
  ∧ totalSfsSum G1 = (Ok c, G1)
  ∧ ∀ st r G2, update_state st G1 = (r, G2) → totalSfsSum G2 = (Ok c, G2).
Proof.
  intros Ht.
  assert (totalSfsSum_cache G1 = Some c) as Hc.
  { unfold totalSfsSum in Ht. destruct (totalSfsSum_cache G) as [c'|] eqn:Hc'.
    - by injection Ht as <- <-.
    - destruct (normalizing_constant G) as [[x| |] G']; try done.
      by injection Ht as <- <-. }
  split; [done|]. split.
  - unfold totalSfsSum. by rewrite Hc.
  - intros st r G2 Hup. apply update_state_keeps_cache in Hup.
    unfold totalSfsSum. by rewrite Hup, Hc.
Qed.

Lemma totalSfsSum_cached_witness :
  totalSfsSum_cache (set_totalSfsSum sample_all_derived_graph (Some (5 / 2)))
  = Some (5 / 2)
  ∧ @totalSfsSum sample_engine (set_totalSfsSum sample_all_derived_graph (Some (5 / 2)))
    = (Ok (5 / 2), set_totalSfsSum sample_all_derived_graph (Some (5 / 2)))
  ∧ ∀ st r G2,
      update_state st (set_totalSfsSum sample_all_derived_graph (Some (5 / 2)))
      = (r, G2) →
      @totalSfsSum sample_engine G2 = (Ok (5 / 2), G2).
Proof.
  apply (@totalSfsSum_cached sample_engine sample_tree_graph).
  apply sample_totalSfsSum.
Defined.

(** [root] answers a node exactly when that node is the only node of the
    graph without an incoming edge; with no such node, or several, its
    assertion fails. *)
Theorem root_unique (G : Demography) :
  (∀ r, root G = Ok r
        ↔ ∀ v, (v ∈ dom (nodes G) ∧ ∀ p, (p, v) ∉ edges G) ↔ v = r)
  ∧ ((¬ ∃ r, ∀ v, (v ∈ dom (nodes G) ∧ ∀ p, (p, v) ∉ edges G) ↔ v = r) →
     root G = Raise AssertionError).
Proof.
  set (X := filter (λ v, in_edges G v = []) (dom (nodes G))).
  assert (∀ v, v ∈ X ↔ v ∈ dom (nodes G) ∧ ∀ p, (p, v) ∉ edges G) as HX.
  { intros v. unfold X. rewrite elem_of_filter. unfold in_edges.
    rewrite elements_empty_iff. split.
    - intros [Hno Hv]. split; [done|]. intros p Hp.
      apply (not_elem_of_empty (C:=gset (nat * nat)) (p, v)). rewrite <- Hno.
      by apply elem_of_filter.
    - intros [Hv Hno]. split; [|done]. apply elem_of_equiv_empty. intros [p w] Hp.
      apply elem_of_filter in Hp as [Hw Hp]. cbn in Hw. subst w.
      by apply (Hno p). }
  assert (∀ r, root G = Ok r ↔ ∀ v, v ∈ X ↔ v = r) as Hroot.
  { intros r. unfold root. fold X. split.
    - destruct (elements X) as [|a [|b l]] eqn:HeX; try done. intros [= ->].
      intros v. rewrite <- elem_of_elements, HeX. set_solver.
    - intros Hv. assert (X = {[ r ]}) as -> by set_solver.
      by rewrite elements_singleton. }
  split.
  - intros r. rewrite Hroot. by setoid_rewrite HX.
  - intros Hno. unfold root. fold X.
    destruct (elements X) as [|a [|b l]] eqn:HeX; try done.
    exfalso. apply Hno. exists a. setoid_rewrite <- HX. apply Hroot.
    unfold root. fold X. by rewrite HeX.
Qed.

Lemma root_unique_witness :
  root sample_tree_graph = Ok 0%nat
  ∧ ∀ v, (v ∈ dom (nodes sample_tree_graph) ∧ ∀ p, (p, v) ∉ edges sample_tree_graph)
         ↔ v = 0%nat.
Proof.
  split; [vm_compute; reflexivity|].
  apply (proj1 (proj1 (root_unique sample_tree_graph) 0%nat)).
  vm_compute. reflexivity.
Defined.

(** ** demography.py: the nodes of the event tree and [event_type] *)
Section event_nodes.
Local Open Scope nat_scope.

Lemma tree_step_eventDict (st st' : tree_state) (e : list (nat * nat)) :
  tree_step st e = Ok st' →
  length e = 2
  ∧ size (list_to_set e.*1 : gset nat) + size (list_to_set e.*2 : gset nat) = 3
  ∧ (∃ d, eventDict st' = <[ RawEvent e := d ]> (eventDict st)
          ∧ ed_parent_pops d = elements (list_to_set e.*1 : gset nat))
  ∧ (∀ p ev, currEvents st' !! p = Some ev →
             ev = RawEvent e ∨ currEvents st !! p = Some ev).
Proof.
  unfold tree_step. destruct e as [|e0 e']; [done|]. set (e := e0 :: e').
  destruct (result_mapM _ _) as [evs| |]; [|done..]. cbn [rbind].
  case_bool_decide as Hassert; [|done]. destruct Hassert as (Hlen & Hsize & _).
  destruct (result_mapM _ _) as [subs| |]; [|done..]. cbn [rbind].
  intros [= <-]. cbn [eventDict currEvents]. split; [done|]. split; [done|]. split.
  - eexists; split; [done|]. done.
  - intros p ev Hp. apply map_lookup_filter_Some in Hp as [Hp _].
    apply lookup_union_Some_raw in Hp as [Hp|[_ Hp]]; [|by right].
    apply lookup_gset_to_gmap_Some in Hp as [_ <-]. by left.
Qed.

Lemma tree_loop_eventDict (events : list (list (nat * nat))) :
  ∀ st st', tree_loop st events = Ok st' →
    (∀ ev, is_Some (eventDict st' !! ev)
           ↔ is_Some (eventDict st !! ev) ∨ ∃ e, e ∈ events ∧ ev = RawEvent e)
    ∧ (∀ l, eventDict st' !! LeafEvent l = eventDict st !! LeafEvent l)
    ∧ (∀ e, e ∈ events →
         length e = 2
         ∧ size (list_to_set e.*1 : gset nat) + size (list_to_set e.*2 : gset nat) = 3
         ∧ ∃ d, eventDict st' !! RawEvent e = Some d
                ∧ ed_parent_pops d = elements (list_to_set e.*1 : gset nat))
    ∧ ((∀ p ev, currEvents st !! p = Some ev → is_Some (eventDict st !! ev)) →
       ∀ p ev, currEvents st' !! p = Some ev → is_Some (eventDict st' !! ev)).
Proof.
  induction events as [|e events IH]; intros st st' Hloop.
  - injection Hloop as <-. split; [|split; [done|split; [|done]]].
    + intros ev. split; [by left|]. intros [?|(e & He & _)]; [done|].
      by apply elem_of_nil in He.
    + intros e He. by apply elem_of_nil in He.
  - cbn [tree_loop] in Hloop. destruct (tree_step st e) as [st1| |] eqn:Hstep; [|done..].
    cbn [rbind] in Hloop.
    destruct (tree_step_eventDict _ _ _ Hstep) as (Hlen & Hsize & (d & Hd & Hpp) & Hcur).
    destruct (IH _ _ Hloop) as (IH1 & IH2 & IH3 & IH4).
    split; [|split; [|split]].
    + intros ev. rewrite IH1, Hd. rewrite lookup_insert_is_Some.
      split.
      * intros [[<-|[_ ?]]|(e' & He' & ->)].
        -- right. exists e. split; [left | done].
        -- by left.
        -- right. exists e'. split; [by right | done].
      * intros [?|(e' & He' & ->)].
        -- left. destruct (decide (RawEvent e = ev)); [by left | by right].
        -- apply elem_of_cons in He' as [->|He'].
           ++ left. by left.
           ++ right. by exists e'.
    + intros l. rewrite IH2, Hd. by rewrite lookup_insert_ne.
    + intros e' He'. destruct (decide (e' ∈ events)) as [Hin|Hnin].
      * by apply IH3.
      * apply elem_of_cons in He' as [->|?]; [|done].
        split; [done|]. split; [done|].
        assert (eventDict st' !! RawEvent e = eventDict st1 !! RawEvent e) as ->.
        { clear -Hloop Hnin. revert st1 Hloop.
          induction events as [|e2 events IHe]; intros st1 Hloop.
          - by injection Hloop as <-.
          - cbn [tree_loop] in Hloop.
            destruct (tree_step st1 e2) as [st2| |] eqn:Hstep; [|done..].
            cbn [rbind] in Hloop.
            destruct (tree_step_eventDict _ _ _ Hstep) as (_ & _ & (d2 & Hd2 & _) & _).
            rewrite (IHe ltac:(set_solver) _ Hloop), Hd2.
            rewrite lookup_insert_ne; [done|]. intros [= ->]. set_solver. }
        exists d. rewrite Hd. by rewrite lookup_insert_eq.
    + intros Hinv. apply IH4. intros p ev Hp. rewrite Hd.
      apply lookup_insert_is_Some.
      destruct (Hcur p ev Hp) as [->|Hp']; [by left|].
      destruct (decide (RawEvent e = ev)); [by left|]. right. split; [done|].
      by eapply Hinv.
Qed.

Lemma eventTree_Ok_inv (G : Demography) (T : EventTree) :
  eventTree G = Ok T →
  ∃ st p, tree_loop (tree_init (leaves G)) (graph_events G) = Ok st
          ∧ et_node T = eventDict st ∧ et_edges T = eventEdgeList st
          ∧ currEvents st !! p = Some (et_root T).
Proof.
  unfold eventTree.
  destruct (tree_loop _ _) as [st| |]; [|done..]. cbn [rbind].
  destruct (map_to_list (currEvents st)) as [|[p r] [|? ?]] eqn:Hl; try done.
  intros [= <-]. exists st, p. repeat split.
  apply elem_of_map_to_list. rewrite Hl. left.
Qed.

Lemma tree_init_leaf (L : gset nat) (ev : event) :
  (is_Some (eventDict (tree_init L) !! ev) ↔ ∃ l, l ∈ L ∧ ev = LeafEvent l)
  ∧ (∀ l, l ∈ L → eventDict (tree_init L) !! LeafEvent l = Some (leaf_event_data l))
  ∧ (∀ p ev', currEvents (tree_init L) !! p = Some ev' →
              is_Some (eventDict (tree_init L) !! ev')).
Proof.
  unfold tree_init. cbn [eventDict currEvents].
  assert (∀ ev d, (set_to_map (λ l, (LeafEvent l, leaf_event_data l)) L
                    : gmap event event_data) !! ev = Some d
                  ↔ ∃ l, l ∈ L ∧ ev = LeafEvent l ∧ d = leaf_event_data l) as Hl.
  { intros ev' d. rewrite lookup_set_to_map.
    - split; intros (l & Hl & Heq); exists l; (split; [done|]).
      + by injection Heq as <- <-.
      + by destruct Heq as [-> ->].
    - intros l1 l2 _ _ [= ->]. done. }
  split; [|split].
  - split.
    + intros [d Hd]. apply Hl in Hd as (l & ? & ? & _). by exists l.
    + intros (l & ? & ->). exists (leaf_event_data l). apply Hl. by exists l.
  - intros l Hin. apply Hl. by exists l.
  - intros p ev' Hp. rewrite lookup_set_to_map in Hp by (by intros l1 l2 _ _ [= ->]).
    destruct Hp as (l & Hin & [= <- <-]). exists (leaf_event_data l). apply Hl.
    by exists l.
Qed.

(** Whenever [eventTree] is built, its nodes are the events of the leaves
    and the raw events of the graph, and nothing else.  The event of a leaf
    [l] keeps the data it was created with: [subpops] and [parent_pops] are
    ([l],) and it has no child population.  The [parent_pops] of a raw event
    are the distinct parents of its two edges.  The root is a node of the
    tree, and asking for an event that is not a node raises [KeyError]. *)
Theorem eventTree_nodes (G : Demography) (T : EventTree) :
  eventTree G = Ok T →
  (∀ ev, is_Some (et_node T !! ev)
         ↔ (∃ l, l ∈ leaves G ∧ ev = LeafEvent l)
           ∨ (∃ e, e ∈ graph_events G ∧ ev = RawEvent e))
  ∧ (∀ l, l ∈ leaves G →
       sub_pops G (LeafEvent l) = Ok [l]
       ∧ parent_pops G (LeafEvent l) = Ok [l]
       ∧ child_pops G (LeafEvent l) = Ok ∅)
  ∧ (∀ e, e ∈ graph_events G →
       length e = 2
       ∧ parent_pops G (RawEvent e) = Ok (elements (list_to_set e.*1 : gset nat)))
  ∧ is_Some (et_node T !! et_root T)
  ∧ (∀ ev, et_node T !! ev = None →
       sub_pops G ev = Raise KeyError
       ∧ parent_pops G ev = Raise KeyError
       ∧ child_pops G ev = Raise KeyError).
Proof.
  intros HT. destruct (eventTree_Ok_inv G T HT) as (st & p & Hloop & Hnode & _ & Hroot).
  destruct (tree_loop_eventDict _ _ _ Hloop) as (H1 & H2 & H3 & H4).
  split; [|split; [|split; [|split]]].
  - intros ev. rewrite Hnode, H1.
    by rewrite (proj1 (tree_init_leaf (leaves G) ev)).
  - intros l Hl. unfold sub_pops, parent_pops, child_pops. rewrite HT. cbn [rbind].
    unfold getitem. rewrite Hnode, H2.
    rewrite (proj1 (proj2 (tree_init_leaf (leaves G) (LeafEvent l))) l Hl). done.
  - intros e He. destruct (H3 e He) as (Hlen & _ & d & Hd & Hpp).
    split; [done|]. unfold parent_pops. rewrite HT. cbn [rbind].
    unfold getitem. rewrite Hnode, Hd. cbn [rbind]. by rewrite Hpp.
  - rewrite Hnode. eapply H4; [|exact Hroot].
    apply (proj2 (proj2 (tree_init_leaf (leaves G) (LeafEvent 0)))).
  - intros ev Hev. unfold sub_pops, parent_pops, child_pops. rewrite HT. cbn [rbind].
    unfold getitem. by rewrite Hev.
Qed.

Lemma eventTree_nodes_witness :
  ∃ T, eventTree sample_tree_graph = Ok T
       ∧ (∀ ev, is_Some (et_node T !! ev)
                ↔ (∃ l, l ∈ leaves sample_tree_graph ∧ ev = LeafEvent l)
                  ∨ (∃ e, e ∈ graph_events sample_tree_graph ∧ ev = RawEvent e))
       ∧ (∀ l, l ∈ leaves sample_tree_graph →
            sub_pops sample_tree_graph (LeafEvent l) = Ok [l]
            ∧ parent_pops sample_tree_graph (LeafEvent l) = Ok [l]
            ∧ child_pops sample_tree_graph (LeafEvent l) = Ok ∅)
       ∧ (∀ e, e ∈ graph_events sample_tree_graph →
            length e = 2
            ∧ parent_pops sample_tree_graph (RawEvent e)
              = Ok (elements (list_to_set e.*1 : gset nat)))
       ∧ is_Some (et_node T !! et_root T)
       ∧ (∀ ev, et_node T !! ev = None →
            sub_pops sample_tree_graph ev = Raise KeyError
            ∧ parent_pops sample_tree_graph ev = Raise KeyError
            ∧ child_pops sample_tree_graph ev = Raise KeyError).
Proof.
  eexists. split; [vm_compute; reflexivity|].
  apply (eventTree_nodes sample_tree_graph). vm_compute. reflexivity.
Defined.

(** [event_type] answers ['leaf'] for the event of a leaf without looking at
    the tree.  When the tree is built, every raw event of the graph gets one
    of the three other types, never ['leaf'], and it is an ['admixture']
    exactly when its two edges have two distinct parents, that is, a single
    child; otherwise the number of its successors in the tree decides
    between ['merge_clusters'] and ['merge_subpops']. *)
Theorem event_type_cases (G : Demography) (T : EventTree) :
  (∀ l, event_type G (LeafEvent l) = Ok "leaf")
  ∧ (eventTree G = Ok T →
     ∀ e, e ∈ graph_events G →
       ∃ s, event_type G (RawEvent e) = Ok s
            ∧ (s = "admixture"
               ↔ size (list_to_set e.*1 : gset nat) = 2
                 ∧ size (list_to_set e.*2 : gset nat) = 1)
            ∧ (s = "merge_clusters"
               ↔ size (list_to_set e.*1 : gset nat) = 1
                 ∧ size (list_to_set e.*2 : gset nat) = 2
                 ∧ size (tree_successors T (RawEvent e)) = 2)
            ∧ (s = "merge_subpops"
               ↔ size (list_to_set e.*1 : gset nat) = 1
                 ∧ size (list_to_set e.*2 : gset nat) = 2
                 ∧ size (tree_successors T (RawEvent e)) ≠ 2)).
Proof.
  split; [done|]. intros HT e He.
  destruct (eventTree_Ok_inv G T HT) as (st & p & Hloop & Hnode & _ & _).
  destruct (tree_loop_eventDict _ _ _ Hloop) as (_ & _ & H3 & _).
  destruct (H3 e He) as (Hlen & Hsize & d & Hd & Hpp).
  set (P := list_to_set e.*1 : gset nat) in *.
  set (K := list_to_set e.*2 : gset nat) in *.
  assert (size P ≠ 0) as HP0.
  { destruct e as [|[a b] e']; [done|]. apply size_non_empty_iff.
    unfold P. set_solver. }
  assert (size K ≠ 0) as HK0.
  { destruct e as [|[a b] e']; [done|]. apply size_non_empty_iff.
    unfold K. set_solver. }
  unfold event_type. rewrite Hlen. cbn [Nat.eqb].
  unfold parent_pops. rewrite HT. cbn [rbind]. unfold getitem.
  rewrite Hnode, Hd. cbn [rbind]. rewrite Hpp.
  assert (length (elements P) = size P) as -> by done.
  destruct (Nat.eqb_spec (size P) 2) as [HP2|HP2].
  - eexists; split; [done|]. split; [|split].
    + split; [intros _; lia | done].
    + split; [done | lia].
    + split; [done | lia].
  - cbn [rbind]. destruct (Nat.eqb_spec (size (tree_successors T (RawEvent e))) 2).
    + eexists; split; [done|]. split; [|split].
      * split; [done | lia].
      * split; [intros _; lia | done].
      * split; [done | lia].
    + eexists; split; [done|]. split; [|split].
      * split; [done | lia].
      * split; [done | lia].
      * split; [intros _; lia | done].
Qed.

Lemma event_type_cases_witness :
  ∃ s, event_type sample_admixture_graph (RawEvent [(1, 3); (2, 3)]) = Ok s
       ∧ s = "admixture".
Proof.
  destruct (eventTree sample_admixture_graph) as [T| |] eqn:HT;
    [|vm_compute in HT; discriminate HT..].
  destruct (proj2 (event_type_cases sample_admixture_graph T) HT [(1, 3); (2, 3)])
    as (s & Hs & Hadm & _); [left|].
  exists s. split; [done|]. apply Hadm. split; vm_compute; reflexivity.
Defined.

End event_nodes.

(** ** demography.py: the admixture tensor holds probabilities *)

Lemma comb_nonneg (N k : Z) : 0 <= comb N k.
Proof. unfold comb. destruct (_ && _)%bool; [apply pos_INR | lra]. Qed.

Lemma big_sum_nonneg (f : nat → R) (m : nat) :
  (∀ i, (i < m)%nat → 0 <= f i) → 0 <= big_sum f m.
Proof.
  induction m as [|m IH]; intros Hf; simpl; [lra|].
  pose proof (Hf m ltac:(lia)). pose proof (IH ltac:(intros; apply Hf; lia)). lra.
Qed.

Lemma nth_nonneg (l : list R) (i : nat) :
  Forall (λ x, 0 <= x) l → 0 <= nth i l 0.
Proof.
  intros Hl. destruct (decide (i < length l)%nat) as [Hi|Hi].
  - rewrite Forall_forall in Hl. apply Hl. rewrite nth_lookup.
    destruct (lookup_lt_is_Some_2 l i Hi) as [x Hx]. rewrite Hx. simpl.
    by eapply list_elem_of_lookup_2.
  - rewrite nth_overflow by lia. lra.
Qed.

Lemma der_from_parent_probs_nonneg (n_node k : nat) (der : Z) :
  (k ≤ n_node)%nat → Forall (λ x, 0 <= x) (der_from_parent_probs n_node k der).
Proof.
  intros Hk. apply Forall_forall. intros x Hx. unfold der_from_parent_probs in Hx.
  apply list_elem_of_fmap in Hx as (j & -> & _).
  rewrite comb_of_nat.
  assert (0 < INR (choose n_node k)) by (apply lt_0_INR, choose_pos; lia).
  apply Rmult_le_pos; [|left; by apply Rinv_0_lt_compat].
  apply Rmult_le_pos; apply comb_nonneg.
Qed.

Lemma fftconvolve_nonneg (a b : list R) :
  Forall (λ x, 0 <= x) a → Forall (λ x, 0 <= x) b →
  Forall (λ x, 0 <= x) (fftconvolve a b).
Proof.
  intros Ha Hb. unfold fftconvolve. destruct a as [|a0 a]; [done|].
  destruct b as [|b0 b]; [done|].
  apply Forall_forall. intros x Hx. apply list_elem_of_fmap in Hx as (k & -> & _).
  apply big_sum_nonneg. intros i _. apply Rmult_le_pos; [by apply nth_nonneg|].
  destruct (i <=? k)%nat; [by apply nth_nonneg | lra].
Qed.

Lemma elem_le_sum_listR (l : list R) (x : R) :
  Forall (λ y, 0 <= y) l → x ∈ l → x <= sum_listR l.
Proof.
  induction 1 as [|y l Hy Hl IH]; intros Hx; [by apply elem_of_nil in Hx|].
  assert (0 <= sum_listR l) as Hs.
  { clear -Hl. induction Hl as [|z l Hz _ IHl]; simpl; lra. }
  simpl. apply elem_of_cons in Hx as [->|Hx]; [lra|]. specialize (IH Hx). lra.
Qed.

(** [der_in_admixture_node] answers a probability distribution on
    0..n_node: for an admixture node of n lineages, k of them taken from the
    first parent, and at most n derived lineages in either parent, the
    length assertion passes and the vector has n + 1 entries, each between
    0 and 1, adding up to 1. *)
Theorem der_in_admixture_node_distribution (n k par1 par2 : nat) :
  (k ≤ n)%nat → (par1 ≤ n)%nat → (par2 ≤ n)%nat →
  ∃ d, der_in_admixture_node k (n - k) (Z.of_nat par1) (Z.of_nat par2) = Ok d
       ∧ length d = (n + 1)%nat
       ∧ (∀ x, x ∈ d → 0 <= x <= 1)
       ∧ sum_listR d = 1.
Proof.
  intros Hk Hp1 Hp2.
  destruct (der_in_admixture_node_sum n k par1 par2) as (d & Hd & Hsum); [done..|].
  exists d. split; [done|].
  unfold der_in_admixture_node in Hd. replace (k + (n - k))%nat with n in Hd by lia.
  destruct (Nat.eqb_spec (length (fftconvolve (der_from_parent_probs n k (Z.of_nat par1))
                                 (der_from_parent_probs n (n - k) (Z.of_nat par2))))
              (n + 1)) as [Hlen|]; [|done].
  injection Hd as <-. split; [done|].
  assert (Forall (λ x, 0 <= x)
            (fftconvolve (der_from_parent_probs n k (Z.of_nat par1))
               (der_from_parent_probs n (n - k) (Z.of_nat par2)))) as Hnn.
  { apply fftconvolve_nonneg; apply der_from_parent_probs_nonneg; lia. }
  assert (sum_listR (fftconvolve (der_from_parent_probs n k (Z.of_nat par1))
                       (der_from_parent_probs n (n - k) (Z.of_nat par2))) = 1) as Hs.
  { rewrite sum_listR_big_sum, Hlen. done. }
  split; [|done]. intros x Hx. split.
  - rewrite Forall_forall in Hnn. by apply Hnn.
  - rewrite <- Hs. by apply elem_le_sum_listR.
Qed.

Lemma der_in_admixture_node_distribution_witness :
  ∃ d, der_in_admixture_node 1 (2 - 1) (Z.of_nat 1) (Z.of_nat 2) = Ok d
       ∧ length d = (2 + 1)%nat
       ∧ (∀ x, x ∈ d → 0 <= x <= 1)
       ∧ sum_listR d = 1.
Proof. apply (der_in_admixture_node_distribution 2 1 1 2); lia. Defined.

(** ** demography.py: the failures of [admixture_prob] *)

(** [admixture_prob] on a node whose lineage count is known: a node that has
    not exactly two incoming edges makes the unpacking fail with
    [ValueError]; missing split probabilities raise [KeyError]; split
    probabilities that do not add up to 1 fail the assertion. *)
Theorem admixture_prob_failures (G : Demography) (node : nat)
    (lin : gmap nat Z) (n : Z) :
  n_lineages_at_node G = Ok lin → lin !! node = Some n →
  (length (in_edges G node) ≠ 2%nat → admixture_prob G node = Raise ValueError)
  ∧ (∀ edge1 edge2, in_edges G node = [edge1; edge2] →
       (splitprobs G !! node = None → admixture_prob G node = Raise KeyError)
       ∧ (∀ sp, splitprobs G !! node = Some sp →
            (sp !! edge1.1 = None ∨ sp !! edge2.1 = None →
             admixture_prob G node = Raise KeyError)
            ∧ (∀ prob1 prob2, sp !! edge1.1 = Some prob1 →
                 sp !! edge2.1 = Some prob2 → prob1 + prob2 ≠ 1 →
                 admixture_prob G node = Raise AssertionError))).
Proof.
  intros Hlin Hn.
  assert (∀ r, (n' ←r getitem lin node;
                match in_edges G node with
                | [edge1; edge2] =>
                    sp ←r getitem (splitprobs G) node;
                    prob1 ←r getitem sp edge1.1;
                    prob2 ←r getitem sp edge2.1;
                    if Req_dec_T (prob1 + prob2) 1 then
                      entries ←r result_mapM
                                   (λ '(c, p1, p2),
                                      x ←r admixture_entry (Z.to_nat n') prob1 prob2
                                             c p1 p2;
                                      Ok ((c, p1, p2), x))
                                   (range3 (Z.to_nat (n' + 1)));
                      Ok {| la_array :=
                              {| shape := if (Z.to_nat (n' + 1) =? 0)%nat then [0%nat]
                                          else [Z.to_nat (n' + 1); Z.to_nat (n' + 1);
                                                Z.to_nat (n' + 1)];
                                 item := λ idx,
                                   match idx with
                                   | [c; p1; p2] =>
                                       default 0 ((list_to_map entries
                                                     : gmap (nat * nat * nat) R)
                                                    !! (c, p1, p2))
                                   | _ => 0
                                   end |};
                            la_labels := [node; edge1.1; edge2.1] |}
                    else Raise AssertionError
                | _ => Raise ValueError
                end) = r → admixture_prob G node = r) as Hunf.
  { intros r <-. unfold admixture_prob. by rewrite Hlin. }
  split.
  - intros Hlen. apply Hunf. unfold getitem. rewrite Hn. cbn [rbind].
    destruct (in_edges G node) as [|e1 [|e2 [|e3 l]]]; done.
  - intros edge1 edge2 Hedges. split.
    + intros Hsp. apply Hunf. unfold getitem. rewrite Hn. cbn [rbind].
      rewrite Hedges, Hsp. reflexivity.
    + intros sp Hsp. split.
      * intros Hor. apply Hunf. unfold getitem. rewrite Hn. cbn [rbind].
        rewrite Hedges, Hsp. cbn [rbind]. destruct Hor as [H1|H2].
        -- rewrite H1. reflexivity.
        -- rewrite H2. destruct (sp !! edge1.1); reflexivity.
      * intros prob1 prob2 H1 H2 Hne. apply Hunf. unfold getitem.
        rewrite Hn. cbn [rbind]. rewrite Hedges, Hsp. cbn [rbind].
        rewrite H1, H2. cbn [rbind].
        destruct (Req_dec_T (prob1 + prob2) 1); [done | reflexivity].
Qed.

Lemma admixture_prob_failures_witness :
  admixture_prob sample_admixture_graph 1 = Raise ValueError.
Proof.
  destruct (admixture_prob_failures sample_admixture_graph 1
              (list_to_map [(0%nat, 2%Z); (1%nat, 1%Z); (2%nat, 1%Z); (3%nat, 1%Z)])
              1%Z) as [Hv _].
  - vm_compute. reflexivity.
  - reflexivity.
  - apply Hv. vm_compute. intros Heq. discriminate Heq.
Defined.

(** ** demography.py: the state [log_likelihood_prf] leaves behind *)

Lemma prf_step_nodes `{SumProduct} (theta : R) (G Ga Gb : Demography)
    (acc acc' : R) (it : list Z * nat) :
  observation_only G Ga → length it.1 = size (leaves G) →
  prf_step theta (merge_sort le (elements (leaves G))) acc it Ga = (Ok acc', Gb) →
  structure_kept Ga Gb ∧ nodes Gb = nodes (with_config G it.1).
Proof.
  destruct it as [states w]. cbn [fst snd]. intros Ho Hlen H0. unfold prf_step in H0.
  m_inv H0 st G1 H1. apply m_read_inv in H1 as [H1 ->].
  apply (config_state_Ok G) in H1; [|done]. subst st.
  m_inv H0 u1 G1 H1.
  apply update_state_Ok_apply in H1 as [Hs1 Hn1];
    [|rewrite config_list_keys by done; apply sorted_leaves_spec].
  rewrite apply_state_observation in Hn1 by done.
  m_inv H0 u2 G2 H2. apply engine_call_kept in H2 as [Hn2 Hs2].
  m_inv H0 p G3 H3. pose proof (engine_call_kept _ _ _ _ H3) as [Hn3 Hs3].
  m_inv H0 l G4 H4. apply m_read_inv in H4 as [H4 ->]. injection H0 as _ <-.
  split.
  - eapply structure_kept_trans; [|exact Hs3].
    eapply structure_kept_trans; [exact Hs1 | exact Hs2].
  - rewrite Hn3, Hn2, Hn1. done.
Qed.

Lemma prf_loop_nodes `{SumProduct} (theta : R) (G : Demography)
    (items : list (list Z * nat)) :
  ∀ (acc : R) (Ga G' : Demography) (r : R),
    observation_only G Ga →
    (∀ it, it ∈ items → length it.1 = size (leaves G)) →
    m_foldl (prf_step theta (merge_sort le (elements (leaves G)))) acc items Ga
    = (Ok r, G') →
    structure_kept Ga G'
    ∧ match last items with
      | Some it => nodes G' = nodes (with_config G it.1)
      | None => G' = Ga
      end.
Proof.
  induction items as [|it items IH]; intros acc Ga G' r Ho Hlen H0.
  - injection H0 as _ <-. split; [apply structure_kept_refl | done].
  - cbn [m_foldl] in H0. m_inv H0 acc1 G1 H1.
    pose proof (prf_step_spec theta G _ _ _ _ _ Ho (Hlen it ltac:(left)) H1)
      as (Ho1 & _ & _).
    apply (prf_step_nodes theta G) in H1 as [Hs1 Hn1]; [|done|apply Hlen; left].
    apply IH in H0 as [Hs' Hl']; [|done|intros; apply Hlen; by right].
    split; [by eapply structure_kept_trans|].
    destruct items as [|it2 items].
    + cbn [last] in *. by subst G'.
    + change (last (it :: it2 :: items)) with (last (it2 :: items)).
      destruct (last (it2 :: items)) eqn:Hl2; [exact Hl'|].
      by apply last_None in Hl2.
Qed.

(** [log_likelihood_prf] does not put the observation state back: when it
    returns, the leaves hold the configuration that comes last in the sorted
    order of [sfs], the topology is unchanged, and the value of
    [totalSfsSum] is stored on the graph. *)
Theorem log_likelihood_prf_final_state `{SumProduct} (theta : R)
    (sfs : gmap (list Z) nat) (G G' : Demography) (r : R) :
  (∀ states w, sfs !! states = Some w → length states = size (leaves G)) →
  log_likelihood_prf theta sfs G = (Ok r, G') →
  topology_kept G G'
  ∧ (∃ c G1, totalSfsSum G = (Ok c, G1) ∧ totalSfsSum_cache G' = Some c)
  ∧ ∀ states w, last (merge_sort item_le (map_to_list sfs)) = Some (states, w) →
      nodes G' = nodes (with_config G states)
      ∧ ∀ v b, (v, b) ∈ zip (merge_sort le (elements (leaves G))) states →
               attribute G' v "derived" = Some b.
Proof.
  intros Hlen H0. unfold log_likelihood_prf in H0. m_inv H0 ret G1 H1.
  unfold m_assert_return in H0. destruct (Rlt_dec ret 0); [|done].
  injection H0 as _ ->. unfold log_likelihood_prf_value in H1.
  m_inv H1 c G2 H2. pose proof (totalSfsSum_spec _ _ _ H2) as [Ho _].
  assert (totalSfsSum_cache G2 = Some c) as Hc.
  { unfold totalSfsSum in H2. destruct (totalSfsSum_cache G) as [c'|] eqn:Hc'.
    - by injection H2 as <- <-.
    - destruct (normalizing_constant G) as [[x| |] G0]; try done.
      by injection H2 as <- <-. }
  m_inv H1 lvs G2' H3. apply m_read_inv in H3 as [[= <-] ->].
  rewrite (observation_only_leaves G G2) in H1 by done.
  pose proof (merge_sort_Permutation item_le (map_to_list sfs)) as Hperm.
  assert (∀ it, it ∈ merge_sort item_le (map_to_list sfs) →
                length it.1 = size (leaves G)) as Hlen'.
  { intros [states w] Hin. rewrite Hperm in Hin.
    apply elem_of_map_to_list in Hin. by eapply Hlen. }
  pose proof (prf_loop_spec theta G _ _ _ _ _ Ho Hlen' H1) as (Ho' & _ & _).
  apply (prf_loop_nodes theta G) in H1 as [Hs Hl]; [|done..].
  split; [by destruct Ho' as [? _]|]. split.
  - exists c, G2. split; [done|]. destruct Hs as (_ & _ & _ & ->). done.
  - intros states w Hlast. rewrite Hlast in Hl. cbn [fst] in Hl. split; [done|].
    intros v b Hvb. unfold attribute. rewrite Hl. unfold with_config.
    cbn [nodes set_nodes]. unfold apply_state. rewrite map_lookup_imap.
    assert (length states = size (leaves G)) as Hst.
    { apply (Hlen' (states, w)). by eapply last_Some_elem_of. }
    assert ((v, {[ "derived" := b; "ancestral" := (lineages_of G v - b)%Z ]})
              ∈ config_list G states) as Hin.
    { unfold config_list. apply list_elem_of_fmap. by exists (v, b). }
    assert (v ∈ leaves G) as Hv.
    { apply elem_of_zip_l in Hvb. by apply (sorted_leaves_spec G) in Hvb. }
    assert (is_Some (nodes G !! v)) as [ndv Hndv].
    { unfold leaves in Hv. apply elem_of_filter in Hv as [_ Hv].
      by apply elem_of_dom in Hv. }
    rewrite Hndv. cbn [mbind option_bind].
    rewrite (elem_of_list_to_map_1 (config_list G states) v
               {[ "derived" := b; "ancestral" := (lineages_of G v - b)%Z ]});
      [| |exact Hin].
    2:{ rewrite config_list_keys by done. apply sorted_leaves_spec. }
    cbn [mbind option_bind]. rewrite lookup_union.
    rewrite lookup_insert_eq. by destruct (ndv !! "derived").
Qed.

Lemma log_likelihood_prf_final_state_witness :
  ∃ r G',
    @log_likelihood_prf sample_engine 1 sample_sfs sample_tree_graph = (Ok r, G')
    ∧ topology_kept sample_tree_graph G'
    ∧ (∃ c G1, @totalSfsSum sample_engine sample_tree_graph = (Ok c, G1)
               ∧ totalSfsSum_cache G' = Some c)
    ∧ ∀ states w,
        last (merge_sort item_le (map_to_list sample_sfs)) = Some (states, w) →
        nodes G' = nodes (with_config sample_tree_graph states)
        ∧ ∀ v b, (v, b) ∈ zip (merge_sort le (elements (leaves sample_tree_graph)))
                               states →
                 attribute G' v "derived" = Some b.
Proof.
  destruct sample_run_prf as (r & G' & Hrun). exists r, G'. split; [done|].
  apply (@log_likelihood_prf_final_state sample_engine 1 sample_sfs
           sample_tree_graph G' r); [|done].
  unfold sample_sfs. intros states w [<- _]%lookup_singleton_Some.
  vm_compute. reflexivity.
Defined.

(** ** size_history.py: transitions along a piecewise history *)




(** ** demography.py: [normalizing_constant] when the engine fails *)

Lemma fst_fmap_pair {A B} (g : A → B) (l : list A) :
  ((λ v, (v, g v)) <$> l).*1 = l.
Proof. induction l as [|a l IH]; [done|]. rewrite !fmap_cons. by rewrite IH. Qed.

Lemma all_ancestral_state_is_Ok (G : Demography) (lv : list nat) :
  (∀ v, v ∈ lv → is_Some (attribute G v "lineages")) →
  all_ancestral_state G lv
  = Ok ((λ v, (v, ({[ "derived" := 0%Z; "ancestral" := lineages_of G v ]}
                     : gmap string Z))) <$> lv).
Proof.
  intros Hl. unfold all_ancestral_state. apply result_mapM_Ok. intros v Hv.
  destruct (Hl v Hv) as [n Hn]. unfold lineages_of. rewrite Hn.
  unfold attribute in Hn. unfold getitem.
  destruct (nodes G !! v) as [nd|]; [|done]. cbn [rbind mbind option_bind] in *.
  by rewrite Hn.
Qed.

(** [normalizing_constant] has no handler around its engine calls: when the
    constructor of the engine raises, the exception leaves the function
    with every leaf holding the all-ancestral state written for that call
    (derived 0, ancestral equal to its lineages), whatever the leaves held
    on entry. *)
Theorem normalizing_constant_engine_failure `{SumProduct} (G : Demography)
    (e : exn) :
  (∀ v, v ∈ leaves G → is_Some (attribute G v "lineages")) →
  let st := (λ v, (v, ({[ "derived" := 0%Z; "ancestral" := lineages_of G v ]}
                         : gmap string Z))) <$> elements (leaves G) in
  let G1 := set_n_derived_cached (set_nodes G (apply_state st (nodes G))) false in
  (sp_new (uncached G1)).1 = Raise e →
  ∃ G', normalizing_constant G = (Raise e, G')
        ∧ nodes G' = nodes G1
        ∧ ∀ v, v ∈ leaves G →
            attribute G' v "derived" = Some 0%Z
            ∧ attribute G' v "ancestral" = Some (lineages_of G v).
Proof.
  intros Hlin st G1 Hnew.
  assert (NoDup st.*1) as Hnd.
  { unfold st. rewrite fst_fmap_pair. apply NoDup_elements. }
  assert (∀ v u, (v, u) ∈ st →
            v ∈ leaves G
            ∧ u = {[ "derived" := 0%Z; "ancestral" := lineages_of G v ]}) as Hst.
  { intros v u Hin. unfold st in Hin.
    apply list_elem_of_fmap in Hin as (v' & [= -> ->] & Hv').
    by apply elem_of_elements in Hv'. }
  assert (∀ v u, (v, u) ∈ st →
            ∃ ndv, nodes G !! v = Some ndv ∧ state_mismatch (u ∪ ndv) = Ok false)
    as Hchk.
  { intros v u Hvu. destruct (Hst v u Hvu) as [Hv ->].
    destruct (Hlin v Hv) as [n Hn]. unfold attribute in Hn.
    destruct (nodes G !! v) as [ndv|] eqn:Hndv; [|done].
    cbn [mbind option_bind] in Hn. exists ndv. split; [done|].
    unfold state_mismatch, getitem. rewrite !pair_union_lookup.
    rewrite (decide_False (P := "lineages" = "derived")) by done.
    rewrite (decide_False (P := "lineages" = "ancestral")) by done.
    rewrite (decide_True (P := "derived" = "derived")) by done.
    rewrite (decide_False (P := "ancestral" = "derived")) by done.
    rewrite (decide_True (P := "ancestral" = "ancestral")) by done.
    rewrite Hn. cbn [rbind]. f_equal. apply negb_false_iff, Z.eqb_eq.
    unfold lineages_of, attribute. rewrite Hndv. cbn [mbind option_bind].
    rewrite Hn. simpl. lia. }
  assert (∀ v, v ∈ leaves G →
            attribute (set_nodes G (apply_state st (nodes G))) v "derived" = Some 0%Z
            ∧ attribute (set_nodes G (apply_state st (nodes G))) v "ancestral"
              = Some (lineages_of G v)) as Hattr.
  { intros v Hv.
    assert ((v, {[ "derived" := 0%Z; "ancestral" := lineages_of G v ]}) ∈ st) as Hvst.
    { unfold st. apply list_elem_of_fmap. exists v. split; [done|].
      by apply elem_of_elements. }
    destruct (Hchk _ _ Hvst) as (ndv & Hndv & _).
    split; rewrite (apply_state_attribute_in st G v _ _ Hnd Hvst) by (by eexists).
    - by rewrite lookup_insert_eq.
    - rewrite lookup_insert_ne by done. by rewrite lookup_singleton_eq. }
  pose proof (update_state_Ok st G Hnd Hchk) as Hok. cbn zeta in Hok.
  assert ((n_derived_cached G
           || n_derived_computable (set_nodes G (apply_state st (nodes G))))%bool
          = true) as Hor.
  { apply orb_true_iff. right. unfold n_derived_computable.
    rewrite bool_decide_eq_true, apply_state_leaves.
    intros l Hl. destruct (Hattr l Hl) as [Hd _].
    unfold attribute in Hd. rewrite Hd. by eexists. }
  specialize (Hok Hor).
  fold G1 in Hok.
  exists (set_n_derived_cached G1 (n_derived_cached G1 || (sp_new (uncached G1)).2)).
  split; [|split; [done|]].
  - unfold normalizing_constant, normalizing_constant_value.
    unfold m_bind at 1. unfold m_bind at 1. unfold m_read at 1.
    rewrite all_ancestral_state_is_Ok by (intros v Hv; apply Hlin; by apply elem_of_elements).
    fold st. unfold m_bind at 1. rewrite Hok.
    unfold m_bind at 1. unfold engine_call at 1.
    destruct (sp_new (uncached G1)) as [r b] eqn:Hr. cbn [fst snd] in *.
    by rewrite Hnew.
  - intros v Hv. apply (Hattr v Hv).
Qed.

Lemma normalizing_constant_engine_failure_witness :
  ∃ G', @normalizing_constant sample_broken_engine sample_observed_graph
        = (Raise RuntimeError, G')
        ∧ attribute sample_observed_graph 1 "derived" = Some 1%Z
        ∧ attribute G' 1 "derived" = Some 0%Z
        ∧ attribute G' 1 "ancestral" = Some 2%Z.
Proof.
  destruct (@normalizing_constant_engine_failure sample_broken_engine
              sample_observed_graph RuntimeError) as (G' & Hrun & _ & Hattr).
  - apply (bool_decide_unpack _). vm_compute. exact I.
  - reflexivity.
  - exists G'. split; [done|]. split; [vm_compute; reflexivity|].
    destruct (Hattr 1%nat) as [Hd Ha].
    { apply (bool_decide_unpack _). vm_compute. exact I. }
    split; [done|]. rewrite Ha. vm_compute. reflexivity.
Defined.

(** ** data/compressed_counts.py: the compressed list *)

Lemma seq_getitem_nat {A} (l : list A) (i : nat) (x : A) :
  l !! i = Some x →
  seq_getitem l (Z.of_nat i) = Ok x
  ∧ seq_getitem l (Z.of_nat i - Z.of_nat (length l)) = Ok x.
Proof.
  intros Hx. pose proof (lookup_lt_Some _ _ _ Hx) as Hlt. unfold seq_getitem. split.
  - destruct (Z.ltb_spec (Z.of_nat i) 0); [lia|].
    destruct (Z.leb_spec 0 (Z.of_nat i)); [|lia].
    destruct (Z.ltb_spec (Z.of_nat i) (Z.of_nat (length l))); [|lia].
    cbn [andb]. by rewrite Nat2Z.id, Hx.
  - destruct (Z.ltb_spec (Z.of_nat i - Z.of_nat (length l)) 0); [|lia].
    replace (Z.of_nat i - Z.of_nat (length l) + Z.of_nat (length l))%Z
      with (Z.of_nat i) by lia.
    destruct (Z.leb_spec 0 (Z.of_nat i)); [|lia].
    destruct (Z.ltb_spec (Z.of_nat i) (Z.of_nat (length l))); [|lia].
    cbn [andb]. by rewrite Nat2Z.id, Hx.
Qed.

Lemma seq_getitem_out {A} (l : list A) (i : Z) :
  (i < - Z.of_nat (length l) ∨ Z.of_nat (length l) ≤ i)%Z →
  seq_getitem l i = Raise IndexError.
Proof.
  intros Hi. unfold seq_getitem.
  destruct (Z.ltb_spec i 0).
  - destruct (Z.leb_spec 0 (i + Z.of_nat (length l))); [lia | done].
  - destruct (Z.leb_spec 0 i); [|done].
    destruct (Z.ltb_spec i (Z.of_nat (length l))); [lia | done].
Qed.

Lemma compressed_init {V} `{Countable V} :
  compressed (CompressedList_init : CompressedList V) [].
Proof.
  split; cbn [CompressedList_init uniq_values value2uniq cl_index2uniq].
  - intros v u. by rewrite lookup_empty, lookup_nil.
  - constructor.
  - done.
  - intros i x Hx. by rewrite lookup_nil in Hx.
  - done.
Qed.

Lemma compressed_append {V} `{Countable V} (cl : CompressedList V) (vs : list V)
    (x : V) :
  compressed cl vs → compressed (CompressedList_append cl x) (vs ++ [x]).
Proof.
  intros [Hidx Hnd Hlen Hitems Hvals]. unfold CompressedList_append.
  destruct (value2uniq cl !! x) as [ux|] eqn:Hx.
  - pose proof (proj1 (Hidx x ux) Hx) as Hux.
    split; cbn [uniq_values value2uniq cl_index2uniq].
    + done.
    + done.
    + rewrite !length_app, Hlen. done.
    + intros i y Hy. apply lookup_app_Some in Hy as [Hy|[Hi Hy]].
      * destruct (Hitems i y Hy) as (u & Hu & Huy). exists u.
        split; [|done]. by apply lookup_app_l_Some.
      * apply list_lookup_singleton_Some in Hy as [Hi0 <-].
        exists ux. split; [|done]. rewrite lookup_app_r by lia.
        rewrite Hlen. replace (i - length vs)%nat with 0%nat by lia. done.
    + intros v. rewrite elem_of_app, list_elem_of_singleton, Hvals.
      split; [tauto|]. intros [?| ->]; [done|]. apply Hvals.
      by eapply list_elem_of_lookup_2.
  - assert (x ∉ uniq_values cl) as Hnew.
    { intros Hin. apply list_elem_of_lookup in Hin as [u Hu].
      apply Hidx in Hu. congruence. }
    split; cbn [uniq_values value2uniq cl_index2uniq].
    + intros v u. destruct (decide (v = x)) as [->|Hne].
      * rewrite lookup_insert_eq. split.
        -- intros [= <-]. rewrite lookup_app_r by lia.
           by rewrite Nat.sub_diag.
        -- intros Hu. apply lookup_app_Some in Hu as [Hu|[Hi Hu]].
           ++ exfalso. apply Hnew. by eapply list_elem_of_lookup_2.
           ++ apply list_lookup_singleton_Some in Hu as [Hu _]. f_equal. lia.
      * rewrite lookup_insert_ne by done. rewrite Hidx. split.
        -- intros Hu. by apply lookup_app_l_Some.
        -- intros Hu. apply lookup_app_Some in Hu as [Hu|[_ Hu]]; [done|].
           apply list_lookup_singleton_Some in Hu as [_ ?]. congruence.
    + apply NoDup_app. split; [done|]. split; [|apply NoDup_singleton].
      intros v Hv ->%list_elem_of_singleton. done.
    + rewrite !length_app, Hlen. done.
    + intros i y Hy. apply lookup_app_Some in Hy as [Hy|[Hi Hy]].
      * destruct (Hitems i y Hy) as (u & Hu & Huy). exists u.
        split; by apply lookup_app_l_Some.
      * apply list_lookup_singleton_Some in Hy as [Hi0 <-].
        exists (length (uniq_values cl)). split.
        -- rewrite lookup_app_r by lia. rewrite Hlen.
           replace (i - length vs)%nat with 0%nat by lia. done.
        -- rewrite lookup_app_r by lia. by rewrite Nat.sub_diag.
    + intros v. rewrite !elem_of_app, !list_elem_of_singleton, Hvals. done.
Qed.

Lemma compressed_foldl {V} `{Countable V} (vs : list V) :
  compressed (foldl CompressedList_append CompressedList_init vs) vs.
Proof.
  induction vs as [|x vs IH] using rev_ind; [apply compressed_init|].
  rewrite foldl_app. cbn [foldl]. by apply compressed_append.
Qed.

(** Appending the values [vs] one after the other to an empty
    [_CompressedList] gives a list of the same length whose item [i] is
    [vs[i]], for indices counted from the start or from the end; an index
    out of range raises [IndexError].  The distinct values are stored once
    each, and [value2uniq] maps every one of them to its position. *)
Theorem compressed_list_roundtrip {V} `{Countable V} (vs : list V) :
  let cl := foldl CompressedList_append CompressedList_init vs in
  CompressedList_len cl = length vs
  ∧ (∀ i x, vs !! i = Some x →
       CompressedList_getitem cl (Z.of_nat i) = Ok x
       ∧ CompressedList_getitem cl (Z.of_nat i - Z.of_nat (length vs)) = Ok x)
  ∧ (∀ i, (i < - Z.of_nat (length vs) ∨ Z.of_nat (length vs) ≤ i)%Z →
       CompressedList_getitem cl i = Raise IndexError)
  ∧ NoDup (uniq_values cl)
  ∧ (∀ v, v ∈ uniq_values cl ↔ v ∈ vs)
  ∧ (∀ v u, value2uniq cl !! v = Some u ↔ uniq_values cl !! u = Some v).
Proof.
  intros cl. destruct (compressed_foldl vs) as [Hidx Hnd Hlen Hitems Hvals].
  fold cl in Hidx, Hnd, Hlen, Hitems, Hvals.
  split; [done|]. split; [|split; [|done]].
  - intros i x Hx. destruct (Hitems i x Hx) as (u & Hu & Hux).
    unfold CompressedList_getitem.
    destruct (seq_getitem_nat _ _ _ Hu) as [-> H2]. rewrite Hlen in H2. rewrite H2.
    cbn [rbind]. by destruct (seq_getitem_nat _ _ _ Hux) as [-> _].
  - intros i Hi. unfold CompressedList_getitem.
    rewrite seq_getitem_out by (by rewrite Hlen). done.
Qed.

Lemma compressed_list_roundtrip_witness :
  let cl := foldl CompressedList_append CompressedList_init
                  ["a"; "b"; "a"]%string in
  CompressedList_len cl = 3%nat
  ∧ CompressedList_getitem cl (-1) = Ok "a"%string
  ∧ CompressedList_getitem cl 3 = Raise IndexError
  ∧ uniq_values cl = ["a"; "b"]%string.
Proof.
  intros cl.
  destruct (compressed_list_roundtrip ["a"; "b"; "a"]%string)
    as (Hlen & Hget & Hout & _).
  split; [exact Hlen|]. split; [|split; [|reflexivity]].
  - exact (proj2 (Hget 2%nat "a"%string eq_refl)).
  - apply Hout. right. simpl. lia.
Defined.

(** ** data/compressed_counts.py: sorting the configurations *)


Lemma tuple_leb_total (a b : list Z) : tuple_leb a b = false → tuple_leb b a = true.
Proof.
  revert b. induction a as [|x a IH]; intros [|y b]; cbn [tuple_leb]; try done.
  destruct (Z.ltb_spec x y), (Z.eqb_spec x y), (Z.ltb_spec y x), (Z.eqb_spec y x);
    try done; try lia. apply IH.
Qed.

Lemma tuple_leb_trans (a b c : list Z) :
  tuple_leb a b = true → tuple_leb b c = true → tuple_leb a c = true.
Proof.
  revert b c. induction a as [|x a IH]; intros [|y b] [|z c]; cbn [tuple_leb];
    try done.
  destruct (Z.ltb_spec x y), (Z.eqb_spec x y), (Z.ltb_spec y z), (Z.eqb_spec y z),
    (Z.ltb_spec x z), (Z.eqb_spec x z); try done; try lia. apply IH.
Qed.

Lemma tuple_leb_antisym (a b : list Z) :
  tuple_leb a b = true → tuple_leb b a = true → a = b.
Proof.
  revert b. induction a as [|x a IH]; intros [|y b]; cbn [tuple_leb]; try done.
  destruct (Z.ltb_spec x y), (Z.eqb_spec x y), (Z.ltb_spec y x), (Z.eqb_spec y x);
    try done; try lia. intros H1 H2. subst. f_equal. by apply IH.
Qed.

(** [a <= b] on keys, as the negation of [b < a]. *)
Lemma key_ltb_false (k1 k2 : list Z * list Z) :
  key_ltb k2 k1 = false
  ↔ (k1.1 = k2.1 ∧ tuple_leb k1.2 k2.2 = true)
    ∨ (k1.1 ≠ k2.1 ∧ tuple_leb k1.1 k2.1 = true).
Proof.
  unfold key_ltb, tuple_ltb. destruct (decide (k2.1 = k1.1)) as [Heq|Hne].
  - rewrite negb_false_iff. split; [intros ?; left; by split|].
    intros [[_ ?]|[Hn _]]; [done | congruence].
  - rewrite negb_false_iff. split; [intros ?; right; split; [congruence | done]|].
    intros [[? _]|[_ ?]]; [congruence | done].
Qed.

Lemma key_ltb_asym (k1 k2 : list Z * list Z) :
  key_ltb k1 k2 = true → key_ltb k2 k1 = false.
Proof.
  intros Hlt. apply key_ltb_false. unfold key_ltb, tuple_ltb in Hlt.
  destruct (decide (k1.1 = k2.1)) as [Heq|Hne]; apply negb_true_iff in Hlt;
    apply tuple_leb_total in Hlt; [by left | by right].
Qed.

Lemma key_le_trans (k1 k2 k3 : list Z * list Z) :
  key_ltb k2 k1 = false → key_ltb k3 k2 = false → key_ltb k3 k1 = false.
Proof.
  rewrite !key_ltb_false. intros [[E1 L1]|[N1 L1]] [[E2 L2]|[N2 L2]].
  - left. split; [congruence|]. by eapply tuple_leb_trans.
  - right. rewrite E1. by split.
  - right. rewrite <- E2. by split.
  - right. split; [|by eapply tuple_leb_trans].
    intros Heq. rewrite <- Heq in L2. apply N1. by apply tuple_leb_antisym.
Qed.

Lemma insert_sorted_perm {A} (lt : A → A → bool) (x : A) (l : list A) :
  insert_sorted lt x l ≡ₚ x :: l.
Proof.
  induction l as [|y l IH]; [done|]. cbn [insert_sorted].
  destruct (lt y x); [|done]. rewrite IH. apply Permutation_swap.
Qed.

Lemma py_sorted_perm {A} (lt : A → A → bool) (l : list A) : py_sorted lt l ≡ₚ l.
Proof.
  induction l as [|x l IH]; [done|]. unfold py_sorted in *. cbn [foldr].
  rewrite insert_sorted_perm. by rewrite IH.
Qed.

Lemma insert_sorted_sorted {A} (lt : A → A → bool) (x : A) (l : list A) :
  (∀ a b, lt a b = true → lt b a = false) →
  (∀ a b c, lt b a = false → lt c b = false → lt c a = false) →
  StronglySorted (λ a b, lt b a = false) l →
  StronglySorted (λ a b, lt b a = false) (insert_sorted lt x l).
Proof.
  intros Hasym Htrans. induction 1 as [|y l Hl IH Hy]; cbn [insert_sorted].
  - repeat constructor.
  - destruct (lt y x) eqn:Hyx.
    + constructor; [done|]. rewrite insert_sorted_perm. constructor; [|done].
      by apply Hasym.
    + constructor; [by constructor|]. constructor; [done|].
      eapply Forall_impl; [exact Hy|]. intros z Hz. by eapply Htrans.
Qed.

Lemma py_sorted_sorted {A} (lt : A → A → bool) (l : list A) :
  (∀ a b, lt a b = true → lt b a = false) →
  (∀ a b c, lt b a = false → lt c b = false → lt c a = false) →
  StronglySorted (λ a b, lt b a = false) (py_sorted lt l).
Proof.
  intros Hasym Htrans. induction l as [|x l IH]; [constructor|].
  unfold py_sorted in *. cbn [foldr]. by apply insert_sorted_sorted.
Qed.

(** The loop filling [unsorted_idxs], started at position [k] of the
    enumeration. *)
Lemma unsorted_loop (s : list nat) :
  ∀ (k : nat) (acc : list (option nat)),
    NoDup s → (∀ j, j ∈ s → (j < length acc)%nat) →
    let r := foldl (λ acc (ij : nat * nat), <[ ij.2 := Some ij.1 ]> acc) acc
                   (imap (λ i j, ((k + i)%nat, j)) s) in
    length r = length acc
    ∧ ∀ j, r !! j = if decide (j ∈ s) then Some (Some (k + index_of j s)%nat)
                    else acc !! j.
Proof.
  induction s as [|j0 s IH]; intros k acc Hnd Hlt.
  - cbn. split; [done|]. intros j. rewrite decide_False; [done|]. apply not_elem_of_nil.
  - apply NoDup_cons in Hnd as [Hj0 Hnd].
    rewrite imap_cons. cbn [foldl snd fst].
    rewrite (imap_ext _ (λ i j, ((S k + i)%nat, j))) by (intros; cbn; f_equal; lia).
    destruct (IH (S k) (<[ j0 := Some (k + 0)%nat ]> acc) Hnd) as [Hlen Hr].
    { intros j Hj. rewrite length_insert. apply Hlt. by right. }
    cbv zeta. split; [by rewrite Hlen, length_insert|].
    intros j. rewrite Hr. cbn [index_of].
    destruct (decide (j ∈ s)) as [Hjs|Hjs].
    + rewrite decide_True by (by right).
      destruct (Nat.eqb_spec j0 j) as [->|_]; [done|].
      replace (S k + index_of j s)%nat with (k + S (index_of j s))%nat by lia. done.
    + destruct (decide (j = j0)) as [->|Hne].
      * rewrite decide_True by left. rewrite Nat.eqb_refl.
        rewrite list_lookup_insert_eq by (apply Hlt; left). done.
      * rewrite decide_False by (rewrite elem_of_cons; tauto).
        by rewrite list_lookup_insert_ne.
Qed.

Lemma index_of_elem (s : list nat) (j : nat) :
  j ∈ s → s !! index_of j s = Some j.
Proof.
  induction s as [|a s IH]; [by intros ?%elem_of_nil|]. intros Hj. cbn [index_of].
  destruct (Nat.eqb_spec a j) as [->|Hne]; [done|].
  apply elem_of_cons in Hj as [?|Hj]; [congruence|]. by apply IH.
Qed.

Lemma take_rows_Ok {A} (arr : list A) (idxs : list nat) (g : nat → A) :
  (∀ i, i ∈ idxs → arr !! i = Some (g i)) → take_rows arr idxs = Ok (g <$> idxs).
Proof.
  intros Hg. unfold take_rows. apply result_mapM_Ok. intros i Hi. by rewrite Hg.
Qed.

Lemma sort_configs_spec (c : CompressedAlleleCounts) :
  (∀ u, u ∈ index2uniq c → (u < length (config_array c))%nat) →
  ∃ c', sort_configs c = Ok c'
        ∧ config_array c' ≡ₚ config_array c
        ∧ StronglySorted (λ r1 r2, key_ltb (config_key r2) (config_key r1) = false)
                         (config_array c')
        ∧ counts_len c' = counts_len c
        ∧ ∀ i, counts_getitem c' i = counts_getitem c i.
Proof.
  intros Hrange. unfold sort_configs.
  set (keys := config_key <$> config_array c).
  set (key := λ i, nth i keys ([], [])).
  set (lt := λ i j : nat, key_ltb (key i) (key j)).
  set (s := py_sorted _ (seq 0 (length keys))).
  assert (s = py_sorted lt (seq 0 (length keys))) as Hsdef by done.
  clearbody s.
  set (U := length (config_array c)).
  assert (length keys = U) as HU by (unfold keys; by rewrite length_fmap).
  assert (s ≡ₚ seq 0 U) as Hperm by (rewrite Hsdef, HU; apply py_sorted_perm).
  assert (NoDup s) as Hnd by (rewrite Hperm; apply NoDup_seq).
  assert (∀ j, j ∈ s ↔ (j < U)%nat) as Hs.
  { intros j. rewrite Hperm, elem_of_seq. lia. }
  assert (length s = U) as Hlen by (by rewrite Hperm, length_seq).
  destruct (unsorted_loop s 0 (replicate (length s) None) Hnd) as [Hrl Hr].
  { intros j Hj. rewrite length_replicate, Hlen. by apply Hs. }
  rewrite (imap_ext _ pair) in Hrl, Hr by done. cbv zeta in Hrl, Hr.
  set (r := foldl _ _ (imap pair s)) in *.
  rewrite length_replicate in Hrl.
  assert (r = (λ j, Some (index_of j s)) <$> seq 0 U) as Hreq.
  { apply list_eq. intros j. rewrite Hr, list_lookup_fmap.
    destruct (decide (j ∈ s)) as [Hj|Hj].
    - rewrite lookup_seq_lt by (by apply Hs). done.
    - rewrite lookup_seq_ge by (rewrite Hs in Hj; lia).
      apply lookup_replicate_None. rewrite Hs in Hj. lia. }
  rewrite Hreq.
  rewrite (result_mapM_Ok _ (λ o, default 0%nat o)).
  2:{ intros o Ho. apply list_elem_of_fmap in Ho as (j & -> & _). done. }
  cbn [rbind]. rewrite fmap_twice. cbn [default].
  set (row := λ i, nth i (config_array c) []).
  assert (∀ i, (i < U)%nat → config_array c !! i = Some (row i)) as Hrow.
  { intros i Hi. unfold row. rewrite nth_lookup.
    destruct (lookup_lt_is_Some_2 (config_array c) i Hi) as [x ->]. done. }
  rewrite (take_rows_Ok _ _ row) by (intros i Hi; apply Hrow; by apply Hs).
  cbn [rbind].
  rewrite (take_rows_Ok _ _ (λ u, index_of u s)).
  2:{ intros u Hu. rewrite list_lookup_fmap, lookup_seq_lt by (by apply Hrange).
      done. }
  cbn [rbind]. eexists; split; [done|].
  assert (∀ a b, config_array {| config_array := a; index2uniq := b |} = a) as Pc
    by done.
  assert (∀ a b, index2uniq {| config_array := a; index2uniq := b |} = b) as Pi
    by done.
  split; [|split; [|split]].
  - rewrite Pc, Hperm.
    assert (row <$> seq 0 U = config_array c) as ->; [|done].
    apply list_eq. intros i.
    rewrite list_lookup_fmap. destruct (decide (i < U)%nat) as [Hi|Hi].
    + rewrite lookup_seq_lt by done. cbn. by rewrite Hrow.
    + rewrite lookup_seq_ge by lia. symmetry. apply lookup_ge_None. fold U. lia.
  - assert (StronglySorted (λ a b, lt b a = false) s) as Hsorted.
    { rewrite Hsdef. apply py_sorted_sorted; unfold lt.
      - intros a b. apply key_ltb_asym.
      - intros a b d. apply key_le_trans. }
    assert (∀ i, i ∈ s → key i = config_key (row i)) as Hkey.
    { intros i Hi. apply Hs in Hi. unfold key, keys. rewrite nth_lookup.
      rewrite list_lookup_fmap, Hrow by done. done. }
    rewrite Pc. clear -Hsorted Hkey.
    induction Hsorted as [|a l Hl IH Ha]; [constructor|].
    rewrite fmap_cons. constructor.
    + apply IH. intros i Hi. apply Hkey. by right.
    + apply Forall_fmap. apply Forall_forall. intros b Hb.
      rewrite Forall_forall in Ha. specialize (Ha b Hb). cbn. unfold lt in Ha.
      rewrite <- !Hkey; [done | left | by right].
  - unfold counts_len. rewrite Pi. by rewrite length_fmap.
  - intros i. unfold counts_getitem. rewrite Pc, Pi.
    unfold seq_getitem at 1 3. rewrite length_fmap.
    destruct ((0 <=? _)%Z && _)%bool; [|done].
    rewrite list_lookup_fmap.
    destruct (index2uniq c !! _) as [u|] eqn:Hu; [|done].
    cbn [fmap option_fmap option_map rbind].
    assert (u < U)%nat as HuU by (apply Hrange; by eapply list_elem_of_lookup_2).
    assert (u ∈ s) as Hus by (by apply Hs).
    pose proof (index_of_elem s u Hus) as Hidx.
    pose proof (lookup_lt_Some _ _ _ Hidx) as Hlt.
    destruct (seq_getitem_nat (row <$> s) (index_of u s) (row u)) as [-> _].
    { by rewrite list_lookup_fmap, Hidx. }
    destruct (seq_getitem_nat (config_array c) u (row u)) as [-> _]; [by apply Hrow|].
    done.
Qed.



(** ** data/compressed_counts.py: filtering the sites *)

Lemma index_of_lt (s : list nat) (j : nat) :
  j ∈ s → (index_of j s < length s)%nat.
Proof. intros Hj. eapply lookup_lt_Some. by apply index_of_elem. Qed.

(** [filter(idxs)], for sites that exist on an object whose sites all point
    to a row of [config_array]: it returns an object with one site for each
    entry of [idxs], whose item [k] is the item [idxs[k]] of the object
    filtered; its rows are rows of the object filtered, each of them the
    configuration of a site kept. *)
Theorem counts_filter_items (c : CompressedAlleleCounts) (idxs : list nat) :
  (∀ u, u ∈ index2uniq c → (u < length (config_array c))%nat) →
  (∀ i, i ∈ idxs → (i < length (index2uniq c))%nat) →
  ∃ c', counts_filter c idxs = Ok c'
        ∧ counts_len c' = length idxs
        ∧ (∀ k i, idxs !! k = Some i →
             counts_getitem c' (Z.of_nat k) = counts_getitem c (Z.of_nat i))
        ∧ (∀ r, r ∈ config_array c' →
             ∃ i, i ∈ idxs ∧ counts_getitem c (Z.of_nat i) = Ok r).
Proof.
  intros Hrange Hidxs. unfold counts_filter.
  set (U := length (config_array c)).
  set (site := λ i, nth i (index2uniq c) 0%nat).
  set (row := λ u, nth u (config_array c) []).
  assert (∀ i, (i < length (index2uniq c))%nat →
               index2uniq c !! i = Some (site i) ∧ (site i < U)%nat) as Hsite.
  { intros i Hi. unfold site. rewrite nth_lookup.
    destruct (lookup_lt_is_Some_2 (index2uniq c) i Hi) as [u Hu]. rewrite Hu.
    split; [done|]. apply Hrange. by eapply list_elem_of_lookup_2. }
  assert (∀ u, (u < U)%nat → config_array c !! u = Some (row u)) as Hrow.
  { intros u Hu. unfold row. rewrite nth_lookup.
    destruct (lookup_lt_is_Some_2 (config_array c) u Hu) as [x ->]. done. }
  rewrite (take_rows_Ok _ _ site) by (intros i Hi; by apply Hsite, Hidxs).
  cbn [rbind]. unfold np_unique. cbn [fst snd].
  set (to_keep := site <$> idxs).
  set (uniq := py_sorted Nat.ltb (remove_dups to_keep)).
  assert (∀ u, u ∈ uniq ↔ u ∈ to_keep) as Huniq.
  { intros u. unfold uniq. rewrite py_sorted_perm. apply elem_of_remove_dups. }
  assert (∀ u, u ∈ to_keep → (u < U)%nat) as Hkeep.
  { intros u Hu. unfold to_keep in Hu. apply list_elem_of_fmap in Hu as (i & -> & Hi).
    by apply Hsite, Hidxs. }
  rewrite (take_rows_Ok _ _ row) by (intros u Hu; by apply Hrow, Hkeep, Huniq).
  cbn [rbind]. unfold CompressedAlleleCounts_init.
  set (c1 := {| config_array := row <$> uniq;
                index2uniq := (λ x, index_of x uniq) <$> to_keep |}).
  destruct (sort_configs_spec c1) as (c' & Hc' & Hperm & _ & Hlen & Hget).
  { intros u Hu. cbn [c1 index2uniq config_array] in *.
    apply list_elem_of_fmap in Hu as (x & -> & Hx). rewrite length_fmap.
    by apply index_of_lt, Huniq. }
  exists c'. split; [done|]. split; [|split].
  - rewrite Hlen. unfold counts_len, c1, to_keep. cbn [index2uniq].
    by rewrite !length_fmap.
  - intros k i Hk. rewrite Hget. unfold counts_getitem, c1.
    cbn [index2uniq config_array].
    assert (i ∈ idxs) as Hi by (by eapply list_elem_of_lookup_2).
    destruct (Hsite i (Hidxs i Hi)) as [Hsi HsU].
    assert (site i ∈ uniq) as Hin.
    { apply Huniq. unfold to_keep. apply list_elem_of_fmap. by exists i. }
    destruct (seq_getitem_nat ((λ x, index_of x uniq) <$> to_keep) k
                (index_of (site i) uniq)) as [-> _].
    { unfold to_keep. by rewrite !list_lookup_fmap, Hk. }
    cbn [rbind].
    destruct (seq_getitem_nat (row <$> uniq) (index_of (site i) uniq) (row (site i)))
      as [-> _].
    { by rewrite list_lookup_fmap, index_of_elem. }
    destruct (seq_getitem_nat _ _ _ Hsi) as [-> _]. cbn [rbind].
    by destruct (seq_getitem_nat _ _ _ (Hrow _ HsU)) as [-> _].
  - intros r Hr. rewrite Hperm in Hr. unfold c1 in Hr. cbn [config_array] in Hr.
    apply list_elem_of_fmap in Hr as (u & -> & Hu). apply Huniq in Hu.
    unfold to_keep in Hu. apply list_elem_of_fmap in Hu as (i & -> & Hi).
    exists i. split; [done|]. unfold counts_getitem.
    destruct (Hsite i (Hidxs i Hi)) as [Hsi HsU].
    destruct (seq_getitem_nat _ _ _ Hsi) as [-> _]. cbn [rbind].
    by destruct (seq_getitem_nat _ _ _ (Hrow _ HsU)) as [-> _].
Qed.

Lemma counts_filter_items_witness :
  ∃ c', counts_filter {| config_array := [[(1, 0)]; [(0, 0)]]%Z;
                         index2uniq := [0; 1; 0]%nat |} [2; 0]%nat = Ok c'
        ∧ counts_len c' = 2%nat
        ∧ (∀ k i, [2; 0]%nat !! k = Some i →
             counts_getitem c' (Z.of_nat k)
             = counts_getitem {| config_array := [[(1, 0)]; [(0, 0)]]%Z;
                                 index2uniq := [0; 1; 0]%nat |} (Z.of_nat i))
        ∧ (∀ r, r ∈ config_array c' →
             ∃ i, i ∈ [2; 0]%nat
                  ∧ counts_getitem {| config_array := [[(1, 0)]; [(0, 0)]]%Z;
                                      index2uniq := [0; 1; 0]%nat |} (Z.of_nat i)
                    = Ok r).
Proof.
  apply (counts_filter_items {| config_array := [[(1, 0)]; [(0, 0)]]%Z;
                                index2uniq := [0; 1; 0]%nat |} [2; 0]%nat).
  - intros u Hu. cbn [index2uniq config_array length] in *.
    repeat (apply elem_of_cons in Hu as [->|Hu]; [lia|]). by apply elem_of_nil in Hu.
  - intros i Hi. cbn [index2uniq length].
    repeat (apply elem_of_cons in Hi as [->|Hi]; [lia|]). by apply elem_of_nil in Hi.
Defined.

(** ** demography.py: the value of [normalizing_constant] *)

Lemma uncached_kept (G G' : Demography) :
  nodes_kept G G' → uncached G' = uncached G.
Proof.
  intros [Hn (He & Hg & Hp & _)]. unfold uncached. by rewrite Hn, He, Hg, Hp.
Qed.

Lemma branch_term_value `{SumProduct} (ev : event) (subpops : list nat)
    (newpop : nat) (G G' : Demography) (x : R) :
  branch_term ev subpops newpop G = (Ok x, G') →
  x = branch_value (uncached G) ev subpops newpop.
Proof.
  unfold branch_term. intros H0.
  m_inv H0 arr G1 H1. m_inv H0 z G2 H2. m_inv H0 s G3 H3. m_inv H0 pr G4 H4.
  injection H0 as <- _.
  pose proof (engine_call_kept _ _ _ _ H1) as Hk1.
  apply m_read_inv in H2 as [H2 ->]. apply m_read_inv in H4 as [H4 ->].
  unfold engine_call in H1, H3. rewrite (uncached_kept _ _ Hk1) in H3.
  unfold branch_value.
  destruct (partial_likelihood_bottom (uncached G) ev) as [r1 b1].
  destruct (truncated_sfs (uncached G) newpop) as [r3 b3].
  injection H1 as -> _. injection H3 as -> _. cbn [fst]. by rewrite H2, H4.
Qed.

Lemma branch_loop_value `{SumProduct} (GA : Demography) (ev : event)
    (subpops : list nat) (pops : list nat) :
  ∀ (acc : R) (G G' : Demography) (r : R),
    uncached G = GA →
    m_foldl (λ ret newpop, x ←m branch_term ev subpops newpop; m_ret (ret + x))
            acc pops G = (Ok r, G') →
    uncached G' = GA
    ∧ r = foldl (λ acc newpop, acc + branch_value GA ev subpops newpop) acc pops.
Proof.
  induction pops as [|np pops IH]; intros acc G G' r HG H0.
  - by injection H0 as <- <-.
  - cbn [m_foldl] in H0. m_inv H0 acc1 G1 H1. m_inv H1 x G2 H2.
    injection H1 as <- <-.
    pose proof (branch_term_kept _ _ _ _ _ _ H2) as Hk.
    apply branch_term_value in H2. rewrite HG in H2. subst x.
    apply IH in H0; [|by rewrite (uncached_kept _ _ Hk)]. done.
Qed.

Lemma event_loop_value `{SumProduct} (GA : Demography)
    (evs : list (event * event_data)) :
  ∀ (acc : R) (G G' : Demography) (r : R),
    uncached G = GA →
    m_foldl (λ ret '(ev, d),
               m_foldl (λ ret newpop,
                          x ←m branch_term ev (ed_subpops d) newpop;
                          m_ret (ret + x))
                       ret (ed_parent_pops d))
            acc evs G = (Ok r, G') →
    uncached G' = GA
    ∧ r = foldl (λ acc (evd : event * event_data),
                   foldl (λ acc newpop,
                            acc + branch_value GA evd.1 (ed_subpops evd.2) newpop)
                         acc (ed_parent_pops evd.2))
                acc evs.
Proof.
  induction evs as [|[ev d] evs IH]; intros acc G G' r HG H0.
  - by injection H0 as <- <-.
  - cbn [m_foldl] in H0. m_inv H0 acc1 G1 H1.
    apply (branch_loop_value GA) in H1 as [HG1 ->]; [|done].
    apply IH in H0; [|done]. done.
Qed.

Lemma eventTree_ext (G G' : Demography) :
  leaves G' = leaves G → graph_events G' = graph_events G →
  eventTree G' = eventTree G.
Proof. intros Hl Hg. unfold eventTree. by rewrite Hl, Hg. Qed.

Lemma leaves_ext (G G' : Demography) :
  dom (nodes G') = dom (nodes G) → edges G' = edges G → leaves G' = leaves G.
Proof. intros Hd He. unfold leaves, successors. by rewrite Hd, He. Qed.

Lemma apply_state_dom (st : list (nat * gmap string Z))
    (nd : gmap nat (gmap string Z)) :
  dom (apply_state st nd) = dom nd.
Proof.
  apply set_eq. intros v. rewrite !elem_of_dom. unfold apply_state.
  rewrite map_lookup_imap. destruct (nd !! v); cbn [mbind option_bind]; [|done].
  split; intros _; by eexists.
Qed.

(** The value [normalizing_constant] returns is the sum, over the events of
    the event tree and their parent populations, of
    ((1 - zeroth vector) * truncated sfs).sum(), the engine being asked
    while every leaf is all ancestral, minus the probability the engine
    gives while every leaf is all derived. *)
Theorem normalizing_constant_formula `{SumProduct} (G G' : Demography) (r : R) :
  normalizing_constant G = (Ok r, G') →
  ∃ T p, eventTree G = Ok T
         ∧ (sp_p (all_derived_graph G)).1 = Ok p
         ∧ r = branch_length_sum (all_ancestral_graph G) T - p.
Proof.
  intros Hr. apply normalizing_constant_inv in Hr as [H0 _].
  unfold normalizing_constant_value in H0.
  set (lv := elements (leaves G)) in *.
  assert (NoDup lv) as Hnd by apply NoDup_elements.
  m_inv H0 st1 G0' H1. apply m_read_inv in H1 as [H1 ->].
  apply all_ancestral_state_Ok in H1. subst st1.
  m_inv H0 u1 G1 H1.
  apply update_state_Ok_apply in H1 as [Hs1 Hn1]; [|by rewrite fst_fmap_pair].
  assert (uncached G1 = all_ancestral_graph G) as HG1.
  { unfold all_ancestral_graph, uncached. cbn [nodes edges graph_events splitprobs
      set_nodes]. destruct Hs1 as (-> & -> & -> & _). by rewrite Hn1. }
  assert (leaves G1 = leaves G) as Hl1.
  { apply leaves_ext; [|by destruct Hs1]. rewrite Hn1. apply apply_state_dom. }
  m_inv H0 u2 G2 H2. apply engine_call_kept in H2 as Hk2.
  m_inv H0 T G2' H3. apply m_read_inv in H3 as [H3 ->].
  assert (eventTree G = Ok T) as HT.
  { rewrite <- H3. symmetry. destruct Hk2 as [Hn2 (He2 & Hg2 & _)].
    destruct Hs1 as (He1 & Hg1 & _). apply eventTree_ext; [|congruence].
    rewrite <- Hl1. apply leaves_ext; [by rewrite Hn2 | done]. }
  m_inv H0 ret1 G3 H4.
  apply (event_loop_value (all_ancestral_graph G)) in H4 as [HG3 ->];
    [|by rewrite (uncached_kept _ _ Hk2)].
  m_inv H0 st2 G3' H5. apply m_read_inv in H5 as [H5 ->].
  apply all_derived_state_Ok in H5. subst st2.
  m_inv H0 u4 G4 H6.
  apply update_state_Ok_apply in H6 as [Hs4 Hn4]; [|by rewrite fst_fmap_pair].
  m_inv H0 u5 G5 H7. apply engine_call_kept in H7 as Hk5.
  m_inv H0 p G6 H8. m_inv H0 u7 G7 H9. injection H0 as <- _.
  exists T, p. split; [done|]. split; [|done].
  assert (uncached G5 = all_derived_graph G) as HG5.
  { rewrite (uncached_kept _ _ Hk5).
    assert (nodes G3 = nodes G1 ∧ edges G3 = edges G ∧ graph_events G3 = graph_events G
            ∧ splitprobs G3 = splitprobs G) as (Hn3 & He3 & Hg3 & Hp3).
    { assert (uncached G3 = uncached G1) as Heq by congruence.
      unfold uncached in Heq. injection Heq as -> -> -> ->.
      by destruct Hs1 as (-> & -> & -> & _). }
    unfold all_derived_graph, uncached.
    destruct Hs4 as (-> & -> & -> & _). rewrite Hn4, He3, Hg3, Hp3.
    cbn [nodes edges graph_events splitprobs set_nodes]. f_equal.
    rewrite Hn3, Hn1. apply map_eq. intros v. unfold apply_state.
    rewrite !map_lookup_imap.
    destruct (nodes G !! v) as [ndv|] eqn:Hndv; cbn [mbind option_bind]; [|done].
    f_equal.
    destruct (decide (v ∈ lv)) as [Hv|Hv].
    - assert (lineages_of G3 v = lineages_of G v) as Hlin.
      { unfold lineages_of, attribute. rewrite Hn3, Hn1. unfold apply_state.
        rewrite map_lookup_imap, Hndv. cbn [mbind option_bind].
        erewrite (elem_of_list_to_map_1 _ v); [| by rewrite fst_fmap_pair |].
        2:{ apply list_elem_of_fmap. by exists v. }
        by rewrite pair_union_lookup. }
      erewrite (elem_of_list_to_map_1 _ v); [| by rewrite fst_fmap_pair |].
      2:{ apply list_elem_of_fmap. by exists v. }
      erewrite (elem_of_list_to_map_1 _ v); [| by rewrite fst_fmap_pair |].
      2:{ apply list_elem_of_fmap. by exists v. }
      erewrite (elem_of_list_to_map_1 _ v); [| by rewrite fst_fmap_pair |].
      2:{ apply list_elem_of_fmap. by exists v. }
      rewrite Hlin. apply map_eq. intros k. rewrite !pair_union_lookup.
      repeat case_decide; done.
    - rewrite !(not_elem_of_list_to_map_1 _ v) by (by rewrite fst_fmap_pair).
      done. }
  unfold engine_call in H8. rewrite HG5 in H8.
  destruct (sp_p (all_derived_graph G)) as [rp b]. by injection H8 as -> _.
Qed.

Lemma normalizing_constant_formula_witness :
  ∃ T p, eventTree sample_tree_graph = Ok T
         ∧ (@sp_p sample_engine (all_derived_graph sample_tree_graph)).1 = Ok p
         ∧ 5 / 2 = @branch_length_sum sample_engine
                     (all_ancestral_graph sample_tree_graph) T - p.
Proof.
  apply (@normalizing_constant_formula sample_engine sample_tree_graph
           sample_all_derived_graph (5 / 2)).
  apply sample_run_fresh.
Defined.
